(** * Permission collections of the Passbolt browser extension

    A shallow embedding of
    [src/all/background_page/model/entity/permission/permissionsCollection.js],
    of the permission part of [src/all/background_page/model/folder/folderModel.js]
    and of the resource export controller with the progress controller it
    calls, followed by the properties of the specification that concern them.

    JavaScript exceptions are values of the type [error]; a method of a
    collection is a function from the member array before the call to the
    member array after it and either the thrown error or the returned value. *)

From stdpp Require Import base option list strings.

(** ** Values shared by the modules *)

(** The errors the modelled code throws.  [EntityCollectionError] is built
    at the call sites as [new EntityCollectionError(position, rule, msg)];
    only such an error has a [rule] and a [position] property. *)
Inductive error : Type :=
  | TypeError (msg : string)
  | EntityValidationError
  | EntityCollectionError (position : nat) (rule : string) (msg : string)
  | RemoteError (msg : string).

#[global] Instance error_eq_dec : EqDecision error.
Proof. solve_decision. Defined.

(** [error.rule]: [None] is JavaScript's [undefined]. *)
Definition error_rule (e : error) : option string :=
  match e with
  | EntityCollectionError _ rule _ => Some rule
  | _ => None
  end.

(** [error.position] *)
Definition error_position (e : error) : option nat :=
  match e with
  | EntityCollectionError position _ _ => Some position
  | _ => None
  end.

Abbreviation Result A := (sum error A).

(** Truthiness of a property that holds a string or is [undefined]:
    the empty string and [undefined] are falsy. *)
Definition truthy (s : option string) : bool :=
  match s with
  | Some s => negb (bool_decide (s = ""))
  | None => false
  end.

(** ** Methods with state and exceptions

    A method run on an object with state [S]: from the state before the call
    to the state after it, with the error thrown or the value returned. *)

Definition M (S A : Type) : Type := S → S * Result A.

Definition ret {S A} (a : A) : M S A := λ s, (s, inr a).

Definition throw {S A} (e : error) : M S A := λ s, (s, inl e).

Definition bind {S A B} (m : M S A) (k : A → M S B) : M S B :=
  λ s,
    match m s with
    | (s', inr a) => k a s'
    | (s', inl e) => (s', inl e)
    end.

(** [try { m } catch (error) { handler error }] *)
Definition try_catch {S A} (m : M S A) (handler : error → M S A) : M S A :=
  λ s,
    match m s with
    | (s', inr a) => (s', inr a)
    | (s', inl e) => handler e s'
    end.

(** [try { m } finally { cleanup }]: [cleanup] always runs; when it throws,
    its error replaces the outcome of [m]. *)
Definition try_finally {S A} (m : M S A) (cleanup : M S unit) : M S A :=
  λ s,
    match m s with
    | (s', r) =>
        match cleanup s' with
        | (s'', inr _) => (s'', r)
        | (s'', inl e) => (s'', inl e)
        end
    end.

Definition lift {S A} (r : Result A) : M S A := λ s, (s, r).

Notation "'let*' x ':=' c1 'in' c2" := (bind c1 (λ x, c2))
  (at level 10, x name, c1 at level 100, c2 at level 200).
Notation "c1 ';;' c2" := (bind c1 (λ _, c2))
  (at level 100, c2 at level 200, right associativity).

(** [for (const x of xs) { body(x) }], left at the first throw *)
Fixpoint for_of {S A} (body : A → M S unit) (xs : list A) : M S unit :=
  match xs with
  | [] => ret ()
  | x :: xs' => body x ;; for_of body xs'
  end.

(** ** Permission entity

    The collection uses [permissionEntity.js] through its constructor, its
    getters and a few static helpers; they are modelled here from the data
    model of the specification. *)

(** Modelled from the spec: the permission level of [permissionEntity.js],
    "an ordered enum: Read < Update < Owner". *)
Inductive PermissionType : Type := Read | Update | Owner.

#[global] Instance PermissionType_eq_dec : EqDecision PermissionType.
Proof. solve_decision. Defined.

(** Modelled from the spec: the rank of a level in the order
    Read < Update < Owner of [permissionEntity.js]. *)
Definition level (t : PermissionType) : nat :=
  match t with
  | Read => 1
  | Update => 2
  | Owner => 3
  end.

(** Modelled from the spec: the permission record of [permissionEntity.js],
    "identifier (optional, assigned by the remote system), ACO type, ACO
    identifier, ARO type, ARO identifier, permission level". *)
Record PermissionDto : Type := mkPermissionDto {
  dto_id : option string;
  dto_aco : string;
  dto_aco_foreign_key : string;
  dto_aro : string;
  dto_aro_foreign_key : string;
  dto_type : PermissionType
}.

#[global] Instance PermissionDto_eq_dec : EqDecision PermissionDto.
Proof. solve_decision. Defined.

Module PermissionEntity.

(** Modelled from the spec: the entity of [permissionEntity.js], which holds
    the properties of the record it was built from. *)
Record t : Type := mk { props : PermissionDto }.

#[global] Instance eq_dec : EqDecision t.
Proof. solve_decision. Defined.

(** Modelled from the spec: the getter [id] of [permissionEntity.js]. *)
Definition id (p : t) : option string := dto_id (props p).

(** Modelled from the spec: the getter [aco] of [permissionEntity.js]. *)
Definition aco (p : t) : string := dto_aco (props p).

(** Modelled from the spec: the getter [acoForeignKey] of
    [permissionEntity.js]. *)
Definition acoForeignKey (p : t) : string := dto_aco_foreign_key (props p).

(** Modelled from the spec: the getter [aro] of [permissionEntity.js]. *)
Definition aro (p : t) : string := dto_aro (props p).

(** Modelled from the spec: the getter [aroForeignKey] of
    [permissionEntity.js]. *)
Definition aroForeignKey (p : t) : string := dto_aro_foreign_key (props p).

(** Modelled from the spec: the getter [type] of [permissionEntity.js]. *)
Definition type (p : t) : PermissionType := dto_type (props p).

(** Modelled from the spec: the constant [ACO_FOLDER] of
    [permissionEntity.js], the ACO type "Folder". *)
Definition ACO_FOLDER : string := "Folder".

(** Modelled from the spec: the constructor of [permissionEntity.js],
    which "validates each record against the permission schema" and throws
    when the record does not validate.  The schema is the parameter
    [validate]. *)
Definition new (validate : PermissionDto → bool) (dto : PermissionDto)
  : Result t :=
  if validate dto then inr (mk dto) else inl EntityValidationError.

(** Modelled from the spec: [toDto] of [permissionEntity.js], the record of
    the entity ("deep copy if already an entity").  The contain options
    select associated users and groups, which are not modelled. *)
Definition toDto (p : t) : PermissionDto := props p.

(** Modelled from the spec: [isAroMatching] of [permissionEntity.js],
    same "(ARO type, ARO id)". *)
Definition isAroMatching (a b : t) : bool :=
  bool_decide (aro a = aro b) && bool_decide (aroForeignKey a = aroForeignKey b).

(** Modelled from the spec: [isAcoMatching] of [permissionEntity.js],
    same "(ACO type, ACO id)". *)
Definition isAcoMatching (a b : t) : bool :=
  bool_decide (aco a = aco b) && bool_decide (acoForeignKey a = acoForeignKey b).

(** Modelled from the spec: [isAcoAndAroMatching] of
    [permissionEntity.js], "matches the new entity on both ACO and ARO". *)
Definition isAcoAndAroMatching (a b : t) : bool :=
  isAroMatching a b && isAcoMatching a b.

(** Modelled from the spec: [getHighestPermission] of
    [permissionEntity.js], "whichever of the two has the higher permission
    level (tie -> keep either, deterministic toward the existing one)";
    the existing member is the first argument at the call site. *)
Definition getHighestPermission (a b : t) : t :=
  if decide (level (type a) < level (type b)) then b else a.

(** Modelled from the spec: [isOwner] of [permissionEntity.js],
    "Owner level". *)
Definition isOwner (p : t) : bool := bool_decide (type p = Owner).

(** Modelled from the spec: [copyForAnotherAco] of [permissionEntity.js],
    which "copies each parent permission re-targeted at the new ACO". *)
Definition copyForAnotherAco (p : t) (aco : string) (acoId : string) : t :=
  mk {| dto_id := dto_id (props p);
        dto_aco := aco;
        dto_aco_foreign_key := acoId;
        dto_aro := dto_aro (props p);
        dto_aro_foreign_key := dto_aro_foreign_key (props p);
        dto_type := dto_type (props p) |}.

End PermissionEntity.

(** What a caller can hand to [push]: something that is not an object
    ([null], [undefined], a number, ...), a plain record, or an entity. *)
Inductive value : Type :=
  | NotAnObject
  | Dto (dto : PermissionDto)
  | Entity (p : PermissionEntity.t).

(** ** PermissionsCollection *)

Module PermissionsCollection.

Import PermissionEntity.

Definition RULE_UNIQUE_ID : string := "unique_id".
Definition RULE_UNIQUE_ARO : string := "unique_aro".
Definition RULE_SAME_ACO : string := "same_aco".
Definition RULE_ONE_OWNER : string := "owner".

(** The state of a collection is its array of members ([this._items],
    read through the getter [permissions]). *)
Abbreviation items := (list PermissionEntity.t).

(** The getter [this.permissions] *)
Definition permissions : M items items := λ this, (this, inr this).

(** [super.push(item)] of the entity collection: appends to the array. *)
Definition super_push (item : PermissionEntity.t) : M items unit :=
  λ this, (this ++ [item], inr ()).

(** [this.permissions[position] = item], for a position inside the array
    (the only use in the source) *)
Definition set_item (position : nat) (item : PermissionEntity.t)
  : M items unit :=
  λ this, (<[position := item]> this, inr ()).

Definition assertSameAco (permission : PermissionEntity.t) : M items unit :=
  let* members := permissions in
  match members !! 0 with
  | None => ret ()
  | Some first =>
      if negb (isAcoMatching permission first) then
        throw (EntityCollectionError 0 RULE_SAME_ACO
          ("The collection is already composed of this type of ACO: "
             +:+ aco first +:+ "."))
      else ret ()
  end.

(** The guard of the loop of [assertUniqueId] *)
Definition same_id (permission existingPermission : PermissionEntity.t)
  : bool :=
  truthy (id existingPermission)
  && bool_decide (id existingPermission = id permission).

(** [for (; i < length; i++)] over the members with a throw in its body:
    the loop is left at the first index whose member passes the guard. *)
Definition assertUniqueId (permission : PermissionEntity.t) : M items unit :=
  if negb (truthy (id permission)) then ret ()
  else
    let* members := permissions in
    match list_find (λ existingPermission,
                       same_id permission existingPermission = true)
                    members with
    | Some (i, _) =>
        throw (EntityCollectionError i RULE_UNIQUE_ID
                 ("Permission id " +:+ default "" (id permission)
                    +:+ " already exists."))
    | None => ret ()
    end.

(** The same loop with the guard [isAroMatching(permission,
    existingPermission)] *)
Definition assertUniqueAro (permission : PermissionEntity.t) : M items unit :=
  let* members := permissions in
  match list_find (λ existingPermission,
                     isAroMatching permission existingPermission = true)
                  members with
  | Some (i, _) =>
      throw (EntityCollectionError i RULE_UNIQUE_ARO
               (aro permission +:+ " id " +:+ aroForeignKey permission
                  +:+ " already exists in the permission list."))
  | None => ret ()
  end.

(** The loop of [assertAtLeastOneOwner]: [true] when it returns early *)
Fixpoint found_owner (members : items) : bool :=
  match members with
  | [] => false
  | permission :: rest =>
      if isOwner permission then true else found_owner rest
  end.

Definition assertAtLeastOneOwner : M items unit :=
  let* members := permissions in
  if found_owner members then ret ()
  else throw (EntityCollectionError 0 RULE_ONE_OWNER
                "Permission collection should contain at least one owner.").

(** [findByAro]: the first member with the ARO of [permission], or
    [undefined] *)
Definition findByAro (this : items) (permission : PermissionEntity.t)
  : option PermissionEntity.t :=
  let result :=
    filter (λ existingPermission,
              isAroMatching existingPermission permission = true) this in
  match result with
  | [] => None
  | first :: _ => Some first
  end.

(** [toDto] of the collection *)
Definition toDto (this : items) : list PermissionDto :=
  map PermissionEntity.toDto this.

(** [recover.includes(error.rule)] *)
Definition recoverable (e : error) : bool :=
  match error_rule e with
  | Some rule => bool_decide (rule ∈ [RULE_UNIQUE_ID; RULE_UNIQUE_ARO])
  | None => false
  end.

(** [typeof ownerValidation === 'undefined' || ownerValidation] *)
Definition owner_validation_enabled (ownerValidation : option bool) : bool :=
  match ownerValidation with
  | None => true
  | Some b => b
  end.

Section Methods.

(** The permission schema checked by the entity constructor *)
Variable validate : PermissionDto → bool.

(** [push] from the construction of the entity on *)
Definition push_dto (permission : PermissionDto) : M items unit :=
  let* newPermission := lift (PermissionEntity.new validate permission) in
  assertSameAco newPermission ;;
  assertUniqueId newPermission ;;
  assertUniqueAro newPermission ;;
  super_push newPermission.

Definition push (permission : value) : M items unit :=
  match permission with
  | NotAnObject =>
      throw (TypeError "PermissionsCollection push expect a permission DTO.")
  | Entity p => push_dto (PermissionEntity.toDto p)
  | Dto dto => push_dto dto
  end.

(** [this.permissions[error.position]]: [undefined] when there is no such
    member *)
Definition item_at (position : option nat)
  : M items (option PermissionEntity.t) :=
  let* members := permissions in
  ret (position ≫= (members !!.)).

(** The parameter is an entity, as documented and as at every call.  An
    error with one of the two recovered rules carries the index of a member;
    the helpers of the entity, given [undefined], would throw. *)
Definition addOrReplace (permission : PermissionEntity.t) : M items unit :=
  try_catch (push (Entity permission)) (λ error,
    if negb (recoverable error) then throw error
    else
      let* existingPermission := item_at (error_position error) in
      match existingPermission, error_position error with
      | Some existingPermission, Some position =>
          if isAcoAndAroMatching existingPermission permission then
            set_item position
              (getHighestPermission existingPermission permission)
          else throw error
      | _, _ => throw (TypeError "existingPermission is undefined")
      end).

(** The constructor.  [EntitySchema.validate] with the array schema hands
    the array on ("there is no multi-item validation"); every item is
    then pushed into the initially empty collection.  A throw leaves no
    collection. *)
Definition constructor (permissionsDto : list value)
    (ownerValidation : option bool) : Result items :=
  let body :=
    for_of push permissionsDto ;;
    if owner_validation_enabled ownerValidation
    then assertAtLeastOneOwner else ret () in
  match body [] with
  | (this, inr _) => inr this
  | (_, inl e) => inl e
  end.

Definition unionByAcoAndType (set1 set2 : items)
    (ownerValidation : option bool) : Result items :=
  match constructor (map Dto (toDto set1)) (Some false) with
  | inl e => inl e
  | inr set3 =>
      let body :=
        for_of addOrReplace set2 ;;
        if owner_validation_enabled ownerValidation
        then assertAtLeastOneOwner else ret () in
      match body set3 with
      | (set3', inr _) => inr set3'
      | (_, inl e) => inl e
      end
  end.

End Methods.

End PermissionsCollection.

(** ** FolderModel: permissions applied from the parent folder *)

Module FolderModel.

Import PermissionEntity PermissionsCollection.

(** Modelled from the spec: the folder entity of [folderEntity.js], of
    which the model reads the identifier, the parent identifier (absent for
    a root folder), the permission of the current user and, for a folder
    fetched with its permissions, the permissions collection. *)
Record FolderEntity : Type := mkFolderEntity {
  folder_id : string;
  folderParentId : option string;
  permission : PermissionEntity.t;
  folder_permissions : items
}.

Section Methods.

Variable validate : PermissionDto → bool.

(** [new FolderEntity(await this.folderService.get(id, {permissions:
    true}))]: the remote call and the entity built from its answer, or
    the error of either. *)
Variable get_folder : string → Result FolderEntity.

Definition cloneParentPermissions (aco acoId folderParentId : string)
  : Result items :=
  match get_folder folderParentId with
  | inl e => inl e
  | inr parentFolder =>
      match constructor validate [] (Some false) with
      | inl e => inl e
      | inr permissions =>
          let body :=
            for_of (λ parentPermission,
                      let clone :=
                        copyForAnotherAco parentPermission aco acoId in
                      addOrReplace validate clone)
                   (folder_permissions parentFolder) in
          match body permissions with
          | (permissions', inr _) => inr permissions'
          | (_, inl e) => inl e
          end
      end
  end.

(** [typeof keepOwnership === 'undefined' || keepOwnership] *)
Definition keep_ownership (keepOwnership : option bool) : bool :=
  match keepOwnership with
  | None => true
  | Some b => b
  end.

(** The first part of [applyPermissionFromParent]: the current and the
    target permissions that are handed to
    [PermissionChangesCollection.buildChangesFromPermissions]; [None]
    when the folder has no parent. *)
Definition applyPermissionFromParent_permissions
    (folderEntity : FolderEntity) (keepOwnership : option bool)
  : Result (option (items * items)) :=
  if truthy (folderParentId folderEntity) then
    match constructor validate [Entity (permission folderEntity)] None with
    | inl e => inl e
    | inr currentPermissions =>
        match cloneParentPermissions ACO_FOLDER (folder_id folderEntity)
                (default "" (folderParentId folderEntity)) with
        | inl e => inl e
        | inr targetPermissions =>
            if keep_ownership keepOwnership then
              match addOrReplace validate (permission folderEntity)
                      targetPermissions with
              | (targetPermissions', inr _) =>
                  inr (Some (currentPermissions, targetPermissions'))
              | (_, inl e) => inl e
              end
            else inr (Some (currentPermissions, targetPermissions))
        end
    end
  else inr None.

(** The changes sent to the API; [permissionChangesCollection.js] and the
    folder service are collaborators outside this model. *)
Variable Changes : Type.
Variable buildChangesFromPermissions : items → items → Changes.
Variable updatePermissions : FolderEntity → Changes → Result FolderEntity.

Definition applyPermissionFromParent
    (folderEntity : FolderEntity) (keepOwnership : option bool)
  : Result FolderEntity :=
  match applyPermissionFromParent_permissions folderEntity keepOwnership with
  | inl e => inl e
  | inr None => inr folderEntity
  | inr (Some (currentPermissions, targetPermissions)) =>
      let changes :=
        buildChangesFromPermissions currentPermissions targetPermissions in
      updatePermissions folderEntity changes
  end.

End Methods.

End FolderModel.

(** ** Members as objects

    The same methods with the members of the collection held as references
    into a store of entity objects, to tell an entity object that the
    collection built from one that the caller holds. *)

Module Objects.

Import PermissionEntity PermissionsCollection.

(** A reference is the index of the object in the store. *)
Abbreviation ref := nat.

Record state : Type := mkState {
  objects : list PermissionEntity.t;
  members : list ref
}.

(** The values of the members *)
Definition view (st : state) : items := omap (objects st !!.) (members st).

(** Every member is an object of the store. *)
Definition closed (st : state) : Prop :=
  ∀ r, r ∈ members st → r < length (objects st).

Definition deref (r : ref) : M state PermissionEntity.t :=
  λ st,
    match objects st !! r with
    | Some p => (st, inr p)
    | None => (st, inl (TypeError "not an entity"))
    end.

(** [new] puts a fresh object into the store. *)
Definition alloc (p : PermissionEntity.t) : M state ref :=
  λ st, (mkState (objects st ++ [p]) (members st), inr (length (objects st))).

(** A method that only reads the members, run on their values *)
Definition reading {A} (m : M items A) : M state A :=
  λ st, (st, (m (view st)).2).

Definition super_push (item : ref) : M state unit :=
  λ st, (mkState (objects st) (members st ++ [item]), inr ()).

Definition set_item (position : nat) (item : ref) : M state unit :=
  λ st, (mkState (objects st) (<[position := item]> (members st)), inr ()).

(** [this.permissions[error.position]] *)
Definition item_at (position : option nat) : M state (option ref) :=
  λ st, (st, inr (position ≫= (members st !!.))).

(** [getHighestPermission] returns one of the two objects it is given. *)
Definition getHighestPermission (a b : ref) : M state ref :=
  let* pa := deref a in
  let* pb := deref b in
  ret (if decide (level (type pa) < level (type pb)) then b else a).

Definition isAcoAndAroMatching (a b : ref) : M state bool :=
  let* pa := deref a in
  let* pb := deref b in
  ret (PermissionEntity.isAcoAndAroMatching pa pb).

(** What a caller can do to an entity object it holds: overwrite its
    properties. *)
Definition assign (r : ref) (props : PermissionDto) : M state unit :=
  λ st,
    (mkState (<[r := PermissionEntity.mk props]> (objects st)) (members st),
     inr ()).

Section Methods.

Variable validate : PermissionDto → bool.

(** [push] of an entity object *)
Definition push (permission : ref) : M state unit :=
  let* p := deref permission in
  let* entity :=
    lift (PermissionEntity.new validate (PermissionEntity.toDto p)) in
  let* newPermission := alloc entity in
  reading (assertSameAco entity) ;;
  reading (assertUniqueId entity) ;;
  reading (assertUniqueAro entity) ;;
  super_push newPermission.

Definition addOrReplace (permission : ref) : M state unit :=
  try_catch (push permission) (λ error,
    if negb (recoverable error) then throw error
    else
      let* existingPermission := item_at (error_position error) in
      match existingPermission, error_position error with
      | Some existingPermission, Some position =>
          let* matching := isAcoAndAroMatching existingPermission permission in
          if matching then
            let* highest :=
              getHighestPermission existingPermission permission in
            set_item position highest
          else throw error
      | _, _ => throw (TypeError "existingPermission is undefined")
      end).

End Methods.

End Objects.

(** ** Progress controller and resource export controller *)

(** Modelled from the spec: the workers of [model/worker.js], of which the
    controllers read the page mod, the tab and the port; "fire-and-forget
    event emission to a named worker/tab context". *)
Record Worker : Type := mkWorker {
  worker_name : string;
  pageMod : option string;
  tab_id : nat
}.

(** An argument of a call or of an emitted message *)
Inductive arg : Type :=
  | Undefined
  | Str (s : string)
  | Num (n : nat).

(** What the controllers do to the outside, in order *)
Inductive event : Type :=
  | PortEmit (w : Worker) (message : string) (args : list arg)
  | ConsoleError (e : error)
  | TabStorageSet (tabId : nat) (key : string) (resources : list string).

Abbreviation trace := (list event).

Definition port_emit (w : Worker) (message : string) (args : list arg)
  : M trace unit :=
  λ log, (log ++ [PortEmit w message args], inr ()).

Definition console_error (e : error) : M trace unit :=
  λ log, (log ++ [ConsoleError e], inr ()).

Definition TabStorage_set (tabId : nat) (key : string) (resources : list string)
  : M trace unit :=
  λ log, (log ++ [TabStorageSet tabId key resources], inr ()).

(** A function value of a module *)
Abbreviation function := (Worker → list arg → M trace unit).

(** [await value]: the awaits are run in order, and a value that is not a
    rejected promise is handed on. *)
Definition await {A} (value : M trace A) : M trace A := value.

(** The i-th argument of a call, [undefined] when it is not given *)
Definition argument (args : list arg) (i : nat) : arg :=
  default Undefined (args !! i).

Module progressController.

Section Functions.

(** [Worker.get(name, tabId)] of [model/worker.js] *)
Variable Worker_get : string → nat → Worker.

Definition isLegacyWorker (worker : Worker) : bool :=
  bool_decide (pageMod worker ≠ None).

Definition getProgressWorker (srcWorker : Worker) : Worker :=
  if isLegacyWorker srcWorker then Worker_get "ReactApp" (tab_id srcWorker)
  else srcWorker.

Definition start : function := λ worker args,
  (if isLegacyWorker worker then
     let appWorker := Worker_get "App" (tab_id worker) in
     port_emit appWorker "passbolt.app.show" []
   else ret ()) ;;
  let progressWorker := getProgressWorker worker in
  port_emit progressWorker "passbolt.progress.start"
    [argument args 0; argument args 1; argument args 2].

Definition complete : function := λ worker args,
  let progressWorker := getProgressWorker worker in
  port_emit progressWorker "passbolt.progress.complete" [] ;;
  if isLegacyWorker worker then
    let appWorker := Worker_get "App" (tab_id worker) in
    port_emit appWorker "passbolt.app.hide" []
  else ret ().

Definition update : function := λ worker args,
  let progressWorker := getProgressWorker worker in
  port_emit progressWorker "passbolt.progress.update"
    [argument args 1; argument args 0].

Definition updateGoals : function := λ worker args,
  let progressWorker := getProgressWorker worker in
  port_emit progressWorker "passbolt.progress.update-goals"
    [argument args 0].

(** The [exports] object of the module: the four assignments
    [exports.start], [exports.complete], [exports.update] and
    [exports.updateGoals]. *)
Definition exports : list (string * function) :=
  [("start", start); ("complete", complete);
   ("update", update); ("updateGoals", updateGoals)].

End Functions.

End progressController.

(** [object.name]: the property of a module object, [None] for [undefined] *)
Definition property (object : list (string * function)) (name : string)
  : option function :=
  (λ found, found.2.2) <$> list_find (λ entry, entry.1 = name) object.

(** [object.name(worker, ...args)]: calling [undefined] throws a
    [TypeError]. *)
Definition call_property (object_name : string)
    (object : list (string * function)) (name : string)
    (worker : Worker) (args : list arg) : M trace unit :=
  match property object name with
  | Some f => f worker args
  | None =>
      throw (TypeError (object_name +:+ "." +:+ name +:+ " is not a function"))
  end.

Module ResourceExportController.

Section Exec.

Variable Worker_get : string → nat → Worker.

(** [LegacyResourceService.findAllByResourcesIds(resourcesIds,
    {contain: {secret: 1}})]: the resources, or the failure of the remote
    call *)
Variable findAllByResourcesIds : list string → Result (list string).

(** [const progressController = require('../progress/progressController')] *)
Definition progressController : list (string * function) :=
  progressController.exports Worker_get.

(** [exec]: an [async] function whose awaits are run in order; a throw
    that leaves it is the rejection of the promise it returns. *)
Definition exec (worker : Worker) (resourcesIds : list string)
  : M trace unit :=
  try_finally
    (try_catch
       (let* progressDialogPromise :=
          call_property "progressController" progressController "open"
            worker [Str "Retrieving passwords..."] in
        let* resources := await (lift (findAllByResourcesIds resourcesIds)) in
        await (call_property "progressController" progressController "close"
                 worker []) ;;
        TabStorage_set (tab_id worker) "exportedResources" resources ;;
        await (ret progressDialogPromise) ;;
        port_emit worker "passbolt.export-passwords.open-dialog" [])
       (λ error, console_error error))
    (await (call_property "progressController" progressController "close"
              worker [])).

End Exec.

End ResourceExportController.

(** ** Invariants and reachable collections *)

Section Invariants.

Import PermissionEntity PermissionsCollection.

(** All members are about the same (ACO type, ACO id). *)
Definition same_aco (c : items) : Prop :=
  ∀ p q, p ∈ c → q ∈ c →
    aco p = aco q ∧ acoForeignKey p = acoForeignKey q.

(** At most one member per (ARO type, ARO id) *)
Definition unique_aro (c : items) : Prop :=
  ∀ i j p q, c !! i = Some p → c !! j = Some q →
    aro p = aro q → aroForeignKey p = aroForeignKey q → i = j.

(** Identifiers, when present, are pairwise distinct; an identifier is
    present when the property is truthy, which is what [assertUniqueId]
    tests. *)
Definition unique_id (c : items) : Prop :=
  ∀ i j p q, c !! i = Some p → c !! j = Some q →
    truthy (id p) = true → id p = id q → i = j.

Definition invariants (c : items) : Prop :=
  same_aco c ∧ unique_aro c ∧ unique_id c.

(** Every member passes the schema. *)
Definition all_valid (validate : PermissionDto → bool) (c : items) : Prop :=
  ∀ p, p ∈ c → validate (props p) = true.

(** The collections that the public operations produce: a constructor that
    returns, and the collection as [push] or [addOrReplace] leave it,
    whether they return or throw; a union that returns. *)
Inductive reachable (validate : PermissionDto → bool) : items → Prop :=
  | reachable_constructor permissionsDto ownerValidation c :
      constructor validate permissionsDto ownerValidation = inr c →
      reachable validate c
  | reachable_push c permission :
      reachable validate c →
      reachable validate (push validate permission c).1
  | reachable_addOrReplace c permission :
      reachable validate c →
      reachable validate (addOrReplace validate permission c).1
  | reachable_unionByAcoAndType set1 set2 ownerValidation c :
      reachable validate set1 → reachable validate set2 →
      unionByAcoAndType validate set1 set2 ownerValidation = inr c →
      reachable validate c.

(** The record a value is pushed as, when it is an object *)
Definition value_dto (v : value) : option PermissionDto :=
  match v with
  | NotAnObject => None
  | Dto dto => Some dto
  | Entity p => Some (PermissionEntity.toDto p)
  end.

(** The highest level among the entries of [l] for the ARO of [p]; 0 when
    there is none *)
Definition highest_level (p : PermissionEntity.t) (l : items) : nat :=
  max_list (map (λ q, level (type q))
                (filter (λ q, isAroMatching q p = true) l)).

(** The outcome of the three assertions of [push], which checks the same
    ACO against the first member, then the identifier, then the ARO. *)
Definition aco_ok (p : PermissionEntity.t) (c : items) : Prop :=
  ∀ first, c !! 0 = Some first → isAcoMatching p first = true.

Definition id_ok (p : PermissionEntity.t) (c : items) : Prop :=
  truthy (id p) = true → ∀ q, q ∈ c → same_id p q = false.

Definition aro_ok (p : PermissionEntity.t) (c : items) : Prop :=
  ∀ q, q ∈ c → isAroMatching p q = false.

(** What a member of the first set becomes in the union with [set2]: the
    higher of itself and the entry of [set2] for its ARO, when there is
    one. *)
Definition merged (set2 : items) (existing : PermissionEntity.t)
  : PermissionEntity.t :=
  match findByAro set2 existing with
  | Some p => getHighestPermission existing p
  | None => existing
  end.

(** What the fold of [unionByAcoAndType] needs of the seed [set3] and of
    the second set: every ARO of the second set is in the seed, the two
    are about the same ACO, and a member of the seed that carries the
    identifier of a member of the second set has its ARO. *)
Definition foldable (set3 set2 : items) : Prop :=
  (∀ b, b ∈ set2 → ∃ s, s ∈ set3 ∧ isAroMatching s b = true) ∧
  (∀ s b, s ∈ set3 → b ∈ set2 → isAcoMatching b s = true) ∧
  (∀ s b, s ∈ set3 → b ∈ set2 → truthy (id b) = true → id s = id b →
          isAroMatching s b = true).

End Invariants.

(** ** Sample data *)

Section Samples.

(** A schema in the manner of the entity's: known ACO and ARO types,
    identifiers that are not empty. *)
Definition sample_schema (dto : PermissionDto) : bool :=
  bool_decide (dto_aco dto ∈ ["Resource"; "Folder"])
  && bool_decide (dto_aro dto ∈ ["User"; "Group"])
  && bool_decide (dto_id dto ≠ Some "")
  && bool_decide (dto_aco_foreign_key dto ≠ "")
  && bool_decide (dto_aro_foreign_key dto ≠ "").

(** A record about a folder *)
Definition on_folder (folder : string) (id : option string)
    (aro aro_id : string) (type : PermissionType) : PermissionDto :=
  mkPermissionDto id "Folder" folder aro aro_id type.

Definition entity_on_folder (folder : string) (id : option string)
    (aro aro_id : string) (type : PermissionType) : PermissionEntity.t :=
  PermissionEntity.mk (on_folder folder id aro aro_id type).

(** The folders of the example of the specification: the parent with the
    permission [{User, u1, Owner}], the child with the own permission
    [{User, u2, Owner}]. *)
Definition sample_parent : FolderModel.FolderEntity :=
  FolderModel.mkFolderEntity "parent" None
    (entity_on_folder "parent" None "User" "u1" Owner)
    [entity_on_folder "parent" None "User" "u1" Owner].

Definition sample_folder : FolderModel.FolderEntity :=
  FolderModel.mkFolderEntity "folder" (Some "parent")
    (entity_on_folder "folder" None "User" "u2" Owner) [].

Definition sample_get_folder (folderId : string)
  : Result FolderModel.FolderEntity :=
  if bool_decide (folderId = "parent") then inr sample_parent
  else inl (RemoteError "not found").

End Samples.

(** ** FolderModel: calls to the folder service and to the local storage

    The methods of [folderModel.js] that fetch, create, update and delete
    folders.  The folder service, the local storage and the entity
    constructors are collaborators; a call to one of them is recorded and
    answered by a parameter that sees the calls made before it. *)

Module FolderModelCalls.

Import FolderModel.

Section Calls.

(** The folder record of the API, the folders collection entity and the
    permission changes collection. *)
Variable FolderDto FoldersCollection Changes : Type.

(** The calls to [this.folderService] and to [FolderLocalStorage], with
    their arguments *)
Inductive call : Type :=
  | folderService_findAll
  | folderService_findAllForShare (foldersIds : list string)
  | folderService_create (folderDto : FolderDto)
  | folderService_update (folderId : string) (folderDto : FolderDto)
  | folderService_updatePermissions (folderId : string) (changes : Changes)
  | folderService_delete (folderId : string) (cascade : option bool)
  | FolderLocalStorage_set (foldersCollection : FoldersCollection)
  | FolderLocalStorage_addFolder (folderEntity : FolderEntity)
  | FolderLocalStorage_updateFolder (folderEntity : FolderEntity)
  | FolderLocalStorage_delete (folderId : string).

(** A call is to the local storage. *)
Definition is_storage (c : call) : bool :=
  match c with
  | FolderLocalStorage_set _ | FolderLocalStorage_addFolder _
  | FolderLocalStorage_updateFolder _ | FolderLocalStorage_delete _ => true
  | _ => false
  end.

(** The answers of the folder service, which may be failures *)
Variable findAll_answer : list call → Result (list FolderDto).
Variable findAllForShare_answer : list call → Result (list FolderDto).
Variable create_answer : list call → Result FolderDto.
Variable update_answer : list call → Result FolderDto.
Variable updatePermissions_answer : list call → Result unit.
Variable delete_answer : list call → Result unit.

(** The outcome of a call to the local storage *)
Variable storage_answer : list call → Result unit.

(** [new FolderEntity(dto)], [new FoldersCollection(dtos)] and
    [folderEntity.toDto()] *)
Variable FolderEntity_new : FolderDto → Result FolderEntity.
Variable FoldersCollection_new : list FolderDto → Result FoldersCollection.
Variable FolderEntity_toDto : FolderEntity → FolderDto.

(** [await collaborator.method(args)]: the call is made, then answered. *)
Definition perform {A} (c : call) (answer : list call → Result A)
  : M (list call) A :=
  λ log, (log ++ [c], answer (log ++ [c])).

Definition findAll : M (list call) FoldersCollection :=
  let* foldersDtos := perform folderService_findAll findAll_answer in
  lift (FoldersCollection_new foldersDtos).

Definition updateLocalStorage : M (list call) FoldersCollection :=
  let* foldersCollection := findAll in
  perform (FolderLocalStorage_set foldersCollection) storage_answer ;;
  ret foldersCollection.

Definition findAllForShare (foldersIds : list string)
  : M (list call) FoldersCollection :=
  let* foldersDtos :=
    perform (folderService_findAllForShare foldersIds)
      findAllForShare_answer in
  lift (FoldersCollection_new foldersDtos).

Definition create (folderEntity : FolderEntity) : M (list call) FolderEntity :=
  let* folderDto :=
    perform (folderService_create (FolderEntity_toDto folderEntity))
      create_answer in
  let* updatedFolderEntity := lift (FolderEntity_new folderDto) in
  perform (FolderLocalStorage_addFolder updatedFolderEntity) storage_answer ;;
  ret updatedFolderEntity.

Definition update (folderEntity : FolderEntity) : M (list call) FolderEntity :=
  let* folderDto :=
    perform (folderService_update (folder_id folderEntity)
               (FolderEntity_toDto folderEntity))
      update_answer in
  let* updatedFolderEntity := lift (FolderEntity_new folderDto) in
  perform (FolderLocalStorage_updateFolder updatedFolderEntity)
    storage_answer ;;
  ret updatedFolderEntity.

(** [if (typeof updateStorage === 'undefined') { updateStorage = true; }] *)
Definition update_storage (updateStorage : option bool) : bool :=
  match updateStorage with
  | None => true
  | Some b => b
  end.

Definition updatePermissions (folderEntity : FolderEntity)
    (changesCollection : Changes) (updateStorage : option bool)
  : M (list call) FolderEntity :=
  let updateStorage := update_storage updateStorage in
  perform (folderService_updatePermissions (folder_id folderEntity)
             changesCollection)
    updatePermissions_answer ;;
  (if updateStorage then updateLocalStorage ;; ret () else ret ()) ;;
  ret folderEntity.

(** [if (cascade)] for a flag that is a boolean or [undefined] *)
Definition cascading (cascade : option bool) : bool :=
  match cascade with
  | None => false
  | Some b => b
  end.

Definition delete (folderId : string) (cascade : option bool)
  : M (list call) unit :=
  perform (folderService_delete folderId cascade) delete_answer ;;
  perform (FolderLocalStorage_delete folderId) storage_answer ;;
  if cascading cascade then updateLocalStorage ;; ret () else ret ().

End Calls.

Arguments folderService_findAll {FolderDto FoldersCollection Changes}.
Arguments folderService_findAllForShare {FolderDto FoldersCollection Changes}.
Arguments folderService_create {FolderDto FoldersCollection Changes}.
Arguments folderService_update {FolderDto FoldersCollection Changes}.
Arguments folderService_updatePermissions
  {FolderDto FoldersCollection Changes}.
Arguments folderService_delete {FolderDto FoldersCollection Changes}.
Arguments FolderLocalStorage_set {FolderDto FoldersCollection Changes}.
Arguments FolderLocalStorage_addFolder {FolderDto FoldersCollection Changes}.
Arguments FolderLocalStorage_updateFolder
  {FolderDto FoldersCollection Changes}.
Arguments FolderLocalStorage_delete {FolderDto FoldersCollection Changes}.

End FolderModelCalls.

(** ** Sample collaborators

    A folder service that answers with the folders it is sent and lists the
    two sample folders, a local storage that accepts every write, and
    entities that are their own records. *)

Abbreviation sample_call :=
  (FolderModelCalls.call FolderModel.FolderEntity
     (list FolderModel.FolderEntity) unit).

Section SampleCollaborators.

Definition sample_findAll_answer (log : list sample_call)
  : Result (list FolderModel.FolderEntity) :=
  inr [sample_parent; sample_folder].

(** The answer to a create or an update: the folder of the call *)
Definition sample_folder_answer (log : list sample_call)
  : Result FolderModel.FolderEntity :=
  match last log with
  | Some (FolderModelCalls.folderService_create folderDto) => inr folderDto
  | Some (FolderModelCalls.folderService_update _ folderDto) => inr folderDto
  | _ => inl (RemoteError "unexpected call")
  end.

Definition sample_unit_answer (log : list sample_call) : Result unit :=
  inr ().

Definition sample_FolderEntity_new (dto : FolderModel.FolderEntity)
  : Result FolderModel.FolderEntity :=
  inr dto.

Definition sample_FoldersCollection_new (dtos : list FolderModel.FolderEntity)
  : Result (list FolderModel.FolderEntity) :=
  inr dtos.

End SampleCollaborators.

(** ** Relations between the members before and after an operation *)

Section Relations.

Import PermissionEntity PermissionsCollection.

(** Every member of [c] is still at its position in [c'], about the same
    ACO and ARO, at a level that is not lower. *)
Definition never_lowered (c c' : items) : Prop :=
  ∀ i q, c !! i = Some q →
    ∃ q', c' !! i = Some q' ∧ isAcoAndAroMatching q' q = true ∧
          level (type q) ≤ level (type q').

(** [l] has an entry for the ARO of [p] at its level or above. *)
Definition granted (p : PermissionEntity.t) (l : items) : Prop :=
  ∃ q, q ∈ l ∧ isAroMatching q p = true ∧ level (type p) ≤ level (type q).

End Relations.

(** * Properties *)

Section PermissionEntityFacts.

Import PermissionEntity.

Lemma isAroMatching_true a b :
  isAroMatching a b = true ↔ aro a = aro b ∧ aroForeignKey a = aroForeignKey b.
Proof.
  unfold isAroMatching. rewrite andb_true_iff, !bool_decide_eq_true. done.
Qed.

Lemma isAcoMatching_true a b :
  isAcoMatching a b = true ↔ aco a = aco b ∧ acoForeignKey a = acoForeignKey b.
Proof.
  unfold isAcoMatching. rewrite andb_true_iff, !bool_decide_eq_true. done.
Qed.

Lemma isAroMatching_sym a b : isAroMatching a b = isAroMatching b a.
Proof.
  apply eq_true_iff_eq. rewrite !isAroMatching_true.
  split; intros [??]; split; congruence.
Qed.

Lemma isAcoAndAroMatching_true a b :
  isAcoAndAroMatching a b = true ↔
  isAroMatching a b = true ∧ isAcoMatching a b = true.
Proof. unfold isAcoAndAroMatching. apply andb_true_iff. Qed.

Lemma getHighestPermission_cases a b :
  (level (type a) < level (type b) ∧ getHighestPermission a b = b) ∨
  (level (type b) ≤ level (type a) ∧ getHighestPermission a b = a).
Proof.
  unfold getHighestPermission.
  destruct (decide (level (type a) < level (type b))); [left | right];
    split; auto; lia.
Qed.

Lemma getHighestPermission_level a b :
  level (type (getHighestPermission a b)) = level (type a) `max` level (type b).
Proof. destruct (getHighestPermission_cases a b) as [[? ->]|[? ->]]; lia. Qed.

Lemma same_id_true p q :
  PermissionsCollection.same_id p q = true ↔ truthy (id q) = true ∧ id q = id p.
Proof.
  unfold PermissionsCollection.same_id.
  rewrite andb_true_iff, bool_decide_eq_true. done.
Qed.

Lemma mk_props p : mk (props p) = p.
Proof. by destruct p. Qed.

End PermissionEntityFacts.

Section PushFacts.

Import PermissionEntity PermissionsCollection.

Variable validate : PermissionDto → bool.

(** The assertions leave the members as they are. *)
Lemma assertSameAco_state p c : (assertSameAco p c).1 = c.
Proof.
  unfold assertSameAco, bind, permissions, throw, ret.
  destruct (c !! 0); [case (negb _)|]; done.
Qed.

Lemma assertUniqueId_state p c : (assertUniqueId p c).1 = c.
Proof.
  unfold assertUniqueId, bind, permissions, throw, ret.
  case (negb _); [done|]. simpl. by destruct (list_find _ c) as [[??]|].
Qed.

Lemma assertUniqueAro_state p c : (assertUniqueAro p c).1 = c.
Proof.
  unfold assertUniqueAro, bind, permissions, throw, ret. simpl.
  by destruct (list_find _ c) as [[??]|].
Qed.

Lemma assertSameAco_ok p c : (assertSameAco p c).2 = inr () ↔ aco_ok p c.
Proof.
  unfold assertSameAco, aco_ok, bind, permissions, throw, ret. simpl.
  destruct (c !! 0) as [first|]; [|by split].
  destruct (isAcoMatching p first) eqn:E; simpl.
  - split; [by intros _ ? [= <-] | done].
  - split; [done | intros H; specialize (H _ eq_refl); congruence].
Qed.

Lemma assertUniqueId_ok p c : (assertUniqueId p c).2 = inr () ↔ id_ok p c.
Proof.
  unfold assertUniqueId, id_ok, bind, permissions, throw, ret.
  destruct (truthy (id p)); simpl; [|by split].
  destruct (list_find _ c) as [[i q]|] eqn:E; simpl.
  - apply list_find_Some in E as (Hq & Hs & _). split; [done|].
    intros H. apply list_elem_of_lookup_2 in Hq. rewrite H in Hs; done.
  - split; [|done]. intros _ _ q Hq.
    eapply list_find_None, Forall_forall in E; [|done].
    by destruct (same_id p q).
Qed.

Lemma assertUniqueAro_ok p c : (assertUniqueAro p c).2 = inr () ↔ aro_ok p c.
Proof.
  unfold assertUniqueAro, aro_ok, bind, permissions, throw, ret. simpl.
  destruct (list_find _ c) as [[i q]|] eqn:E; simpl.
  - apply list_find_Some in E as (Hq & Hs & _). split; [done|].
    intros H. apply list_elem_of_lookup_2 in Hq. rewrite H in Hs; done.
  - split; [|done]. intros _ q Hq.
    eapply list_find_None, Forall_forall in E; [|done].
    by destruct (isAroMatching p q).
Qed.

Lemma assertSameAco_error p c e :
  (assertSameAco p c).2 = inl e →
  ∃ first, c !! 0 = Some first ∧ isAcoMatching p first = false ∧
    e = EntityCollectionError 0 RULE_SAME_ACO
          ("The collection is already composed of this type of ACO: "
             +:+ aco first +:+ ".").
Proof.
  unfold assertSameAco, bind, permissions, throw, ret. simpl.
  destruct (c !! 0) as [first|]; [|done].
  destruct (isAcoMatching p first) eqn:E; simpl; [done|].
  intros [= <-]. by exists first.
Qed.

Lemma assertUniqueId_error p c e :
  (assertUniqueId p c).2 = inl e →
  truthy (id p) = true ∧
  ∃ i q, c !! i = Some q ∧ same_id p q = true ∧
    (∀ j q', c !! j = Some q' → j < i → same_id p q' ≠ true) ∧
    e = EntityCollectionError i RULE_UNIQUE_ID
          ("Permission id " +:+ default "" (id p) +:+ " already exists.").
Proof.
  unfold assertUniqueId, bind, permissions, throw, ret.
  destruct (truthy (id p)); simpl; [|done]. split; [done|].
  destruct (list_find _ c) as [[i q]|] eqn:E; simpl in *; [|done].
  apply list_find_Some in E as (Hq & Hs & Hfirst).
  injection H as <-. by exists i, q.
Qed.

Lemma assertUniqueAro_error p c e :
  (assertUniqueAro p c).2 = inl e →
  ∃ i q, c !! i = Some q ∧ isAroMatching p q = true ∧
    (∀ j q', c !! j = Some q' → j < i → isAroMatching p q' ≠ true) ∧
    e = EntityCollectionError i RULE_UNIQUE_ARO
          (aro p +:+ " id " +:+ aroForeignKey p
             +:+ " already exists in the permission list.").
Proof.
  unfold assertUniqueAro, bind, permissions, throw, ret. simpl.
  destruct (list_find _ c) as [[i q]|] eqn:E; simpl in *; [|done].
  apply list_find_Some in E as (Hq & Hs & Hfirst).
  intros [= <-]. by exists i, q.
Qed.

(** [push] of a record, by the outcome of the entity constructor and of the
    three assertions in their order *)
Lemma push_dto_run dto c :
  push_dto validate dto c =
  if validate dto then
    match (assertSameAco (mk dto) c).2 with
    | inl e => (c, inl e)
    | inr _ =>
        match (assertUniqueId (mk dto) c).2 with
        | inl e => (c, inl e)
        | inr _ =>
            match (assertUniqueAro (mk dto) c).2 with
            | inl e => (c, inl e)
            | inr _ => (c ++ [mk dto], inr ())
            end
        end
    end
  else (c, inl EntityValidationError).
Proof.
  unfold push_dto, bind, lift, new. destruct (validate dto); [|done].
  pose proof (assertSameAco_state (mk dto) c) as H1.
  destruct (assertSameAco (mk dto) c) as [c1 [e|[]]]; simpl in *; subst c1;
    [done|].
  pose proof (assertUniqueId_state (mk dto) c) as H2.
  destruct (assertUniqueId (mk dto) c) as [c2 [e|[]]]; simpl in *; subst c2;
    [done|].
  pose proof (assertUniqueAro_state (mk dto) c) as H3.
  destruct (assertUniqueAro (mk dto) c) as [c3 [e|[]]]; simpl in *; subst c3;
    done.
Qed.

Lemma push_dto_ok dto c :
  validate dto = true →
  aco_ok (mk dto) c → id_ok (mk dto) c → aro_ok (mk dto) c →
  push_dto validate dto c = (c ++ [mk dto], inr ()).
Proof.
  intros Hv H1%assertSameAco_ok H2%assertUniqueId_ok H3%assertUniqueAro_ok.
  by rewrite push_dto_run, Hv, H1, H2, H3.
Qed.

Lemma push_dto_inv_ok dto c c' :
  push_dto validate dto c = (c', inr ()) →
  validate dto = true ∧ aco_ok (mk dto) c ∧ id_ok (mk dto) c ∧
  aro_ok (mk dto) c ∧ c' = c ++ [mk dto].
Proof.
  rewrite push_dto_run. destruct (validate dto); [|done].
  destruct (assertSameAco _ c).2 as [|[]] eqn:H1; [done|].
  destruct (assertUniqueId _ c).2 as [|[]] eqn:H2; [done|].
  destruct (assertUniqueAro _ c).2 as [|[]] eqn:H3; [done|].
  intros [= <-].
  apply assertSameAco_ok in H1. apply assertUniqueId_ok in H2.
  apply assertUniqueAro_ok in H3. done.
Qed.

(** Why a [push] of a record throws: the schema, or the first of the three
    assertions that fails. *)
Lemma push_dto_inv_error dto c c' e :
  push_dto validate dto c = (c', inl e) →
  c' = c ∧
  ((validate dto = false ∧ e = EntityValidationError) ∨
   (validate dto = true ∧ (assertSameAco (mk dto) c).2 = inl e) ∨
   (validate dto = true ∧ aco_ok (mk dto) c ∧
    (assertUniqueId (mk dto) c).2 = inl e) ∨
   (validate dto = true ∧ aco_ok (mk dto) c ∧ id_ok (mk dto) c ∧
    (assertUniqueAro (mk dto) c).2 = inl e)).
Proof.
  rewrite push_dto_run. destruct (validate dto).
  2:{ intros [= <- <-]. split; [done|]. by left. }
  destruct (assertSameAco _ c).2 as [e1|[]] eqn:H1.
  { intros [= <- <-]. split; [done|]. right; left. done. }
  apply assertSameAco_ok in H1.
  destruct (assertUniqueId _ c).2 as [e2|[]] eqn:H2.
  { intros [= <- <-]. split; [done|]. right; right; left. done. }
  apply assertUniqueId_ok in H2.
  destruct (assertUniqueAro _ c).2 as [e3|[]] eqn:H3; [|done].
  intros [= <- <-]. split; [done|]. right; right; right. done.
Qed.

End PushFacts.

Section CollectionFacts.

Import PermissionEntity PermissionsCollection.

Variable validate : PermissionDto → bool.

Lemma invariants_nil : invariants [].
Proof.
  split; [|split].
  - intros p q Hp. by apply elem_of_nil in Hp.
  - intros i j p q Hp. by rewrite lookup_nil in Hp.
  - intros i j p q Hp. by rewrite lookup_nil in Hp.
Qed.

(** A member matches the ACO of the first member, and so does an entity
    that passed [assertSameAco]. *)
Lemma aco_ok_same_aco p c :
  same_aco c → aco_ok p c → same_aco (c ++ [p]).
Proof.
  intros Hc Hp.
  assert (∀ q, q ∈ c → aco p = aco q ∧ acoForeignKey p = acoForeignKey q)
    as Hpq.
  { intros q Hq. destruct c as [|first c']; [by apply elem_of_nil in Hq|].
    specialize (Hp first eq_refl). apply isAcoMatching_true in Hp.
    destruct (Hc first q) as [??]; [left | done |].
    destruct Hp. split; congruence. }
  intros x y [Hx|Hx%list_elem_of_singleton]%elem_of_app
             [Hy|Hy%list_elem_of_singleton]%elem_of_app; subst.
  - by apply Hc.
  - destruct (Hpq x Hx). done.
  - by apply Hpq.
  - done.
Qed.

Lemma lookup_snoc_cases (c : items) p i x :
  (c ++ [p]) !! i = Some x →
  (i < length c ∧ c !! i = Some x) ∨ (i = length c ∧ x = p).
Proof.
  intros H. destruct (decide (i < length c)) as [Hi|Hi].
  - left. by rewrite lookup_app_l in H.
  - right. rewrite lookup_app_r in H by lia.
    apply list_lookup_singleton_Some in H as [??]. split; [lia | done].
Qed.

Lemma invariants_snoc c p :
  invariants c → aco_ok p c → id_ok p c → aro_ok p c →
  invariants (c ++ [p]).
Proof.
  intros (Haco & Haro & Hid) H1 H2 H3. split; [|split].
  - by apply aco_ok_same_aco.
  - intros i j x y Hx Hy E1 E2.
    apply lookup_snoc_cases in Hx as [[Hi Hx]|[-> ->]];
      apply lookup_snoc_cases in Hy as [[Hj Hy]|[-> ->]].
    + by eapply Haro.
    + apply list_elem_of_lookup_2 in Hx. specialize (H3 x Hx).
      assert (isAroMatching p x = true) by (apply isAroMatching_true; done).
      congruence.
    + apply list_elem_of_lookup_2 in Hy. specialize (H3 y Hy).
      assert (isAroMatching p y = true) by (apply isAroMatching_true; done).
      congruence.
    + done.
  - intros i j x y Hx Hy T E.
    apply lookup_snoc_cases in Hx as [[Hi Hx]|[-> ->]];
      apply lookup_snoc_cases in Hy as [[Hj Hy]|[-> ->]].
    + by eapply Hid.
    + apply list_elem_of_lookup_2 in Hx.
      assert (truthy (id p) = true) as Tp by congruence.
      specialize (H2 Tp x Hx).
      assert (same_id p x = true) by (apply same_id_true; done).
      congruence.
    + apply list_elem_of_lookup_2 in Hy.
      specialize (H2 T y Hy).
      assert (same_id p y = true)
        by (apply same_id_true; split; congruence).
      congruence.
    + done.
Qed.

(** Replacing a member by an entity for the same ACO and ARO whose
    identifier no other member carries keeps the invariants. *)
Lemma invariants_replace c i existing p :
  invariants c → c !! i = Some existing →
  isAcoAndAroMatching existing p = true →
  (∀ j q, c !! j = Some q → j ≠ i → truthy (id p) = true → id q ≠ id p) →
  invariants (<[i := p]> c).
Proof.
  intros (Haco & Haro & Hid) Hi
    [[A1 A2]%isAroMatching_true [B1 B2]%isAcoMatching_true]%isAcoAndAroMatching_true
    Hfresh.
  assert (i < length c) as Hlt by (by eapply lookup_lt_Some).
  assert (existing ∈ c) as Hin by (by eapply list_elem_of_lookup_2).
  assert (∀ j x, <[i := p]> c !! j = Some x →
            (j = i ∧ x = p) ∨ (j ≠ i ∧ c !! j = Some x)) as Hcases.
  { intros j x Hx. destruct (decide (j = i)) as [->|Hne].
    - rewrite list_lookup_insert_eq in Hx by done. left. split; congruence.
    - rewrite list_lookup_insert_ne in Hx by done. by right. }
  split; [|split].
  - assert (∀ x, x ∈ <[i := p]> c → aco x = aco existing ∧
              acoForeignKey x = acoForeignKey existing) as Hall.
    { intros x [j Hx]%list_elem_of_lookup_1.
      apply Hcases in Hx as [[-> ->]|[_ Hx]]; [done|].
      apply Haco; [by eapply list_elem_of_lookup_2 | done]. }
    intros x y Hx%Hall Hy%Hall. destruct Hx, Hy. split; congruence.
  - intros a b x y Hx%Hcases Hy%Hcases E1 E2.
    destruct Hx as [[-> ->]|[Na Hx]], Hy as [[-> ->]|[Nb Hy]]; [done| | |].
    + symmetry. eapply (Haro b i y existing); [done..|congruence|congruence].
    + eapply (Haro a i x existing); [done..|congruence|congruence].
    + by eapply Haro.
  - intros a b x y Hx%Hcases Hy%Hcases T E.
    destruct Hx as [[-> ->]|[Na Hx]], Hy as [[-> ->]|[Nb Hy]]; [done| | |].
    + exfalso. by eapply (Hfresh b y).
    + exfalso. eapply (Hfresh a x); [done..|congruence|done].
    + by eapply Hid.
Qed.

(** A recoverable error of [push] names a member that carries the
    identifier or the ARO of the new entity, and no other member carries
    the identifier when the invariants hold. *)
Lemma push_dto_conflict dto c c' e :
  push_dto validate dto c = (c', inl e) → recoverable e = true →
  c' = c ∧ validate dto = true ∧ aco_ok (mk dto) c ∧
  ∃ i existing, error_position e = Some i ∧ c !! i = Some existing ∧
    ((error_rule e = Some RULE_UNIQUE_ID ∧ same_id (mk dto) existing = true ∧
      (∀ j q', c !! j = Some q' → j < i → same_id (mk dto) q' ≠ true)) ∨
     (error_rule e = Some RULE_UNIQUE_ARO ∧ id_ok (mk dto) c ∧
      isAroMatching (mk dto) existing = true ∧
      (∀ j q', c !! j = Some q' → j < i → isAroMatching (mk dto) q' ≠ true))).
Proof.
  intros [-> H]%push_dto_inv_error R. split; [done|].
  destruct H as [[_ ->]|[[Hv H]|[(Hv & Ha & H)|(Hv & Ha & Hi & H)]]].
  - done.
  - apply assertSameAco_error in H as (first & _ & _ & ->). done.
  - apply assertUniqueId_error in H as (T & i & q & Hq & Hs & Hf & ->).
    do 2 (split; [done|]). exists i, q. do 2 (split; [done|]). by left.
  - apply assertUniqueAro_error in H as (i & q & Hq & Hs & Hf & ->).
    do 2 (split; [done|]). exists i, q. do 2 (split; [done|]). by right.
Qed.

(** The three ways [addOrReplace] ends: the entity was pushed; a member
    was replaced by the higher of itself and the entity; the error of
    [push] was thrown again. *)
Lemma addOrReplace_inv p c c' r :
  addOrReplace validate p c = (c', r) →
  (r = inr () ∧ validate (props p) = true ∧
   aco_ok p c ∧ id_ok p c ∧ aro_ok p c ∧ c' = c ++ [p]) ∨
  (∃ e i existing,
     push validate (Entity p) c = (c, inl e) ∧ recoverable e = true ∧
     error_position e = Some i ∧ c !! i = Some existing ∧
     isAcoAndAroMatching existing p = true ∧
     c' = <[i := getHighestPermission existing p]> c ∧ r = inr ()) ∨
  (∃ e, push validate (Entity p) c = (c, inl e) ∧ c' = c ∧ r = inl e ∧
     (recoverable e = false ∨
      ∃ i existing, error_position e = Some i ∧ c !! i = Some existing ∧
        isAcoAndAroMatching existing p = false)).
Proof.
  unfold addOrReplace, try_catch. simpl. unfold PermissionEntity.toDto.
  destruct (push_dto validate (props p) c) as [c1 [e|[]]] eqn:Hpush.
  - pose proof Hpush as [-> _]%push_dto_inv_error.
    destruct (recoverable e) eqn:R; simpl.
    + pose proof Hpush as
        (_ & _ & _ & i & existing & Hpos & Hi & _)%push_dto_conflict;
        [|done].
      unfold bind, item_at, permissions, ret. rewrite Hpos. simpl. rewrite Hi.
      destruct (isAcoAndAroMatching existing p) eqn:Hm.
      * unfold set_item. intros [= <- <-]. right; left.
        by exists e, i, existing.
      * unfold throw. intros [= <- <-]. right; right. exists e.
        do 3 (split; [done|]). right. by exists i, existing.
    + unfold throw. intros [= <- <-]. right; right. exists e.
      do 3 (split; [done|]). by left.
  - intros [= <- <-]. left.
    apply push_dto_inv_ok in Hpush. rewrite mk_props in Hpush.
    destruct Hpush as (?&?&?&?&?). done.
Qed.

(** In the replace branch no other member carries the identifier of the
    new entity. *)
Lemma conflict_id_fresh p c e i existing :
  unique_id c →
  push validate (Entity p) c = (c, inl e) → recoverable e = true →
  error_position e = Some i → c !! i = Some existing →
  ∀ j q, c !! j = Some q → j ≠ i → truthy (id p) = true → id q ≠ id p.
Proof.
  intros Hid Hpush R Hpos Hi j q Hq Hne T E. simpl in Hpush.
  apply push_dto_conflict in Hpush
    as (_ & _ & _ & i' & existing' & Hpos' & Hi' & H); [|done].
  unfold PermissionEntity.toDto in *. rewrite mk_props in *.
  assert (i' = i) as -> by congruence.
  assert (existing' = existing) as -> by congruence.
  destruct H as [(_ & [T' E']%same_id_true & _)|(_ & Hok & _)].
  - apply Hne. symmetry. eapply (Hid i j existing q); [done..|congruence].
  - apply list_elem_of_lookup_2 in Hq. specialize (Hok T q Hq).
    assert (same_id p q = true)
      by (apply same_id_true; split; congruence).
    congruence.
Qed.

Lemma push_state_cases v c :
  (push validate v c).1 = c ∨
  ∃ dto, value_dto v = Some dto ∧ validate dto = true ∧
    aco_ok (mk dto) c ∧ id_ok (mk dto) c ∧ aro_ok (mk dto) c ∧
    push validate v c = (c ++ [mk dto], inr ()).
Proof.
  assert (∀ dto, (push_dto validate dto c).1 = c ∨
            (validate dto = true ∧
             aco_ok (mk dto) c ∧ id_ok (mk dto) c ∧ aro_ok (mk dto) c ∧
             push_dto validate dto c = (c ++ [mk dto], inr ()))) as H.
  { intros dto. destruct (push_dto validate dto c) as [c' [e|[]]] eqn:E.
    - left. by apply push_dto_inv_error in E as [-> _].
    - right. apply push_dto_inv_ok in E as (?&?&?&?&->). done. }
  destruct v as [|dto|p]; simpl.
  - by left.
  - destruct (H dto) as [?|?]; [by left | right; by exists dto].
  - destruct (H (PermissionEntity.toDto p)) as [?|?];
      [by left | right; by eexists].
Qed.

Lemma push_invariants v c :
  invariants c → invariants (push validate v c).1.
Proof.
  intros Hc. destruct (push_state_cases v c)
    as [->|(dto & _ & _ & H1 & H2 & H3 & ->)]; [done|].
  by apply invariants_snoc.
Qed.

Lemma push_all_valid v c :
  all_valid validate c → all_valid validate (push validate v c).1.
Proof.
  intros Hc. destruct (push_state_cases v c)
    as [->|(dto & _ & Hv & _ & _ & _ & ->)]; [done|].
  intros x [Hx|Hx%list_elem_of_singleton]%elem_of_app; [by apply Hc|].
  by subst.
Qed.

Lemma addOrReplace_invariants p c :
  invariants c → invariants (addOrReplace validate p c).1.
Proof.
  intros Hc. destruct (addOrReplace validate p c) as [c' r] eqn:E.
  apply addOrReplace_inv in E
    as [(_ & _ & H1 & H2 & H3 & ->)
       |[(e & i & existing & Hpush & R & Hpos & Hi & Hm & -> & _)
        |(e & _ & -> & _)]]; simpl.
  - by apply invariants_snoc.
  - destruct (getHighestPermission_cases existing p) as [[_ ->]|[_ ->]].
    + eapply invariants_replace; [done..|].
      eapply conflict_id_fresh; [apply Hc|done..].
    + by rewrite list_insert_id.
  - done.
Qed.

Lemma addOrReplace_all_valid p c :
  all_valid validate c → all_valid validate (addOrReplace validate p c).1.
Proof.
  intros Hc. destruct (addOrReplace validate p c) as [c' r] eqn:E.
  apply addOrReplace_inv in E
    as [(_ & Hv & _ & _ & _ & ->)
       |[(e & i & existing & Hpush & R & Hpos & Hi & Hm & -> & _)
        |(e & _ & -> & _)]]; simpl.
  - intros x [Hx|Hx%list_elem_of_singleton]%elem_of_app; [by apply Hc|].
    by subst.
  - destruct (getHighestPermission_cases existing p) as [[_ ->]|[_ ->]].
    + simpl in Hpush.
      apply push_dto_conflict in Hpush as (_ & Hv & _); [|done].
      intros x [j Hx]%list_elem_of_lookup_1.
      destruct (decide (j = i)) as [->|Hne].
      * rewrite list_lookup_insert_eq in Hx
          by (by eapply lookup_lt_Some).
        by injection Hx as <-.
      * rewrite list_lookup_insert_ne in Hx by done.
        apply Hc. by eapply list_elem_of_lookup_2.
    + by rewrite list_insert_id.
  - done.
Qed.

(** A property of the members that every iteration keeps holds when the
    loop is left, by its end or by a throw. *)
Lemma for_of_preserves {A} (P : items → Prop) (body : A → M items unit) xs c :
  (∀ x c, P c → P (body x c).1) → P c → P (for_of body xs c).1.
Proof.
  intros Hbody. revert c. induction xs as [|x xs IH]; intros c Hc; [done|].
  simpl. unfold bind. specialize (Hbody x c Hc).
  destruct (body x c) as [c1 [e|[]]]; simpl in *; [done|]. by apply IH.
Qed.

Lemma assertAtLeastOneOwner_state c : (assertAtLeastOneOwner c).1 = c.
Proof.
  unfold assertAtLeastOneOwner, bind, permissions. simpl.
  by destruct (found_owner c).
Qed.

Lemma constructor_inv l ov c :
  constructor validate l ov = inr c →
  for_of (push validate) l [] = (c, inr ()) ∧
  (owner_validation_enabled ov = true → found_owner c = true).
Proof.
  unfold constructor, bind.
  destruct (for_of (push validate) l []) as [c1 [e|[]]]; [done|].
  destruct (owner_validation_enabled ov).
  - unfold assertAtLeastOneOwner, bind, permissions. simpl.
    destruct (found_owner c1) eqn:F; simpl; [|done].
    by intros [= <-].
  - simpl. by intros [= <-].
Qed.

Lemma constructor_invariants l ov c :
  constructor validate l ov = inr c →
  invariants c ∧ all_valid validate c.
Proof.
  intros [H _]%constructor_inv. split.
  - replace c with (for_of (push validate) l []).1 by (by rewrite H).
    apply for_of_preserves; [apply push_invariants | apply invariants_nil].
  - replace c with (for_of (push validate) l []).1 by (by rewrite H).
    apply for_of_preserves; [apply push_all_valid |].
    intros p Hp. by apply elem_of_nil in Hp.
Qed.

Lemma unionByAcoAndType_inv set1 set2 ov c :
  unionByAcoAndType validate set1 set2 ov = inr c →
  ∃ set3, constructor validate (map Dto (toDto set1)) (Some false) = inr set3 ∧
    for_of (addOrReplace validate) set2 set3 = (c, inr ()) ∧
    (owner_validation_enabled ov = true → found_owner c = true).
Proof.
  unfold unionByAcoAndType.
  destruct (constructor _ _ _) as [e|set3]; [done|]. unfold bind.
  destruct (for_of _ set2 set3) as [c1 [e|[]]] eqn:Hfor; [done|].
  intros H. exists set3. split; [done|].
  destruct (owner_validation_enabled ov).
  - unfold assertAtLeastOneOwner, bind, permissions in H. simpl in H.
    destruct (found_owner c1) eqn:F; simpl in H; [|done].
    injection H as <-. by split.
  - simpl in H. injection H as <-. by split.
Qed.

Lemma unionByAcoAndType_invariants set1 set2 ov c :
  unionByAcoAndType validate set1 set2 ov = inr c →
  invariants c ∧ all_valid validate c.
Proof.
  intros (set3 & [H3 V3]%constructor_invariants & H & _)%unionByAcoAndType_inv.
  replace c with (for_of (addOrReplace validate) set2 set3).1
    by (by rewrite H).
  split.
  - apply for_of_preserves; [apply addOrReplace_invariants | done].
  - apply for_of_preserves; [apply addOrReplace_all_valid | done].
Qed.

Lemma reachable_invariants c :
  reachable validate c → invariants c ∧ all_valid validate c.
Proof.
  induction 1 as [l ov c H|c v _ [IH1 IH2]|c p _ [IH1 IH2]|a b ov c _ _ _ _ H].
  - by eapply constructor_invariants.
  - split; [by apply push_invariants | by apply push_all_valid].
  - split; [by apply addOrReplace_invariants | by apply addOrReplace_all_valid].
  - by eapply unionByAcoAndType_invariants.
Qed.

End CollectionFacts.

Section OrderOfValidation.

Import PermissionEntity PermissionsCollection.

Variable validate : PermissionDto → bool.

Lemma push_value_dto v dto c :
  value_dto v = Some dto → push validate v c = push_dto validate dto c.
Proof. destruct v; simpl; by intros [= ->]. Qed.

Lemma assertSameAco_throws p c first :
  c !! 0 = Some first → isAcoMatching p first = false →
  (assertSameAco p c).2 =
    inl (EntityCollectionError 0 RULE_SAME_ACO
           ("The collection is already composed of this type of ACO: "
              +:+ aco first +:+ ".")).
Proof.
  intros H0 Hm. unfold assertSameAco, bind, permissions. simpl.
  by rewrite H0, Hm.
Qed.

Lemma assertUniqueId_throws p c i q :
  truthy (id p) = true → c !! i = Some q → same_id p q = true →
  (∀ j q', c !! j = Some q' → j < i → same_id p q' = false) →
  (assertUniqueId p c).2 =
    inl (EntityCollectionError i RULE_UNIQUE_ID
           ("Permission id " +:+ default "" (id p) +:+ " already exists.")).
Proof.
  intros T Hq Hs Hfirst. unfold assertUniqueId, bind, permissions.
  rewrite T. simpl.
  assert (list_find (λ existing, same_id p existing = true) c = Some (i, q))
    as ->; [|done].
  apply list_find_Some. do 2 (split; [done|]).
  intros j y Hy Hj. rewrite (Hfirst j y Hy Hj). done.
Qed.

Lemma assertUniqueAro_throws p c i q :
  c !! i = Some q → isAroMatching p q = true →
  (∀ j q', c !! j = Some q' → j < i → isAroMatching p q' = false) →
  (assertUniqueAro p c).2 =
    inl (EntityCollectionError i RULE_UNIQUE_ARO
           (aro p +:+ " id " +:+ aroForeignKey p
              +:+ " already exists in the permission list.")).
Proof.
  intros Hq Hs Hfirst. unfold assertUniqueAro, bind, permissions. simpl.
  assert (list_find (λ existing, isAroMatching p existing = true) c
          = Some (i, q)) as ->; [|done].
  apply list_find_Some. do 2 (split; [done|]).
  intros j y Hy Hj. rewrite (Hfirst j y Hy Hj). done.
Qed.

(** A member passing a guard has a first one. *)
Lemma first_index (guard : PermissionEntity.t → bool) (c : items) q :
  q ∈ c → guard q = true →
  ∃ i q', c !! i = Some q' ∧ guard q' = true ∧
    ∀ j y, c !! j = Some y → j < i → guard y = false.
Proof.
  intros Hq Hg.
  destruct (list_find (λ x, guard x = true) c) as [[i q']|] eqn:E.
  - apply list_find_Some in E as (H1 & H2 & H3). exists i, q'.
    do 2 (split; [done|]). intros j y Hy Hj.
    specialize (H3 j y Hy Hj). by destruct (guard y).
  - eapply list_find_None, Forall_forall in E; [|done]. done.
Qed.

(** C4: [push] of a record that passes the schema checks the same ACO
    first (nothing to check against in an empty collection) and throws
    SAME_ACO at position 0; then, for a record with an identifier, the
    identifier, and throws UNIQUE_ID with the position of the first member
    that carries it; then the ARO, and throws UNIQUE_ARO with the position
    of the first member for it; otherwise it appends the entity at the
    end.  So a record that breaks the identifier rule and the ARO rule
    throws UNIQUE_ID. *)
Theorem push_validation_order (c : items) (v : value) (dto : PermissionDto) :
  value_dto v = Some dto → validate dto = true →
  let p := PermissionEntity.mk dto in
  (∀ first, c !! 0 = Some first → isAcoMatching p first = false →
     push validate v c =
       (c, inl (EntityCollectionError 0 RULE_SAME_ACO
                  ("The collection is already composed of this type of ACO: "
                     +:+ aco first +:+ ".")))) ∧
  (aco_ok p c → truthy (id p) = true →
   ∀ i q, c !! i = Some q → same_id p q = true →
     (∀ j q', c !! j = Some q' → j < i → same_id p q' = false) →
     push validate v c =
       (c, inl (EntityCollectionError i RULE_UNIQUE_ID
                  ("Permission id " +:+ default "" (id p)
                     +:+ " already exists.")))) ∧
  (aco_ok p c → id_ok p c →
   ∀ i q, c !! i = Some q → isAroMatching p q = true →
     (∀ j q', c !! j = Some q' → j < i → isAroMatching p q' = false) →
     push validate v c =
       (c, inl (EntityCollectionError i RULE_UNIQUE_ARO
                  (aro p +:+ " id " +:+ aroForeignKey p
                     +:+ " already exists in the permission list.")))) ∧
  (aco_ok p c → id_ok p c → aro_ok p c →
     push validate v c = (c ++ [p], inr ())) ∧
  (aco_ok p c → truthy (id p) = true →
   ∀ q1 q2, q1 ∈ c → same_id p q1 = true →
            q2 ∈ c → isAroMatching p q2 = true →
     ∃ i msg, push validate v c =
                (c, inl (EntityCollectionError i RULE_UNIQUE_ID msg))).
Proof.
  intros Hv Hvalid p.
  rewrite (push_value_dto v dto c Hv), push_dto_run, Hvalid. fold p.
  assert (aco_ok p c → truthy (id p) = true →
    ∀ i q, c !! i = Some q → same_id p q = true →
      (∀ j q', c !! j = Some q' → j < i → same_id p q' = false) →
      match (assertSameAco p c).2 with
      | inl e => (c, inl e)
      | inr _ =>
          match (assertUniqueId p c).2 with
          | inl e => (c, inl e)
          | inr _ =>
              match (assertUniqueAro p c).2 with
              | inl e => (c, inl e)
              | inr _ => (c ++ [p], inr ())
              end
          end
      end =
      (c, inl (EntityCollectionError i RULE_UNIQUE_ID
                 ("Permission id " +:+ default "" (id p)
                    +:+ " already exists.")))) as Hid.
  { intros Ha%assertSameAco_ok T i q Hq Hs Hfirst.
    by rewrite Ha, (assertUniqueId_throws p c i q). }
  split; [|split; [|split; [|split]]].
  - intros first H0 Hm. by rewrite (assertSameAco_throws p c first).
  - done.
  - intros Ha%assertSameAco_ok Hi%assertUniqueId_ok i q Hq Hs Hfirst.
    by rewrite Ha, Hi, (assertUniqueAro_throws p c i q).
  - intros Ha%assertSameAco_ok Hi%assertUniqueId_ok Ho%assertUniqueAro_ok.
    by rewrite Ha, Hi, Ho.
  - intros Ha T q1 q2 Hq1 Hs1 _ _.
    destruct (first_index (same_id p) c q1 Hq1 Hs1)
      as (i & q & Hq & Hs & Hfirst).
    eexists i, _. by eapply Hid.
Qed.

(** C9: when [push] throws, whatever the error (TypeError, schema
    validation, SAME_ACO, UNIQUE_ID or UNIQUE_ARO, and there is no other),
    the members after the call are the members before it. *)
Theorem push_failure_leaves_members (c : items) (v : value) (e : error) :
  (push validate v c).2 = inl e →
  (push validate v c).1 = c ∧
  (e = TypeError "PermissionsCollection push expect a permission DTO." ∨
   e = EntityValidationError ∨
   ∃ i msg, e = EntityCollectionError i RULE_SAME_ACO msg ∨
            e = EntityCollectionError i RULE_UNIQUE_ID msg ∨
            e = EntityCollectionError i RULE_UNIQUE_ARO msg).
Proof.
  destruct v as [|dto|p]; simpl.
  - intros [= <-]. split; [done|]. by left.
  - destruct (push_dto validate dto c) as [c' [e'|[]]] eqn:E; [|done].
    simpl. intros [= ->].
    apply push_dto_inv_error in E
      as [-> [[_ ->]|[[_ H]|[(_ & _ & H)|(_ & _ & _ & H)]]]];
      (split; [done|]).
    + right; by left.
    + apply assertSameAco_error in H as (? & _ & _ & ->).
      right; right. eexists _, _. by left.
    + apply assertUniqueId_error in H as (_ & i & ? & _ & _ & _ & ->).
      right; right. eexists _, _. right; by left.
    + apply assertUniqueAro_error in H as (i & ? & _ & _ & _ & ->).
      right; right. eexists _, _. right; by right.
  - destruct (push_dto validate (PermissionEntity.toDto p) c)
      as [c' [e'|[]]] eqn:E; [|done].
    simpl. intros [= ->].
    apply push_dto_inv_error in E
      as [-> [[_ ->]|[[_ H]|[(_ & _ & H)|(_ & _ & _ & H)]]]];
      (split; [done|]).
    + right; by left.
    + apply assertSameAco_error in H as (? & _ & _ & ->).
      right; right. eexists _, _. by left.
    + apply assertUniqueId_error in H as (_ & i & ? & _ & _ & _ & ->).
      right; right. eexists _, _. right; by left.
    + apply assertUniqueAro_error in H as (i & ? & _ & _ & _ & ->).
      right; right. eexists _, _. right; by right.
Qed.

End OrderOfValidation.

Section AddOrReplaceFacts.

Import PermissionEntity PermissionsCollection.

Variable validate : PermissionDto → bool.

Lemma filter_none (P : PermissionEntity.t → Prop)
    `{∀ x, Decision (P x)} (c : items) :
  (∀ y, y ∈ c → ¬ P y) → filter P c = [].
Proof.
  induction c as [|x c IH]; intros Hnone; [done|].
  rewrite filter_cons_False by (apply Hnone; left).
  apply IH. intros y Hy. apply Hnone. by right.
Qed.

(** With at most one member per ARO, the members for the ARO of [p] are the
    one member found for it. *)
Lemma filter_unique_aro (c : items) i h p :
  unique_aro c → c !! i = Some h → isAroMatching h p = true →
  filter (λ q, isAroMatching q p = true) c = [h].
Proof.
  revert i. induction c as [|x c IH]; intros i Hu Hi Hm; [done|].
  assert (unique_aro c) as Hu'.
  { intros a b y z Hy Hz E1 E2.
    assert (S a = S b) by (by eapply (Hu (S a) (S b) y z)). lia. }
  apply isAroMatching_true in Hm as Hm'. destruct Hm' as [M1 M2].
  destruct i as [|i]; simpl in Hi.
  - injection Hi as ->. rewrite filter_cons_True by done. f_equal.
    apply filter_none. intros y Hy Hym.
    apply list_elem_of_lookup_1 in Hy as [j Hj].
    apply isAroMatching_true in Hym as [N1 N2].
    assert (S j = 0); [|lia].
    eapply (Hu (S j) 0 y h); [done..|congruence|congruence].
  - rewrite filter_cons_False; [by eapply IH|].
    intros [N1 N2]%isAroMatching_true.
    assert (0 = S i); [|lia].
    eapply (Hu 0 (S i) x h); [done..|congruence|congruence].
Qed.

Lemma recoverable_not_same_aco e :
  error_rule e = Some RULE_SAME_ACO → recoverable e = false.
Proof. unfold recoverable. by intros ->. Qed.

(** C1: a collection reached through the constructor, [push],
    [addOrReplace] and [unionByAcoAndType] has all its members about one
    (ACO type, ACO id), at most one member per (ARO type, ARO id), and no
    identifier carried by two members; when the schema refuses the empty
    identifier this holds of every identifier that is not [undefined].
    The replace branch of [addOrReplace] leaves a collection with the three
    invariants. *)
Theorem reachable_collection_invariants (c : items) :
  reachable validate c →
  same_aco c ∧ unique_aro c ∧ unique_id c ∧
  ((∀ dto, validate dto = true → dto_id dto ≠ Some "") →
   ∀ i j p q, c !! i = Some p → c !! j = Some q →
     is_Some (id p) → id p = id q → i = j) ∧
  (∀ p e i existing,
     push validate (Entity p) c = (c, inl e) → recoverable e = true →
     error_position e = Some i → c !! i = Some existing →
     isAcoAndAroMatching existing p = true →
     let c' := <[i := getHighestPermission existing p]> c in
     addOrReplace validate p c = (c', inr ()) ∧
     same_aco c' ∧ unique_aro c' ∧ unique_id c').
Proof.
  intros [(Haco & Haro & Hid) Hvalid]%reachable_invariants.
  do 3 (split; [done|]). split.
  - intros Hschema i j p q Hp Hq [s Hs] E.
    eapply Hid; [done..| |done].
    assert (p ∈ c) as Hin by (by eapply list_elem_of_lookup_2).
    specialize (Hschema _ (Hvalid p Hin)).
    unfold id in Hs. unfold truthy. fold (id p). unfold id. rewrite Hs in *.
    apply negb_true_iff, bool_decide_eq_false. congruence.
  - intros p e i existing Hpush R Hpos Hi Hm c'.
    assert (addOrReplace validate p c = (c', inr ())) as Hrun.
    { unfold addOrReplace, try_catch. rewrite Hpush, R. simpl.
      unfold bind, item_at, permissions, ret. rewrite Hpos. simpl. by rewrite Hi, Hm. }
    split; [done|].
    pose proof (addOrReplace_invariants validate p c) as H.
    rewrite Hrun in H. by apply H.
Qed.

End AddOrReplaceFacts.

Section ConstructorFacts.

Import PermissionEntity PermissionsCollection.

Variable validate : PermissionDto → bool.

Lemma found_owner_true (c : items) :
  found_owner c = true ↔ ∃ p, p ∈ c ∧ type p = Owner.
Proof.
  induction c as [|x c IH]; simpl.
  - split; [done|]. intros (p & Hp & _). by apply elem_of_nil in Hp.
  - unfold isOwner. destruct (bool_decide (type x = Owner)) eqn:E.
    + apply bool_decide_eq_true in E. split; [|done].
      intros _. exists x. split; [left | done].
    + apply bool_decide_eq_false in E. rewrite IH. split.
      * intros (p & Hp & Ho). exists p. split; [by right | done].
      * intros (p & [->|Hp]%elem_of_cons & Ho); [done|]. by exists p.
Qed.

Lemma found_owner_false (c : items) :
  found_owner c = false ↔ ∀ p, p ∈ c → type p ≠ Owner.
Proof.
  rewrite <- not_true_iff_false, found_owner_true. split.
  - intros H p Hp Ho. apply H. by exists p.
  - intros H (p & Hp & Ho). by apply (H p).
Qed.

(** Inside a list with the invariants, a member passes the three
    assertions against the members before it. *)
Lemma invariants_middle (c : items) p ps :
  invariants (c ++ p :: ps) → aco_ok p c ∧ id_ok p c ∧ aro_ok p c.
Proof.
  intros (Haco & Haro & Hid).
  assert ((c ++ p :: ps) !! length c = Some p) as Hp
    by (by rewrite list_lookup_middle).
  assert (∀ q, q ∈ c → ∃ j, j < length c ∧ (c ++ p :: ps) !! j = Some q)
    as Hbefore.
  { intros q [j Hj]%list_elem_of_lookup_1. exists j.
    split; [by eapply lookup_lt_Some|]. by rewrite lookup_app_l
      by (by eapply lookup_lt_Some). }
  split; [|split].
  - intros first H0. apply isAcoMatching_true, Haco.
    + apply elem_of_app. right. left.
    + apply elem_of_app. left. by eapply list_elem_of_lookup_2.
  - intros T q Hq. destruct (Hbefore q Hq) as (j & Hj & Hq').
    destruct (same_id p q) eqn:E; [|done].
    apply same_id_true in E as [Tq E].
    assert (j = length c); [|lia].
    by eapply (Hid j (length c) q p).
  - intros q Hq. destruct (Hbefore q Hq) as (j & Hj & Hq').
    destruct (isAroMatching p q) eqn:E; [|done].
    apply isAroMatching_true in E as [E1 E2].
    assert (length c = j); [|lia].
    by eapply (Haro (length c) j p q).
Qed.

(** Pushing, one after the other, values whose records pass the schema and
    whose entities keep the invariants appends the entities in order. *)
Lemma for_of_push_ok (l : list value) (ps c : items) :
  Forall2 (λ v p, value_dto v = Some (props p)) l ps →
  all_valid validate ps → invariants (c ++ ps) →
  for_of (push validate) l c = (c ++ ps, inr ()).
Proof.
  intros Hl. revert c.
  induction Hl as [|v p l ps Hv Hl IH]; intros c Hvalid Hinv.
  - by rewrite app_nil_r.
  - simpl. unfold bind.
    apply invariants_middle in Hinv as Hp. destruct Hp as (H1 & H2 & H3).
    rewrite <- (mk_props p) in H1, H2, H3.
    rewrite (push_value_dto validate v _ c Hv),
      (push_dto_ok validate (props p) c) by (done || apply Hvalid; left).
    rewrite mk_props, IH.
    + by rewrite <- app_assoc.
    + intros x Hx. apply Hvalid. by right.
    + by rewrite <- app_assoc.
Qed.

Lemma Forall2_Dto (records : list PermissionDto) :
  Forall2 (λ v p, value_dto v = Some (props p))
          (map Dto records) (map mk records).
Proof. induction records; constructor; done. Qed.

(** The members a loop of [push] leaves were there before or come from the
    pushed values. *)
Lemma for_of_push_members (l : list value) (c : items) p :
  p ∈ (for_of (push validate) l c).1 →
  p ∈ c ∨ ∃ v, v ∈ l ∧ value_dto v = Some (props p).
Proof.
  revert c. induction l as [|v l IH]; intros c; simpl; [by left|].
  unfold bind.
  destruct (push_state_cases validate v c)
    as [Hs|(dto & Hv & _ & _ & _ & _ & Hs)].
  - destruct (push validate v c) as [c1 [e|[]]]; simpl in *; subst c1;
      [by left|].
    intros [?|(v' & Hv' & ?)]%IH; [by left|].
    right. exists v'. split; [by right | done].
  - rewrite Hs.
    intros [[?|Hx%list_elem_of_singleton]%elem_of_app|(v' & Hv' & ?)]%IH.
    + by left.
    + subst p. right. exists v. split; [left | done].
    + right. exists v'. split; [by right | done].
Qed.

(** C5, amended: for every list of records that pass the schema, with an
    Owner-level entry (hence not empty), pairwise distinct (ARO type, ARO
    id), one (ACO type, ACO id) and pairwise distinct identifiers where
    present, the constructor returns the collection whose members are the
    entities of the records in the order of the records. *)
Theorem constructor_preserves_order (records : list PermissionDto)
    (ownerValidation : option bool) :
  (∀ dto, dto ∈ records → validate dto = true) →
  (∃ dto, dto ∈ records ∧ dto_type dto = Owner) →
  unique_aro (map PermissionEntity.mk records) →
  same_aco (map PermissionEntity.mk records) →
  unique_id (map PermissionEntity.mk records) →
  constructor validate (map Dto records) ownerValidation
  = inr (map PermissionEntity.mk records).
Proof.
  intros Hvalid (dto & Hdto & Ho) Haro Haco Hid.
  unfold constructor, bind.
  rewrite (for_of_push_ok _ (map mk records) []).
  - simpl. destruct (owner_validation_enabled ownerValidation); [|done].
    unfold assertAtLeastOneOwner, bind, permissions. simpl.
    assert (found_owner (map mk records) = true) as ->; [|done].
    apply found_owner_true. exists (mk dto).
    split; [by apply list_elem_of_fmap_2 | done].
  - apply Forall2_Dto.
  - intros p (d & -> & Hd)%list_elem_of_fmap. by apply Hvalid.
  - done.
Qed.

(** C6, amended: for every list of values without an Owner-level entry,
    a constructor with owner validation enabled or omitted fails: with
    the ONE_OWNER violation at position 0 when every insertion succeeds,
    which is the case when the records pass the schema and their entities
    have the invariants; with the error of the insertion that fails
    otherwise. *)
Theorem constructor_without_owner (l : list value)
    (ownerValidation : option bool) :
  owner_validation_enabled ownerValidation = true →
  (∀ v dto, v ∈ l → value_dto v = Some dto → dto_type dto ≠ Owner) →
  (∀ c, for_of (push validate) l [] = (c, inr ()) →
     constructor validate l ownerValidation =
       inl (EntityCollectionError 0 RULE_ONE_OWNER
              "Permission collection should contain at least one owner.")) ∧
  (∀ c e, for_of (push validate) l [] = (c, inl e) →
     constructor validate l ownerValidation = inl e) ∧
  (∀ ps, Forall2 (λ v p, value_dto v = Some (props p)) l ps →
     all_valid validate ps → invariants ps →
     constructor validate l ownerValidation =
       inl (EntityCollectionError 0 RULE_ONE_OWNER
              "Permission collection should contain at least one owner.")).
Proof.
  intros Hov Hnone.
  assert (∀ c, for_of (push validate) l [] = (c, inr ()) →
     constructor validate l ownerValidation =
       inl (EntityCollectionError 0 RULE_ONE_OWNER
              "Permission collection should contain at least one owner."))
    as Hok.
  { intros c Hc. unfold constructor, bind. rewrite Hc, Hov.
    unfold assertAtLeastOneOwner, bind, permissions. simpl.
    assert (found_owner c = false) as ->; [|done].
    apply found_owner_false. intros p Hp.
    replace c with (for_of (push validate) l []).1 in Hp by (by rewrite Hc).
    apply for_of_push_members in Hp as [Hp|(v & Hv & Hd)];
      [by apply elem_of_nil in Hp|].
    by apply (Hnone v (props p)). }
  split; [done|]. split.
  - intros c e Hc. unfold constructor, bind. by rewrite Hc.
  - intros ps Hl Hvalid Hinv. apply (Hok ps).
    by apply (for_of_push_ok l ps []).
Qed.

End ConstructorFacts.

Section MergeFacts.

Import PermissionEntity PermissionsCollection.

Variable validate : PermissionDto → bool.

Lemma recoverable_unique_id i msg :
  recoverable (EntityCollectionError i RULE_UNIQUE_ID msg) = true.
Proof. done. Qed.

Lemma recoverable_unique_aro i msg :
  recoverable (EntityCollectionError i RULE_UNIQUE_ARO msg) = true.
Proof. done. Qed.

Lemma isAroMatching_refl a : isAroMatching a a = true.
Proof. by apply isAroMatching_true. Qed.

Lemma isAroMatching_trans a b c :
  isAroMatching a b = true → isAroMatching b c = true →
  isAroMatching a c = true.
Proof.
  rewrite !isAroMatching_true. intros [??] [??]. split; congruence.
Qed.

Lemma isAcoMatching_sym a b : isAcoMatching a b = isAcoMatching b a.
Proof.
  apply eq_true_iff_eq. rewrite !isAcoMatching_true.
  split; intros [??]; split; congruence.
Qed.

Lemma isAcoMatching_trans a b c :
  isAcoMatching a b = true → isAcoMatching b c = true →
  isAcoMatching a c = true.
Proof.
  rewrite !isAcoMatching_true. intros [??] [??]. split; congruence.
Qed.

Lemma getHighestPermission_aro a b :
  isAroMatching a b = true →
  isAroMatching (getHighestPermission a b) a = true.
Proof.
  intros H. destruct (getHighestPermission_cases a b) as [[_ ->]|[_ ->]].
  - by rewrite isAroMatching_sym.
  - apply isAroMatching_refl.
Qed.

Lemma getHighestPermission_idemp a b :
  getHighestPermission (getHighestPermission a b) b = getHighestPermission a b.
Proof.
  destruct (getHighestPermission_cases a b) as [[H ->]|[H ->]].
  - unfold getHighestPermission. by destruct (decide _).
  - unfold getHighestPermission. destruct (decide _); [lia | done].
Qed.

Lemma same_aco_member p c q :
  same_aco c → aco_ok p c → q ∈ c → isAcoMatching q p = true.
Proof.
  intros Hc Hp Hq. destruct c as [|first c']; [by apply elem_of_nil in Hq|].
  specialize (Hp first eq_refl).
  eapply isAcoMatching_trans; [|by rewrite isAcoMatching_sym].
  apply isAcoMatching_true, Hc; [done | left].
Qed.

Lemma elem_of_insert_cases (c : items) i x y :
  x ∈ <[i := y]> c → x = y ∨ x ∈ c.
Proof.
  intros [j Hj]%list_elem_of_lookup_1. destruct (decide (j = i)) as [->|Hne].
  - destruct (decide (i < length c)).
    + rewrite list_lookup_insert_eq in Hj by done. left. congruence.
    + rewrite list_insert_ge in Hj by lia. right.
      by eapply list_elem_of_lookup_2.
  - rewrite list_lookup_insert_ne in Hj by done. right.
    by eapply list_elem_of_lookup_2.
Qed.

(** [addOrReplace] returns when the entity passes the schema and the same
    ACO rule and every member with its identifier has its ARO: the entity
    is appended, or a member for its ARO is replaced by the higher of the
    two. *)
Lemma addOrReplace_succeeds p c :
  validate (props p) = true → same_aco c → aco_ok p c →
  (∀ q, q ∈ c → truthy (id p) = true → id q = id p →
        isAroMatching q p = true) →
  (aro_ok p c ∧ addOrReplace validate p c = (c ++ [p], inr ())) ∨
  (∃ i existing, c !! i = Some existing ∧ isAroMatching existing p = true ∧
     addOrReplace validate p c
     = (<[i := getHighestPermission existing p]> c, inr ())).
Proof.
  intros Hv Hc Ha Hids.
  destruct (addOrReplace validate p c) as [c' r] eqn:E.
  apply addOrReplace_inv in E
    as [(-> & _ & _ & _ & H3 & ->)
       |[(e & i & existing & _ & _ & _ & Hi & Hm & -> & ->)
        |(e & Hpush & -> & -> & H)]].
  - by left.
  - right. exists i, existing.
    by apply isAcoAndAroMatching_true in Hm as [? _].
  - exfalso. simpl in Hpush. unfold PermissionEntity.toDto in Hpush.
    destruct H as [R|(i & existing & Hpos & Hi & Hm)].
    + apply push_dto_inv_error in Hpush
        as [_ [[? _]|[[_ H]|[(_ & _ & H)|(_ & _ & _ & H)]]]].
      * congruence.
      * rewrite mk_props in H. apply assertSameAco_ok in Ha. congruence.
      * apply assertUniqueId_error in H as (_ & ? & ? & _ & _ & _ & ->).
        by rewrite recoverable_unique_id in R.
      * apply assertUniqueAro_error in H as (? & ? & _ & _ & _ & ->).
        by rewrite recoverable_unique_aro in R.
    + assert (recoverable e = true) as R.
      { destruct (recoverable e) eqn:R; [done|].
        apply push_dto_inv_error in Hpush
          as [_ [[? _]|[[_ H]|[(_ & _ & H)|(_ & _ & _ & H)]]]].
        - congruence.
        - rewrite mk_props in H. apply assertSameAco_ok in Ha. congruence.
        - apply assertUniqueId_error in H as (_ & ? & ? & _ & _ & _ & ->).
          by rewrite recoverable_unique_id in R.
        - apply assertUniqueAro_error in H as (? & ? & _ & _ & _ & ->).
          by rewrite recoverable_unique_aro in R. }
      apply push_dto_conflict in Hpush
        as (_ & _ & _ & i' & existing' & Hpos' & Hi' & H); [|done].
      rewrite mk_props in H.
      assert (i' = i) as -> by congruence.
      assert (existing' = existing) as -> by congruence.
      assert (existing ∈ c) as Hin by (by eapply list_elem_of_lookup_2).
      assert (isAroMatching existing p = true) as Haro.
      { destruct H as [(_ & [T Eid]%same_id_true & _)|(_ & _ & Hm' & _)].
        - apply Hids; [done | congruence | done].
        - by rewrite isAroMatching_sym. }
      assert (isAcoAndAroMatching existing p = true); [|congruence].
      apply isAcoAndAroMatching_true. split; [done|].
      by eapply same_aco_member.
Qed.

Lemma findByAro_cons b (l : items) s :
  findByAro (b :: l) s =
  if isAroMatching b s then Some b else findByAro l s.
Proof.
  unfold findByAro. destruct (isAroMatching b s) eqn:E.
  - by rewrite filter_cons_True.
  - rewrite filter_cons_False; [done|]. by rewrite E.
Qed.

Lemma findByAro_None (l : items) s :
  findByAro l s = None ↔ ∀ x, x ∈ l → isAroMatching x s = false.
Proof.
  induction l as [|b l IH]; [split; [intros _ x Hx|]; [by apply elem_of_nil in Hx | done]|].
  rewrite findByAro_cons. destruct (isAroMatching b s) eqn:E.
  - split; [done|]. intros H. specialize (H b). rewrite E in H.
    discriminate H. left.
  - rewrite IH. split.
    + intros H x [->|Hx]%elem_of_cons; [done | by apply H].
    + intros H x Hx. apply H. by right.
Qed.

Lemma findByAro_Some (l : items) s b :
  findByAro l s = Some b → b ∈ l ∧ isAroMatching b s = true.
Proof.
  induction l as [|x l IH]; [done|].
  rewrite findByAro_cons. destruct (isAroMatching x s) eqn:E.
  - intros [= <-]. split; [left | done].
  - intros [??]%IH. split; [by right | done].
Qed.

(** [findByAro] only looks at the ARO of its argument. *)
Lemma findByAro_aro (l : items) s s' :
  isAroMatching s s' = true → findByAro l s = findByAro l s'.
Proof.
  intros H. induction l as [|x l IH]; [done|].
  rewrite !findByAro_cons, IH.
  assert (isAroMatching x s = isAroMatching x s') as ->; [|done].
  apply eq_true_iff_eq. split; intros Hx.
  - by eapply isAroMatching_trans.
  - eapply isAroMatching_trans; [done|]. by rewrite isAroMatching_sym.
Qed.

Lemma merged_nil (c : items) : map (merged []) c = c.
Proof. induction c as [|x c IH]; [done|]. simpl. by rewrite IH. Qed.

Lemma merged_cases (set2 : items) s :
  merged set2 s = s ∨
  ∃ b, b ∈ set2 ∧ isAroMatching b s = true ∧ merged set2 s = b.
Proof.
  unfold merged. destruct (findByAro set2 s) as [b|] eqn:E; [|by left].
  apply findByAro_Some in E as [??].
  destruct (getHighestPermission_cases s b) as [[_ ->]|[_ ->]];
    [right; by exists b | by left].
Qed.

Lemma merged_aro (set2 : items) s : isAroMatching (merged set2 s) s = true.
Proof.
  destruct (merged_cases set2 s) as [->|(b & _ & H & ->)];
    [apply isAroMatching_refl | done].
Qed.

Lemma merged_idemp (set2 : items) s :
  merged set2 (merged set2 s) = merged set2 s.
Proof.
  unfold merged at 1. rewrite (findByAro_aro set2 _ s (merged_aro set2 s)).
  unfold merged. destruct (findByAro set2 s) as [b|]; [|done].
  apply getHighestPermission_idemp.
Qed.

Lemma unique_aro_tail b (l : items) : unique_aro (b :: l) → unique_aro l.
Proof.
  intros Hu i j x y Hx Hy E1 E2.
  assert (S i = S j) by (by eapply (Hu (S i) (S j) x y)). lia.
Qed.

Lemma unique_id_tail b (l : items) : unique_id (b :: l) → unique_id l.
Proof.
  intros Hu i j x y Hx Hy T E.
  assert (S i = S j) by (by eapply (Hu (S i) (S j) x y)). lia.
Qed.

Lemma unique_aro_head b (l : items) x :
  unique_aro (b :: l) → x ∈ l → isAroMatching x b = false.
Proof.
  intros Hu [j Hj]%list_elem_of_lookup_1.
  destruct (isAroMatching x b) eqn:E; [|done].
  apply isAroMatching_true in E as [??].
  assert (S j = 0); [|lia]. by eapply (Hu (S j) 0 x b).
Qed.

Lemma unique_id_head b (l : items) x :
  unique_id (b :: l) → x ∈ l → truthy (id x) = true → id b ≠ id x.
Proof.
  intros Hu [j Hj]%list_elem_of_lookup_1 T E.
  assert (S j = 0); [|lia]. by eapply (Hu (S j) 0 x b).
Qed.

End MergeFacts.

(** * addOrReplace with a record that conflicts with a member *)

Section ConflictFacts.

Import PermissionEntity PermissionsCollection.

Variable validate : PermissionDto → bool.

(** An error of [push] that is not UNIQUE_ID or UNIQUE_ARO is thrown again. *)
Lemma addOrReplace_rethrow p c c' e :
  push validate (Entity p) c = (c', inl e) → recoverable e = false →
  addOrReplace validate p c = (c, inl e).
Proof.
  intros Hpush R. pose proof Hpush as Hpush'. simpl in Hpush'.
  apply push_dto_inv_error in Hpush' as [-> _].
  unfold addOrReplace, try_catch. by rewrite Hpush, R.
Qed.

(** The [catch] block on an error with one of the two recovered rules *)
Lemma addOrReplace_recover p c c' e i existing :
  push validate (Entity p) c = (c', inl e) → recoverable e = true →
  error_position e = Some i → c !! i = Some existing →
  addOrReplace validate p c =
    if isAcoAndAroMatching existing p
    then (<[i := getHighestPermission existing p]> c, inr ())
    else (c, inl e).
Proof.
  intros Hpush R Hpos Hi. pose proof Hpush as Hpush'. simpl in Hpush'.
  apply push_dto_inv_error in Hpush' as [-> _].
  unfold addOrReplace, try_catch. rewrite Hpush, R. simpl.
  unfold bind, item_at, permissions, ret. rewrite Hpos. simpl. rewrite Hi.
  by destruct (isAcoAndAroMatching existing p).
Qed.

(** [push] of an entity whose identifier a member carries: UNIQUE_ID at the
    position of that member, whatever the ARO of the two. *)
Lemma push_same_id p c i existing :
  unique_id c → validate (props p) = true → aco_ok p c →
  c !! i = Some existing → truthy (id p) = true → id existing = id p →
  push validate (Entity p) c =
    (c, inl (EntityCollectionError i RULE_UNIQUE_ID
               ("Permission id " +:+ default "" (id p)
                  +:+ " already exists."))).
Proof.
  intros Hid Hv Ha%assertSameAco_ok Hi T E. simpl.
  unfold PermissionEntity.toDto. rewrite push_dto_run, Hv, mk_props, Ha.
  rewrite (assertUniqueId_throws p c i existing); [done..| |].
  - apply same_id_true. split; congruence.
  - intros j q Hq Hlt. destruct (same_id p q) eqn:Hs; [|done].
    apply same_id_true in Hs as [Tq Eq].
    assert (j = i); [|lia].
    eapply (Hid j i q existing); [done..|congruence].
Qed.

(** [push] of an entity for the ARO of the member at [i], when no other
    member carries its identifier: UNIQUE_ID or UNIQUE_ARO at [i]. *)
Lemma push_same_aro p c i existing :
  unique_aro c → unique_id c → validate (props p) = true → aco_ok p c →
  c !! i = Some existing → isAroMatching existing p = true →
  (truthy (id p) = true → ∀ j q, c !! j = Some q → id q = id p → j = i) →
  ∃ e, push validate (Entity p) c = (c, inl e) ∧
       recoverable e = true ∧ error_position e = Some i.
Proof.
  intros Haro Hid Hv Ha Hi Hm Honly.
  destruct (assertUniqueId p c).2 as [e|[]] eqn:Hcheck.
  - apply assertUniqueId_error in Hcheck
      as (T & i' & q & Hq & [Tq Eq]%same_id_true & _ & ->).
    assert (i' = i) as -> by (by eapply Honly).
    eexists. split; [by apply (push_same_id p c i q) | done].
  - apply assertSameAco_ok in Ha.
    eexists. split.
    + simpl. unfold PermissionEntity.toDto.
      rewrite push_dto_run, Hv, mk_props, Ha, Hcheck.
      rewrite (assertUniqueAro_throws p c i existing); [done..| |].
      * by rewrite isAroMatching_sym.
      * intros j q Hq Hlt. destruct (isAroMatching p q) eqn:Hs; [|done].
        apply isAroMatching_true in Hs as [S1 S2].
        apply isAroMatching_true in Hm as [M1 M2].
        assert (j = i); [|lia].
        eapply (Haro j i q existing); [done..|congruence|congruence].
    + done.
Qed.

(** C3: a record that conflicts with a member of a collection that
    satisfies the invariants.
    - The record passes the same ACO rule and a member has its ARO, and no
      other member carries its identifier: [addOrReplace] returns with that
      member replaced by the higher of the two, which is the new entity when
      its level is strictly higher and the existing member when its level is
      higher or equal (then the members are left as they are), and there is
      exactly one member for the ARO and as many members as before.  Which of
      the two is kept at equal levels is what [getHighestPermission] of
      [permissionEntity.js] returns, taken here toward the existing member.
    - A member carries the identifier of the record and has another ARO:
      [push] throws UNIQUE_ID at the position of that member and
      [addOrReplace] throws that error again, the members unchanged.
    - The record is about another ACO than the first member: SAME_ACO at
      position 0 is thrown again, the members unchanged.
    - In terms of the error of [push]: the member at the position of a
      UNIQUE_ID or UNIQUE_ARO error is replaced when it matches on ACO and
      ARO, the error is thrown again as it is when it does not, and every
      other error, SAME_ACO among them, is thrown again as it is.
    - Whenever [addOrReplace] throws, the members are unchanged and the error
      is the one of [push]; on such a collection it is never UNIQUE_ARO,
      because a member for the ARO of a record that passed the same ACO rule
      matches it on the ACO as well. *)
Theorem addOrReplace_conflict (c : items) (p : PermissionEntity.t) :
  invariants c →
  (∀ i existing,
     validate (props p) = true → aco_ok p c →
     c !! i = Some existing → isAroMatching existing p = true →
     (truthy (id p) = true → ∀ j q, c !! j = Some q → id q = id p → j = i) →
     let kept := getHighestPermission existing p in
     let c' := <[i := kept]> c in
     isAcoAndAroMatching existing p = true ∧
     addOrReplace validate p c = (c', inr ()) ∧
     (kept = existing ∨ kept = p) ∧
     level (type kept) = level (type existing) `max` level (type p) ∧
     (level (type existing) < level (type p) → kept = p) ∧
     (level (type p) ≤ level (type existing) → kept = existing ∧ c' = c) ∧
     filter (λ q, isAroMatching q p = true) c' = [kept] ∧
     length c' = length c) ∧
  (∀ i existing,
     validate (props p) = true → aco_ok p c →
     c !! i = Some existing → truthy (id p) = true → id existing = id p →
     isAroMatching existing p = false →
     let e := EntityCollectionError i RULE_UNIQUE_ID
                ("Permission id " +:+ default "" (id p)
                   +:+ " already exists.") in
     push validate (Entity p) c = (c, inl e) ∧
     addOrReplace validate p c = (c, inl e)) ∧
  (∀ first,
     validate (props p) = true →
     c !! 0 = Some first → isAcoMatching p first = false →
     let e := EntityCollectionError 0 RULE_SAME_ACO
                ("The collection is already composed of this type of ACO: "
                   +:+ aco first +:+ ".") in
     push validate (Entity p) c = (c, inl e) ∧
     addOrReplace validate p c = (c, inl e)) ∧
  (∀ c' e,
     push validate (Entity p) c = (c', inl e) →
     (∀ i existing,
        recoverable e = true → error_position e = Some i →
        c !! i = Some existing → isAcoAndAroMatching existing p = true →
        let kept := getHighestPermission existing p in
        addOrReplace validate p c = (<[i := kept]> c, inr ()) ∧
        (level (type p) ≤ level (type existing) → kept = existing) ∧
        (level (type existing) < level (type p) → kept = p) ∧
        filter (λ q, isAroMatching q p = true) (<[i := kept]> c) = [kept]) ∧
     (∀ i existing,
        recoverable e = true → error_position e = Some i →
        c !! i = Some existing → isAcoAndAroMatching existing p = false →
        addOrReplace validate p c = (c, inl e)) ∧
     (recoverable e = false → addOrReplace validate p c = (c, inl e)) ∧
     (error_rule e = Some RULE_SAME_ACO →
        addOrReplace validate p c = (c, inl e))) ∧
  (∀ c' e,
     addOrReplace validate p c = (c', inl e) →
     c' = c ∧ push validate (Entity p) c = (c, inl e) ∧
     error_rule e ≠ Some RULE_UNIQUE_ARO).
Proof.
  intros Hinv. pose proof Hinv as (Haco & Haro & Hid).
  assert (∀ i existing e c0,
    push validate (Entity p) c = (c0, inl e) → recoverable e = true →
    error_position e = Some i → c !! i = Some existing →
    isAcoAndAroMatching existing p = true →
    let kept := getHighestPermission existing p in
    addOrReplace validate p c = (<[i := kept]> c, inr ()) ∧
    (level (type p) ≤ level (type existing) → kept = existing) ∧
    (level (type existing) < level (type p) → kept = p) ∧
    filter (λ q, isAroMatching q p = true) (<[i := kept]> c) = [kept])
    as Hreplace.
  { intros i existing e c0 Hpush R Hpos Hi Hm kept.
    assert (addOrReplace validate p c = (<[i := kept]> c, inr ())) as Hrun.
    { rewrite (addOrReplace_recover p c c0 e i existing) by done.
      by rewrite Hm. }
    split; [done|].
    destruct (getHighestPermission_cases existing p) as [[Hlt Hk]|[Hle Hk]];
      fold kept in Hk.
    - split; [intros; lia|]. split; [done|].
      eapply (filter_unique_aro _ i).
      + pose proof (addOrReplace_invariants validate p c Hinv) as H.
        rewrite Hrun in H. apply H.
      + apply list_lookup_insert_eq. by eapply lookup_lt_Some.
      + rewrite Hk. apply isAroMatching_true. done.
    - split; [done|]. split; [intros; lia|].
      rewrite Hk, list_insert_id by done.
      eapply (filter_unique_aro _ i); [done | done |].
      by apply isAcoAndAroMatching_true in Hm as [? _]. }
  split; [|split; [|split; [|split]]].
  - intros i existing Hv Ha Hi Hm Honly kept c'.
    assert (isAcoAndAroMatching existing p = true) as Hboth.
    { apply isAcoAndAroMatching_true. split; [done|].
      eapply same_aco_member; [done..|]. by eapply list_elem_of_lookup_2. }
    destruct (push_same_aro p c i existing) as (e & Hpush & R & Hpos);
      [done..|].
    destruct (Hreplace i existing e c Hpush R Hpos Hi Hboth)
      as (Hrun & Hkeep & Hnew & Hone).
    fold kept in Hrun, Hkeep, Hnew, Hone. fold c' in Hrun, Hone.
    split; [done|]. split; [done|]. split.
    { destruct (getHighestPermission_cases existing p) as [[_ Hk]|[_ Hk]];
        fold kept in Hk; [by right | by left]. }
    split; [apply getHighestPermission_level|].
    split; [done|]. split.
    { intros Hle. split; [by apply Hkeep|].
      subst c'. rewrite (Hkeep Hle). by apply list_insert_id. }
    split; [done|]. apply length_insert.
  - intros i existing Hv Ha Hi T E Hm e.
    assert (push validate (Entity p) c = (c, inl e)) as Hpush
      by (by apply (push_same_id p c i existing)).
    split; [done|].
    rewrite (addOrReplace_recover p c c e i existing) by done.
    unfold isAcoAndAroMatching. by rewrite Hm.
  - intros first Hv H0 Hm e.
    assert (push validate (Entity p) c = (c, inl e)) as Hpush.
    { simpl. unfold PermissionEntity.toDto.
      by rewrite push_dto_run, Hv, mk_props,
        (assertSameAco_throws p c first). }
    split; [done|]. by apply (addOrReplace_rethrow p c c e).
  - intros c' e Hpush. split; [|split; [|split]].
    + intros i existing R Hpos Hi Hm. by eapply Hreplace.
    + intros i existing R Hpos Hi Hm.
      rewrite (addOrReplace_recover p c c' e i existing) by done.
      by rewrite Hm.
    + by apply (addOrReplace_rethrow p c c' e).
    + intros Hrule. eapply addOrReplace_rethrow; [done|].
      by apply recoverable_not_same_aco.
  - intros c' e Hrun.
    apply addOrReplace_inv in Hrun
      as [(? & _)|[(? & ? & ? & _ & _ & _ & _ & _ & _ & ?)
                  |(e' & Hpush & -> & [= <-] & H)]]; [done..|].
    do 2 (split; [done|]). intros Hrule.
    assert (recoverable e = true) as R by (unfold recoverable; by rewrite Hrule).
    destruct H as [?|(i & existing & Hpos & Hi & Hm)]; [congruence|].
    simpl in Hpush. unfold PermissionEntity.toDto in Hpush.
    apply push_dto_conflict in Hpush
      as (_ & _ & Ha & i' & existing' & Hpos' & Hi' & H); [|done].
    rewrite mk_props in *.
    assert (i' = i) as -> by congruence.
    assert (existing' = existing) as -> by congruence.
    destruct H as [(Hrule' & _)|(_ & _ & Hs & _)].
    + rewrite Hrule in Hrule'. discriminate.
    + assert (isAcoAndAroMatching existing p = true); [|congruence].
      apply isAcoAndAroMatching_true. split; [by rewrite isAroMatching_sym|].
      eapply same_aco_member; [done..|]. by eapply list_elem_of_lookup_2.
Qed.

End ConflictFacts.

Section UnionFacts.

Import PermissionEntity PermissionsCollection.

Variable validate : PermissionDto → bool.

(** One member of the second set, whose ARO the member [s] at [i] has:
    that member becomes the higher of the two. *)
Lemma addOrReplace_existing (c : items) b i s :
  invariants c → validate (props b) = true →
  c !! i = Some s → isAroMatching s b = true →
  (∀ q, q ∈ c → isAcoMatching b q = true) →
  (∀ q, q ∈ c → truthy (id b) = true → id q = id b →
        isAroMatching q b = true) →
  addOrReplace validate b c = (<[i := getHighestPermission s b]> c, inr ()).
Proof.
  intros (Haco & Haro & Hid) Hv Hi Hm Hacos Hids.
  assert (s ∈ c) as Hin by (by eapply list_elem_of_lookup_2).
  destruct (addOrReplace_succeeds validate b c) as
    [[Hfresh _]|(i' & s' & Hi' & Hm' & ->)]; try done.
  - intros first H0. apply Hacos. by eapply list_elem_of_lookup_2.
  - specialize (Hfresh s Hin). rewrite isAroMatching_sym in Hfresh.
    congruence.
  - apply isAroMatching_true in Hm as [??].
    apply isAroMatching_true in Hm' as [??].
    assert (i' = i) as ->
      by (eapply (Haro i' i s' s); [done..|congruence|congruence]).
    by assert (s' = s) as -> by congruence.
Qed.

Lemma for_of_addOrReplace_merged (set2 set3 : items) :
  invariants set3 → unique_aro set2 → unique_id set2 →
  all_valid validate set2 → foldable set3 set2 →
  for_of (addOrReplace validate) set2 set3 = (map (merged set2) set3, inr ()).
Proof.
  revert set3. induction set2 as [|b set2 IH];
    intros c Hinv Haro2 Hid2 Hvalid2 (Hsub & Hacos & Hids).
  { by rewrite merged_nil. }
  destruct (Hsub b) as (s & Hs & Hm); [left|].
  apply list_elem_of_lookup_1 in Hs as Hi. destruct Hi as [i Hi].
  assert (addOrReplace validate b c
          = (<[i := getHighestPermission s b]> c, inr ())) as Hstep.
  { apply addOrReplace_existing; try done.
    - apply Hvalid2. left.
    - intros q Hq. apply Hacos; [done | left].
    - intros q Hq. apply Hids; [done | left]. }
  simpl. unfold bind. rewrite Hstep.
  set (c1 := <[i := getHighestPermission s b]> c).
  assert (∀ x, x ∈ c1 → x ∈ c ∨ (x = b ∧ isAroMatching s b = true)) as Hc1.
  { intros x [->|?]%elem_of_insert_cases; [|by left].
    destruct (getHighestPermission_cases s b) as [[_ ->]|[_ ->]];
      [by right | by left]. }
  rewrite IH.
  - f_equal. apply list_eq. intros j. rewrite !list_lookup_fmap.
    destruct (decide (j = i)) as [->|Hne].
    + unfold c1. rewrite list_lookup_insert_eq by (by eapply lookup_lt_Some).
      rewrite Hi. simpl. f_equal.
      unfold merged at 2. rewrite findByAro_cons.
      rewrite isAroMatching_sym, Hm.
      unfold merged.
      assert (findByAro set2 (getHighestPermission s b) = None) as ->;
        [|done].
      apply findByAro_None. intros x Hx.
      pose proof (unique_aro_head b set2 x Haro2 Hx) as Hxb.
      destruct (isAroMatching x (getHighestPermission s b)) eqn:E; [|done].
      rewrite <- Hxb. symmetry.
      eapply isAroMatching_trans; [done|].
      eapply isAroMatching_trans; [by apply getHighestPermission_aro|done].
    + unfold c1. rewrite list_lookup_insert_ne by done.
      destruct (c !! j) as [x|] eqn:Hj; [|done]. simpl. f_equal.
      unfold merged. rewrite findByAro_cons.
      assert (isAroMatching b x = false) as ->; [|done].
      destruct (isAroMatching b x) eqn:E; [|done].
      exfalso. apply Hne.
      apply isAroMatching_true in E as [??].
      apply isAroMatching_true in Hm as [??].
      destruct Hinv as (_ & Haro & _).
      eapply (Haro j i x s); [done..|congruence|congruence].
  - pose proof (addOrReplace_invariants validate b c Hinv) as H.
    by rewrite Hstep in H.
  - by eapply unique_aro_tail.
  - by eapply unique_id_tail.
  - intros x Hx. apply Hvalid2. by right.
  - split; [|split].
    + intros b' Hb'. destruct (Hsub b') as (s' & Hs' & Hm'); [by right|].
      apply list_elem_of_lookup_1 in Hs' as [j Hj].
      destruct (decide (j = i)) as [->|Hne].
      * exists (getHighestPermission s b). split.
        -- apply list_elem_of_lookup. exists i.
           apply list_lookup_insert_eq. by eapply lookup_lt_Some.
        -- assert (s' = s) as -> by congruence.
           eapply isAroMatching_trans;
             [by apply getHighestPermission_aro | done].
      * exists s'. split; [|done]. apply list_elem_of_lookup. exists j.
        unfold c1. by rewrite list_lookup_insert_ne.
    + intros x b' [Hx|[-> _]]%Hc1 Hb'.
      * apply Hacos; [done | by right].
      * eapply isAcoMatching_trans; [apply (Hacos s); [done | by right]|].
        rewrite isAcoMatching_sym. apply Hacos; [done | left].
    + intros x b' [Hx|[-> _]]%Hc1 Hb' T E.
      * apply Hids; [done | by right | done..].
      * exfalso. by eapply (unique_id_head b set2 b').
Qed.

(** The seed of the union is the first set. *)
Lemma constructor_toDto (set1 : items) :
  invariants set1 → all_valid validate set1 →
  constructor validate (map Dto (toDto set1)) (Some false) = inr set1.
Proof.
  intros Hinv Hvalid. unfold constructor, bind.
  rewrite (for_of_push_ok validate _ set1 []); [done| |done..].
  unfold toDto. induction set1; constructor; [done|].
  apply IHset1.
  - destruct Hinv as (H1 & H2 & H3). split; [|split].
    + intros p q Hp Hq. apply H1; by right.
    + by eapply unique_aro_tail.
    + by eapply unique_id_tail.
  - intros p Hp. apply Hvalid. by right.
Qed.

Lemma level_owner t : level t = 3 ↔ t = Owner.
Proof. destruct t; simpl; split; (done || lia). Qed.

Lemma level_le t : level t ≤ 3.
Proof. destruct t; simpl; lia. Qed.

Lemma merged_level_ge (set2 : items) s :
  level (type s) ≤ level (type (merged set2 s)).
Proof.
  unfold merged. destruct (findByAro set2 s); [|done].
  rewrite getHighestPermission_level. lia.
Qed.

(** The level of a merged member is the highest of the two sets for its
    ARO. *)
Lemma merged_level (set1 set2 : items) i s :
  unique_aro set1 → unique_aro set2 → set1 !! i = Some s →
  level (type (merged set2 s)) = highest_level s (set1 ++ set2).
Proof.
  intros H1 H2 Hi. unfold highest_level.
  rewrite filter_app, map_app,
    (filter_unique_aro set1 i s s H1 Hi (isAroMatching_refl s)).
  unfold merged. destruct (findByAro set2 s) as [b|] eqn:E.
  - apply findByAro_Some in E as [[j Hj]%list_elem_of_lookup_1 Hm].
    rewrite (filter_unique_aro set2 j b s H2 Hj Hm),
      getHighestPermission_level. simpl. lia.
  - rewrite filter_none; [simpl; lia|].
    intros y Hy. eapply findByAro_None in E; [|done]. by rewrite E.
Qed.

Lemma merged_found_owner (set1 set2 : items) :
  unique_aro set2 →
  (∀ b, b ∈ set2 → ∃ s, s ∈ set1 ∧ isAroMatching s b = true) →
  found_owner (set1 ++ set2) = true →
  found_owner (map (merged set2) set1) = true.
Proof.
  intros H2 Hsub (p & Hp & Ho)%found_owner_true. apply found_owner_true.
  assert (∀ x, 3 ≤ level (type x) → type x = Owner) as Htop.
  { intros x Hx. apply level_owner. pose proof (level_le (type x)). lia. }
  apply elem_of_app in Hp as [Hp|Hp].
  - exists (merged set2 p). split; [by apply list_elem_of_fmap_2|].
    apply Htop. pose proof (merged_level_ge set2 p).
    apply level_owner in Ho. lia.
  - destruct (Hsub p Hp) as (s & Hs & Hm).
    exists (merged set2 s). split; [by apply list_elem_of_fmap_2|].
    apply Htop. unfold merged.
    destruct (findByAro set2 s) as [b|] eqn:E.
    + apply findByAro_Some in E as [[j Hj]%list_elem_of_lookup_1 Hb].
      apply list_elem_of_lookup_1 in Hp as [k Hk].
      assert (j = k) as ->.
      { apply isAroMatching_true in Hb as [??].
        apply isAroMatching_true in Hm as [??].
        eapply (H2 j k b p); [done..|congruence|congruence]. }
      assert (b = p) as -> by congruence.
      rewrite getHighestPermission_level. apply level_owner in Ho. lia.
    + eapply findByAro_None in E; [|done].
      rewrite isAroMatching_sym in E. congruence.
Qed.

(** The union of two collections under [foldable]. *)
Lemma unionByAcoAndType_run (set1 set2 : items) (ov : option bool) :
  invariants set1 → all_valid validate set1 →
  invariants set2 → all_valid validate set2 →
  foldable set1 set2 →
  (owner_validation_enabled ov = true →
   found_owner (map (merged set2) set1) = true) →
  unionByAcoAndType validate set1 set2 ov = inr (map (merged set2) set1).
Proof.
  intros H1 V1 (_ & Haro2 & Hid2) V2 Hfold Howner.
  unfold unionByAcoAndType. rewrite constructor_toDto by done.
  unfold bind. rewrite for_of_addOrReplace_merged by done.
  destruct (owner_validation_enabled ov); [|done].
  unfold assertAtLeastOneOwner, bind, permissions. simpl.
  by rewrite Howner.
Qed.

(** The result of the union can be unioned with the second set again. *)
Lemma foldable_merged (set1 set2 : items) :
  unique_id set2 → foldable set1 set2 →
  foldable (map (merged set2) set1) set2.
Proof.
  intros Hid2 (Hsub & Hacos & Hids). split; [|split].
  - intros b Hb. destruct (Hsub b Hb) as (s & Hs & Hm).
    exists (merged set2 s). split; [by apply list_elem_of_fmap_2|].
    eapply isAroMatching_trans; [apply merged_aro | done].
  - intros x b (s & -> & Hs)%list_elem_of_fmap Hb.
    destruct (merged_cases set2 s) as [->|(b' & Hb' & _ & ->)].
    + by apply Hacos.
    + eapply isAcoMatching_trans; [by apply (Hacos s)|].
      rewrite isAcoMatching_sym. by apply Hacos.
  - intros x b (s & -> & Hs)%list_elem_of_fmap Hb T E.
    destruct (merged_cases set2 s) as [Heq|(b' & Hb' & _ & Heq)];
      rewrite Heq in *.
    + by apply Hids.
    + apply list_elem_of_lookup_1 in Hb as [j Hj].
      apply list_elem_of_lookup_1 in Hb' as [k Hk].
      assert (k = j) as ->
        by (eapply (Hid2 k j b' b); [done..|congruence|done]).
      assert (b' = b) as -> by congruence. apply isAroMatching_refl.
Qed.

End UnionFacts.

Section UnionTheorem.

Import PermissionEntity PermissionsCollection.

Variable validate : PermissionDto → bool.

(** C2, amended: for collections A and B such that every (ARO type, ARO
    id) of B occurs in A, B is about the ACO of A, a member of A that
    carries the identifier of a member of B has its ARO, and, unless owner
    validation is disabled, A or B has an Owner-level member,
    [unionByAcoAndType(A, B)] returns a collection with as many entries as
    A, the entry at each position being for the ARO of the member of A at
    that position, at the highest level that ARO has in A and B; and the
    union of that result with B is that result. *)
Theorem unionByAcoAndType_subset (A B : items) (ownerValidation : option bool) :
  reachable validate A → reachable validate B →
  (∀ b, b ∈ B → ∃ a, a ∈ A ∧ isAroMatching a b = true) →
  (∀ a b, a ∈ A → b ∈ B → isAcoMatching b a = true) →
  (∀ a b, a ∈ A → b ∈ B → truthy (id b) = true → id a = id b →
          isAroMatching a b = true) →
  (owner_validation_enabled ownerValidation = true →
   found_owner (A ++ B) = true) →
  ∃ R, unionByAcoAndType validate A B ownerValidation = inr R ∧
    length R = length A ∧
    (∀ i a, A !! i = Some a →
       ∃ r, R !! i = Some r ∧ isAroMatching r a = true ∧
         level (type r) = highest_level a (A ++ B)) ∧
    unionByAcoAndType validate R B ownerValidation = inr R.
Proof.
  intros [HA VA]%reachable_invariants [HB VB]%reachable_invariants
    Hsub Hacos Hids Howner.
  assert (foldable A B) as Hfold by done.
  assert (owner_validation_enabled ownerValidation = true →
          found_owner (map (merged B) A) = true) as Howner'.
  { intros Hov. apply merged_found_owner; [apply HB | done | by apply Howner]. }
  pose proof (unionByAcoAndType_run validate A B ownerValidation
                HA VA HB VB Hfold Howner') as Hrun.
  exists (map (merged B) A). split; [done|]. split; [apply length_map|].
  split.
  - intros i a Hi. exists (merged B a). split.
    + by rewrite list_lookup_fmap, Hi.
    + split; [apply merged_aro|].
      eapply merged_level; [apply HA | apply HB | done].
  - apply unionByAcoAndType_invariants in Hrun as Hinv.
    destruct Hinv as [HR VR].
    assert (map (merged B) (map (merged B) A) = map (merged B) A) as Hidem.
    { rewrite map_map. apply map_ext. intros a. apply merged_idemp. }
    rewrite <- Hidem at 2.
    apply unionByAcoAndType_run; try done.
    + apply foldable_merged; [apply HB | done].
    + by rewrite Hidem.
Qed.

End UnionTheorem.

Section FolderModelFacts.

Import PermissionEntity PermissionsCollection FolderModel.

Variable validate : PermissionDto → bool.
Variable get_folder : string → Result FolderEntity.

Lemma for_of_map {A B} (f : A → B) (body : B → M items unit) (l : list A) c :
  for_of (λ x, body (f x)) l c = for_of body (map f l) c.
Proof.
  revert c. induction l as [|x l IH]; intros c; [done|].
  simpl. unfold bind. destruct (body (f x) c) as [c1 [e|[]]]; [done|].
  apply IH.
Qed.

(** Entities that pass the schema and keep the invariants are appended in
    order by [addOrReplace] as well. *)
Lemma for_of_addOrReplace_fresh (ps c : items) :
  all_valid validate ps → invariants (c ++ ps) →
  for_of (addOrReplace validate) ps c = (c ++ ps, inr ()).
Proof.
  revert c. induction ps as [|p ps IH]; intros c Hvalid Hinv.
  - by rewrite app_nil_r.
  - simpl. unfold bind, addOrReplace, try_catch. simpl.
    apply invariants_middle in Hinv as Hp. destruct Hp as (H1 & H2 & H3).
    rewrite <- (mk_props p) in H1, H2, H3.
    unfold PermissionEntity.toDto.
    rewrite (push_dto_ok validate (props p) c)
      by (done || apply Hvalid; left).
    rewrite mk_props, IH.
    + by rewrite <- app_assoc.
    + intros x Hx. apply Hvalid. by right.
    + by rewrite <- app_assoc.
Qed.

Lemma invariants_copyForAnotherAco (pp : items) aco acoId :
  invariants pp →
  invariants (map (λ p, copyForAnotherAco p aco acoId) pp).
Proof.
  intros (_ & Haro & Hid).
  assert (∀ i x, map (λ p, copyForAnotherAco p aco acoId) pp !! i = Some x →
            ∃ p, pp !! i = Some p ∧ x = copyForAnotherAco p aco acoId) as Hl.
  { intros i x Hx. rewrite list_lookup_fmap in Hx.
    destruct (pp !! i) as [p|]; [|done]. exists p.
    split; [done|]. by injection Hx as <-. }
  split; [|split].
  - intros x y (p & -> & _)%list_elem_of_fmap (q & -> & _)%list_elem_of_fmap.
    done.
  - intros i j x y (p & Hp & ->)%Hl (q & Hq & ->)%Hl E1 E2.
    by eapply (Haro i j p q).
  - intros i j x y (p & Hp & ->)%Hl (q & Hq & ->)%Hl T E.
    by eapply (Hid i j p q).
Qed.

Lemma push_dto_nil dto :
  validate dto = true → push_dto validate dto [] = ([mk dto], inr ()).
Proof.
  intros Hv. apply (push_dto_ok validate dto []); [done|..].
  - intros first H0. by rewrite lookup_nil in H0.
  - intros _ q Hq. by apply elem_of_nil in Hq.
  - intros q Hq. by apply elem_of_nil in Hq.
Qed.

(** C7, amended: for a folder with a parent whose own permission is at
    Owner level, passes the schema and is about the folder, when the
    parent is fetched, the copies of its permissions for the folder pass
    the schema, and a permission of the parent that carries the identifier
    of the own permission is for its ARO, [applyPermissionFromParent] with
    [keepOwnership] true or omitted computes the current set made of the
    own permission and a target set with an entry for the ARO of the own
    permission at a level at least that of the own permission.  With the
    parent permissions [{User, u1, Owner}] and the own permission [{User,
    u2, Owner}] the target set is [{User, u1, Owner}; {User, u2,
    Owner}]. *)
Theorem applyPermissionFromParent_keeps_owner
    (folderEntity parentFolder : FolderEntity)
    (keepOwnership : option bool) (parentId : string) :
  let own := permission folderEntity in
  let parentPermissions := folder_permissions parentFolder in
  folderParentId folderEntity = Some parentId → parentId ≠ "" →
  keep_ownership keepOwnership = true →
  get_folder parentId = inr parentFolder →
  reachable validate parentPermissions →
  type own = Owner → validate (props own) = true →
  aco own = ACO_FOLDER → acoForeignKey own = folder_id folderEntity →
  (∀ p, p ∈ parentPermissions →
     validate (props (copyForAnotherAco p ACO_FOLDER (folder_id folderEntity)))
     = true) →
  (∀ p, p ∈ parentPermissions → truthy (id own) = true → id p = id own →
        isAroMatching p own = true) →
  (∃ target,
     applyPermissionFromParent_permissions validate get_folder
       folderEntity keepOwnership = inr (Some ([own], target)) ∧
     ∃ q, q ∈ target ∧ isAroMatching q own = true ∧
          level (type own) ≤ level (type q)) ∧
  applyPermissionFromParent_permissions sample_schema sample_get_folder
    sample_folder (Some true)
  = inr (Some ([entity_on_folder "folder" None "User" "u2" Owner],
               [entity_on_folder "folder" None "User" "u1" Owner;
                entity_on_folder "folder" None "User" "u2" Owner])).
Proof.
  intros own pp Hparent Hne Hkeep Hget [Hpp _]%reachable_invariants
    Howner Hvalid Haco1 Haco2 Hclones Hids.
  split; [|done].
  set (clone := λ p, copyForAnotherAco p ACO_FOLDER (folder_id folderEntity)).
  unfold applyPermissionFromParent_permissions. rewrite Hparent.
  assert (truthy (Some parentId) = true) as ->.
  { simpl. by apply negb_true_iff, bool_decide_eq_false. }
  assert (constructor validate [Entity own] None = inr [own]) as Hcurrent.
  { unfold constructor, bind. simpl. unfold bind.
    unfold PermissionEntity.toDto.
    rewrite (push_dto_nil (props own)), mk_props by done.
    simpl. unfold assertAtLeastOneOwner, bind, permissions. simpl.
    unfold isOwner. by rewrite Howner. }
  fold own. rewrite Hcurrent. simpl.
  assert (cloneParentPermissions validate get_folder ACO_FOLDER
            (folder_id folderEntity) parentId = inr (map clone pp)) as ->.
  { unfold cloneParentPermissions. rewrite Hget.
    change (constructor validate [] (Some false)) with (@inr error items []).
    fold pp. cbv beta iota zeta.
    change (for_of _ pp []) with
      (for_of (λ x, addOrReplace validate (clone x)) pp []).
    rewrite (for_of_map clone (addOrReplace validate)),
      (for_of_addOrReplace_fresh (map clone pp) []); [done| |].
    - intros x (p & -> & Hp)%list_elem_of_fmap. by apply Hclones.
    - by apply invariants_copyForAnotherAco. }
  rewrite Hkeep.
  destruct (addOrReplace_succeeds validate own (map clone pp))
    as [[_ ->]|(i & existing & Hi & Hm & ->)].
  - done.
  - by apply invariants_copyForAnotherAco.
  - intros first H0. rewrite list_lookup_fmap in H0.
    destruct (pp !! 0) as [p|]; [|done]. injection H0 as <-.
    by apply isAcoMatching_true.
  - intros q (p & -> & Hp)%list_elem_of_fmap T E.
    by apply (Hids p Hp T).
  - eexists. split; [done|]. exists own.
    split; [apply elem_of_app; right; left|].
    split; [apply isAroMatching_refl | done].
  - eexists. split; [done|].
    exists (getHighestPermission existing own). split.
    + apply list_elem_of_lookup. exists i.
      apply list_lookup_insert_eq. by eapply lookup_lt_Some.
    + split.
      * eapply isAroMatching_trans;
          [by apply getHighestPermission_aro | done].
      * rewrite getHighestPermission_level. lia.
Qed.

End FolderModelFacts.

Section ObjectsFacts.

Import PermissionEntity PermissionsCollection.

Variable validate : PermissionDto → bool.

Lemma elem_of_insert_cases_ref (ms : list Objects.ref) i x y :
  x ∈ <[i := y]> ms → x = y ∨ x ∈ ms.
Proof.
  intros [j Hj]%list_elem_of_lookup_1. destruct (decide (j = i)) as [->|Hne].
  - destruct (decide (i < length ms)).
    + rewrite list_lookup_insert_eq in Hj by done. left. congruence.
    + rewrite list_insert_ge in Hj by lia. right.
      by eapply list_elem_of_lookup_2.
  - rewrite list_lookup_insert_ne in Hj by done. right.
    by eapply list_elem_of_lookup_2.
Qed.

(** [push] stores a reference to the object it built, which is not the
    object of the caller. *)
Lemma push_stores_copy (st st' : Objects.state) (permission : Objects.ref) :
  Objects.push validate permission st = (st', inr ()) →
  permission < length (Objects.objects st) ∧
  Objects.members st'
  = Objects.members st ++ [length (Objects.objects st)].
Proof.
  unfold Objects.push, bind, Objects.deref, lift, PermissionEntity.new,
    Objects.alloc, Objects.reading, Objects.super_push.
  destruct (Objects.objects st !! permission) as [p|] eqn:Hp; [|done].
  destruct (validate (PermissionEntity.toDto p)); [|done].
  simpl.
  repeat match goal with
  | |- match ?outcome with _ => _ end = _ → _ =>
      destruct outcome as [e|[]]; [done|]
  end.
  intros [= <-]. split; [by eapply lookup_lt_Some | done].
Qed.

Lemma omap_alloc (objs : items) (ms : list Objects.ref) x :
  (∀ r, r ∈ ms → r < length objs) →
  omap ((objs ++ [x]) !!.) ms = omap (objs !!.) ms.
Proof.
  induction ms as [|r ms IH]; intros Hc; [done|]. simpl.
  rewrite lookup_app_l by (apply Hc; left). unfold omap in IH.
  rewrite IH; [done|]. intros r' Hr'. apply Hc. by right.
Qed.

Lemma omap_insert (objs : items) (ms : list Objects.ref) i r x :
  (∀ r, r ∈ ms → r < length objs) → objs !! r = Some x →
  omap (objs !!.) (<[i := r]> ms) = <[i := x]> (omap (objs !!.) ms).
Proof.
  revert i. induction ms as [|r0 ms IH]; intros i Hc Hr; [done|].
  assert (is_Some (objs !! r0)) as [x0 Hx0]
    by (apply lookup_lt_is_Some, Hc; left).
  unfold omap in IH. destruct i as [|i]; simpl.
  - by rewrite Hr, Hx0.
  - rewrite Hx0. simpl. rewrite IH; [done| |done].
    intros r' Hr'. apply Hc. by right.
Qed.

Lemma omap_lookup (objs : items) (ms : list Objects.ref) i :
  (∀ r, r ∈ ms → r < length objs) →
  omap (objs !!.) ms !! i = ms !! i ≫= (objs !!.).
Proof.
  revert i. induction ms as [|r0 ms IH]; intros i Hc; [done|].
  assert (is_Some (objs !! r0)) as [x0 Hx0]
    by (apply lookup_lt_is_Some, Hc; left).
  unfold omap in IH. simpl. rewrite Hx0. destruct i as [|i]; simpl; [done|].
  apply IH. intros r' Hr'. apply Hc. by right.
Qed.

(** [push] on objects is [push] on the values of the members. *)
Lemma push_view (st st' : Objects.state) (permission : Objects.ref) p res :
  Objects.closed st → Objects.objects st !! permission = Some p →
  Objects.push validate permission st = (st', res) →
  push validate (Entity p) (Objects.view st) = (Objects.view st', res) ∧
  Objects.closed st' ∧
  Objects.objects st' !! permission = Some p ∧
  (∀ r x, Objects.objects st !! r = Some x →
          Objects.objects st' !! r = Some x) ∧
  (∀ e, res = inl e → Objects.members st' = Objects.members st).
Proof.
  intros Hc Hp. simpl. rewrite push_dto_run.
  unfold Objects.push, bind, Objects.deref, lift, PermissionEntity.new.
  rewrite Hp. destruct (validate (PermissionEntity.toDto p)).
  2:{ intros [= <- <-]. done. }
  unfold Objects.alloc, Objects.reading. simpl.
  unfold Objects.view. simpl. rewrite omap_alloc by done.
  set (entity := {| props := PermissionEntity.toDto p |}).
  set (c := omap (Objects.objects st !!.) (Objects.members st)).
  assert (∀ r x, Objects.objects st !! r = Some x →
            (Objects.objects st ++ [entity]) !! r = Some x) as Hkeep.
  { intros r x Hr. rewrite lookup_app_l; [done|]. by eapply lookup_lt_Some. }
  assert (∀ r, r ∈ Objects.members st →
            r < length (Objects.objects st ++ [entity])) as Hc'.
  { intros r Hr. rewrite length_app. specialize (Hc r Hr). lia. }
  destruct (assertSameAco entity c).2 as [e|[]].
  { intros [= <- <-]. simpl. rewrite omap_alloc by done.
    split; [done|]. split; [done|]. split; [by apply Hkeep|]. done. }
  destruct (assertUniqueId entity c).2 as [e|[]].
  { intros [= <- <-]. simpl. rewrite omap_alloc by done.
    split; [done|]. split; [done|]. split; [by apply Hkeep|]. done. }
  destruct (assertUniqueAro entity c).2 as [e|[]].
  { intros [= <- <-]. simpl. rewrite omap_alloc by done.
    split; [done|]. split; [done|]. split; [by apply Hkeep|]. done. }
  unfold Objects.super_push. intros [= <- <-]. simpl.
  rewrite omap_app, omap_alloc by done. simpl.
  rewrite list_lookup_middle by done. simpl.
  split; [done|]. split.
  - intros r [Hr|Hr%list_elem_of_singleton]%elem_of_app; simpl in *.
    + by apply Hc'.
    + subst r. rewrite length_app. simpl. lia.
  - split; [by apply Hkeep|]. split; [done|]. done.
Qed.

(** [addOrReplace] on objects is [addOrReplace] on the values of the
    members. *)
Lemma addOrReplace_view (st st' : Objects.state) (permission : Objects.ref)
    p res :
  Objects.closed st → Objects.objects st !! permission = Some p →
  Objects.addOrReplace validate permission st = (st', res) →
  addOrReplace validate p (Objects.view st) = (Objects.view st', res) ∧
  Objects.closed st'.
Proof.
  intros Hc Hp. unfold Objects.addOrReplace, addOrReplace, try_catch.
  destruct (Objects.push validate permission st) as [st1 res1] eqn:Hpush.
  apply (push_view st st1 permission p res1 Hc Hp) in Hpush
    as (-> & Hc1 & Hp1 & Hkeep & Hmem).
  destruct res1 as [e|[]]; [|by intros [= <- <-]].
  destruct (recoverable e); simpl; [|by intros [= <- <-]].
  unfold bind, item_at, Objects.item_at, permissions, ret. simpl.
  unfold Objects.view at 1.
  destruct (error_position e) as [i|]; simpl; [|by intros [= <- <-]].
  rewrite omap_lookup by done.
  destruct (Objects.members st1 !! i) as [r|] eqn:Hi; simpl;
    [|by intros [= <- <-]].
  assert (is_Some (Objects.objects st1 !! r)) as [x Hx].
  { apply lookup_lt_is_Some, Hc1. by eapply list_elem_of_lookup_2. }
  rewrite Hx. unfold Objects.isAcoAndAroMatching, bind, Objects.deref, ret.
  rewrite Hx, Hp1.
  destruct (PermissionEntity.isAcoAndAroMatching x p);
    [|by intros [= <- <-]].
  unfold Objects.getHighestPermission, bind, Objects.deref, ret.
  rewrite Hx, Hp1. unfold Objects.set_item, set_item.
  intros [= <- <-]. unfold Objects.view. simpl.
  unfold PermissionEntity.getHighestPermission.
  destruct (decide (level (type x) < level (type p))).
  - rewrite (omap_insert _ _ i permission p) by done. split; [done|].
    intros r' [->|?]%elem_of_insert_cases_ref; [by eapply lookup_lt_Some|].
    by apply Hc1.
  - rewrite (omap_insert _ _ i r x) by done. split; [done|].
    intros r' [->|?]%elem_of_insert_cases_ref; [by eapply lookup_lt_Some|].
    by apply Hc1.
Qed.

(** In the replace branch, when the entity of the caller has the higher
    level, the member is the object of the caller. *)
Lemma addOrReplace_stores_argument (st st1 : Objects.state)
    (permission existingPermission : Objects.ref) p existing e i :
  Objects.closed st → Objects.objects st !! permission = Some p →
  Objects.push validate permission st = (st1, inl e) →
  recoverable e = true → error_position e = Some i →
  Objects.members st !! i = Some existingPermission →
  Objects.objects st !! existingPermission = Some existing →
  PermissionEntity.isAcoAndAroMatching existing p = true →
  level (type existing) < level (type p) →
  (Objects.addOrReplace validate permission st).2 = inr () ∧
  Objects.members (Objects.addOrReplace validate permission st).1 !! i
  = Some permission.
Proof.
  intros Hc Hp Hpush R Hpos Hi Hx Hm Hlt.
  unfold Objects.addOrReplace, try_catch. rewrite Hpush, R. simpl.
  apply (push_view st st1 permission p (inl e) Hc Hp) in Hpush
    as (_ & _ & Hp1 & Hkeep & Hmem).
  unfold bind, Objects.item_at. rewrite Hpos. simpl.
  rewrite (Hmem e eq_refl), Hi.
  unfold Objects.isAcoAndAroMatching, bind, Objects.deref, ret.
  rewrite (Hkeep _ _ Hx), Hp1, Hm.
  unfold Objects.getHighestPermission, bind, Objects.deref, ret.
  rewrite (Hkeep _ _ Hx), Hp1. simpl.
  destruct (decide (level (type existing) < level (type p))); [|done].
  rewrite (Hmem e eq_refl). split; [done|].
  apply list_lookup_insert_eq. by eapply lookup_lt_Some.
Qed.

(** C8, at the failing input: a collection with the members [{User, u1,
    Read}] and [{User, u2, Read}], and the caller's entity [{User, u1,
    Owner}] as object 2.  After [addOrReplace] the member at position 0 is
    object 2 itself, not a copy; when the caller then overwrites the ARO of
    its entity, the collection has two members for one ARO. *)
Theorem addOrReplace_keeps_caller_object :
  let st :=
    Objects.mkState
      [entity_on_folder "f1" None "User" "u1" Read;
       entity_on_folder "f1" None "User" "u2" Read;
       entity_on_folder "f1" None "User" "u1" Owner] [0; 1] in
  let st1 := (Objects.addOrReplace sample_schema 2 st).1 in
  let st2 :=
    (Objects.assign 2 (on_folder "f1" None "User" "u2" Owner) st1).1 in
  (Objects.addOrReplace sample_schema 2 st).2 = inr () ∧
  Objects.members st1 = [2; 1] ∧
  Objects.view st1 = [entity_on_folder "f1" None "User" "u1" Owner;
                      entity_on_folder "f1" None "User" "u2" Read] ∧
  Objects.view st2 = [entity_on_folder "f1" None "User" "u2" Owner;
                      entity_on_folder "f1" None "User" "u2" Read] ∧
  ¬ unique_aro (Objects.view st2).
Proof.
  do 4 (split; [by vm_compute|]).
  intros Hu. specialize (Hu 0 1 _ _ eq_refl eq_refl eq_refl eq_refl).
  discriminate Hu.
Qed.

End ObjectsFacts.

Section ControllerFacts.

Variable Worker_get : string → nat → Worker.
Variable findAllByResourcesIds : list string → Result (list string).

Lemma progressController_open :
  property (ResourceExportController.progressController Worker_get) "open"
  = None.
Proof. done. Qed.

Lemma progressController_close :
  property (ResourceExportController.progressController Worker_get) "close"
  = None.
Proof. done. Qed.

(** C10, at every input: [exec] calls [progressController.open] and
    [progressController.close], which the progress controller does not
    export.  The first call throws before the resources are requested; the
    error is caught and logged; the call to [close] in the [finally] block
    throws, and that error leaves [exec].  No message is sent to any
    worker, so no progress dialog is closed. *)
Theorem exec_rejects (worker : Worker) (resourcesIds : list string)
    (log : trace) :
  ResourceExportController.exec Worker_get findAllByResourcesIds
    worker resourcesIds log
  = (log ++ [ConsoleError
               (TypeError "progressController.open is not a function")],
     inl (TypeError "progressController.close is not a function")).
Proof.
  unfold ResourceExportController.exec, try_finally, try_catch, bind,
    await, call_property.
  by rewrite progressController_open, progressController_close.
Qed.

End ControllerFacts.

(** * The properties at sample inputs *)

Section SampleRuns.

Import PermissionEntity PermissionsCollection FolderModel.

(** Membership in and lookup into a list that is written out *)
Ltac in_list H :=
  repeat (apply elem_of_cons in H as [->|H]);
  try (by apply elem_of_nil in H).

Ltac at_index i H :=
  repeat (destruct i as [|i]; simpl in H;
          [injection H as <-|]);
  try (by rewrite lookup_nil in H).

Ltac pairwise :=
  let i := fresh "i" in let j := fresh "j" in
  let Hp := fresh "Hp" in let Hq := fresh "Hq" in
  intros i j ? ? Hp Hq; at_index i Hp; at_index j Hq;
  intros; (done || simplify_eq).

Lemma reachable_collection_invariants_witness :
  let c := [entity_on_folder "f1" (Some "i1") "User" "u1" Owner;
            entity_on_folder "f1" (Some "i2") "Group" "g1" Read] in
  reachable sample_schema c ∧ same_aco c ∧ unique_aro c ∧ unique_id c.
Proof.
  intros c.
  assert (reachable sample_schema c) as Hreach.
  { apply (reachable_constructor sample_schema
             [Dto (on_folder "f1" (Some "i1") "User" "u1" Owner);
              Entity (entity_on_folder "f1" (Some "i2") "Group" "g1" Read)]
             None).
    reflexivity. }
  split; [exact Hreach|].
  destruct (reachable_collection_invariants sample_schema c Hreach)
    as (H1 & H2 & H3 & _).
  exact (conj H1 (conj H2 H3)).
Defined.

Lemma addOrReplace_conflict_witness :
  let m0 := entity_on_folder "f1" (Some "i1") "User" "u1" Read in
  let m1 := entity_on_folder "f1" (Some "i2") "Group" "g1" Update in
  let higher := entity_on_folder "f1" None "User" "u1" Owner in
  let tie := entity_on_folder "f1" None "Group" "g1" Update in
  let lower := entity_on_folder "f1" (Some "i2") "Group" "g1" Read in
  let other_aro := entity_on_folder "f1" (Some "i2") "User" "u9" Owner in
  let other_aco := entity_on_folder "f2" None "User" "u1" Owner in
  addOrReplace sample_schema higher [m0; m1] = ([higher; m1], inr ()) ∧
  filter (λ q, isAroMatching q higher = true) [higher; m1] = [higher] ∧
  addOrReplace sample_schema tie [m0; m1] = ([m0; m1], inr ()) ∧
  addOrReplace sample_schema lower [m0; m1] = ([m0; m1], inr ()) ∧
  addOrReplace sample_schema other_aro [m0; m1]
  = ([m0; m1],
     inl (EntityCollectionError 1 RULE_UNIQUE_ID
            "Permission id i2 already exists.")) ∧
  addOrReplace sample_schema other_aco [m0; m1]
  = ([m0; m1],
     inl (EntityCollectionError 0 RULE_SAME_ACO
            "The collection is already composed of this type of ACO: Folder.")).
Proof.
  intros m0 m1 higher tie lower other_aro other_aco.
  assert (invariants [m0; m1]) as Hinv.
  { split; [|split].
    - intros x y Hx Hy. in_list Hx; in_list Hy; done.
    - pairwise.
    - pairwise. }
  assert (∀ p, isAcoMatching p m0 = true → aco_ok p [m0; m1]) as Haco.
  { intros p Hp first [= <-]. exact Hp. }
  destruct (addOrReplace_conflict sample_schema [m0; m1] higher Hinv)
    as (Hhigher & _).
  destruct (Hhigher 0 m0) as (_ & Hrun1 & _ & _ & _ & _ & Hone & _);
    [reflexivity | by apply Haco | reflexivity | reflexivity
    | intros T; discriminate T |].
  destruct (addOrReplace_conflict sample_schema [m0; m1] tie Hinv)
    as (Htie & _).
  destruct (Htie 1 m1) as (_ & Hrun2 & _);
    [reflexivity | by apply Haco | reflexivity | reflexivity
    | intros T; discriminate T |].
  destruct (addOrReplace_conflict sample_schema [m0; m1] lower Hinv)
    as (Hlower & _).
  destruct (Hlower 1 m1) as (_ & Hrun3 & _);
    [reflexivity | by apply Haco | reflexivity | reflexivity | |].
  { intros _ j q Hq E. at_index j Hq; [discriminate E | reflexivity]. }
  destruct (addOrReplace_conflict sample_schema [m0; m1] other_aro Hinv)
    as (_ & Hid & _).
  destruct (Hid 1 m1) as [_ Hrun4];
    [reflexivity | by apply Haco | reflexivity..|].
  destruct (addOrReplace_conflict sample_schema [m0; m1] other_aco Hinv)
    as (_ & _ & Haco' & _).
  destruct (Haco' m0) as [_ Hrun5]; [reflexivity..|].
  exact (conj Hrun1 (conj Hone (conj Hrun2 (conj Hrun3
           (conj Hrun4 Hrun5))))).
Defined.

Lemma push_validation_order_witness :
  let existing := entity_on_folder "f1" (Some "i1") "User" "u1" Read in
  let dto := on_folder "f1" (Some "i1") "User" "u1" Owner in
  ∃ i msg, push sample_schema (Dto dto) [existing]
           = ([existing], inl (EntityCollectionError i RULE_UNIQUE_ID msg)).
Proof.
  intros existing dto.
  destruct (push_validation_order sample_schema [existing] (Dto dto) dto)
    as (_ & _ & _ & _ & Hboth); [reflexivity..|].
  apply (Hboth) with (q1 := existing) (q2 := existing).
  - intros first [= <-]. reflexivity.
  - reflexivity.
  - left.
  - reflexivity.
  - left.
  - reflexivity.
Defined.

Lemma push_failure_leaves_members_witness :
  let c := [entity_on_folder "f1" None "User" "u1" Owner] in
  (push sample_schema (Dto (on_folder "f2" None "User" "u2" Read)) c).1 = c.
Proof.
  intros c.
  apply (push_failure_leaves_members sample_schema c _
           (EntityCollectionError 0 RULE_SAME_ACO
              "The collection is already composed of this type of ACO: Folder.")).
  reflexivity.
Defined.

Lemma constructor_preserves_order_counterexample :
  let records := [on_folder "f1" None "User" "u1" Owner;
                  on_folder "f2" None "User" "u2" Read] in
  let shared_id := [on_folder "f1" (Some "i1") "User" "u1" Owner;
                    on_folder "f1" (Some "i1") "User" "u2" Read] in
  (records ≠ [] ∧
   (∀ dto, dto ∈ records → sample_schema dto = true) ∧
   (∃ dto, dto ∈ records ∧ dto_type dto = Owner) ∧
   unique_aro (map PermissionEntity.mk records) ∧
   constructor sample_schema (map Dto records) None
   = inl (EntityCollectionError 0 RULE_SAME_ACO
            "The collection is already composed of this type of ACO: Folder.")) ∧
  (shared_id ≠ [] ∧
   (∀ dto, dto ∈ shared_id → sample_schema dto = true) ∧
   (∃ dto, dto ∈ shared_id ∧ dto_type dto = Owner) ∧
   unique_aro (map PermissionEntity.mk shared_id) ∧
   constructor sample_schema (map Dto shared_id) None
   = inl (EntityCollectionError 0 RULE_UNIQUE_ID
            "Permission id i1 already exists.")).
Proof.
  intros records shared_id. split.
  - split; [done|]. split; [intros dto H; by in_list H|].
    split; [eexists; split; [left | done]|].
    split; [pairwise | reflexivity].
  - split; [done|]. split; [intros dto H; by in_list H|].
    split; [eexists; split; [left | done]|].
    split; [pairwise | reflexivity].
Qed.

Lemma constructor_preserves_order_witness :
  let records := [on_folder "f1" None "User" "u1" Read;
                  on_folder "f1" (Some "i2") "Group" "g1" Owner] in
  constructor sample_schema (map Dto records) None
  = inr (map PermissionEntity.mk records).
Proof.
  intros records.
  apply (constructor_preserves_order sample_schema records None).
  - intros dto H. by in_list H.
  - exists (on_folder "f1" (Some "i2") "Group" "g1" Owner).
    split; [right; left | reflexivity].
  - pairwise.
  - intros x y Hx Hy. simpl in Hx, Hy. in_list Hx; in_list Hy; done.
  - pairwise.
Defined.

Lemma constructor_without_owner_counterexample :
  let l := [Dto (on_folder "f1" None "User" "u1" Read);
            Dto (on_folder "f1" None "User" "u1" Update)] in
  (∀ v dto, v ∈ l → value_dto v = Some dto → dto_type dto ≠ Owner) ∧
  constructor sample_schema l None
  = inl (EntityCollectionError 0 RULE_UNIQUE_ARO
           "User id u1 already exists in the permission list.") ∧
  constructor sample_schema l None
  ≠ inl (EntityCollectionError 0 RULE_ONE_OWNER
           "Permission collection should contain at least one owner.").
Proof.
  intros l. split; [|split; [reflexivity | done]].
  intros v dto Hv. in_list Hv; by intros [= <-].
Qed.

Lemma constructor_without_owner_witness :
  let l := [Dto (on_folder "f1" None "User" "u1" Read);
            Dto (on_folder "f1" None "User" "u2" Update)] in
  constructor sample_schema l None
  = inl (EntityCollectionError 0 RULE_ONE_OWNER
           "Permission collection should contain at least one owner.").
Proof.
  intros l.
  destruct (constructor_without_owner sample_schema l None) as (Hok & _).
  - reflexivity.
  - intros v dto Hv. in_list Hv; by intros [= <-].
  - apply (Hok [entity_on_folder "f1" None "User" "u1" Read;
                entity_on_folder "f1" None "User" "u2" Update]).
    reflexivity.
Defined.

Lemma unionByAcoAndType_subset_counterexample :
  let A := [entity_on_folder "f1" None "User" "u1" Owner] in
  let other_aco := [entity_on_folder "f2" None "User" "u1" Read] in
  let no_owner := [entity_on_folder "f1" None "User" "u1" Read] in
  let A2 := [entity_on_folder "f1" (Some "i1") "User" "u1" Owner;
             entity_on_folder "f1" (Some "i2") "User" "u2" Read] in
  let other_id := [entity_on_folder "f1" (Some "i2") "User" "u1" Read] in
  (reachable sample_schema A ∧ reachable sample_schema other_aco ∧
   (∀ b, b ∈ other_aco → ∃ a, a ∈ A ∧ isAroMatching a b = true) ∧
   unionByAcoAndType sample_schema A other_aco None
   = inl (EntityCollectionError 0 RULE_SAME_ACO
            "The collection is already composed of this type of ACO: Folder.")) ∧
  (reachable sample_schema no_owner ∧
   (∀ b, b ∈ no_owner → ∃ a, a ∈ no_owner ∧ isAroMatching a b = true) ∧
   unionByAcoAndType sample_schema no_owner no_owner None
   = inl (EntityCollectionError 0 RULE_ONE_OWNER
            "Permission collection should contain at least one owner.")) ∧
  (reachable sample_schema A2 ∧ reachable sample_schema other_id ∧
   (∀ b, b ∈ other_id → ∃ a, a ∈ A2 ∧ isAroMatching a b = true) ∧
   unionByAcoAndType sample_schema A2 other_id None
   = inl (EntityCollectionError 1 RULE_UNIQUE_ID
            "Permission id i2 already exists.")).
Proof.
  intros A other_aco no_owner A2 other_id.
  assert (∀ c, constructor sample_schema (map Dto (toDto c)) (Some false)
               = inr c → reachable sample_schema c) as Hreach.
  { intros c Hc. by eapply reachable_constructor. }
  split; [|split].
  - split; [by apply Hreach|]. split; [by apply Hreach|].
    split; [|reflexivity].
    intros b Hb. in_list Hb. eexists. split; [left | reflexivity].
  - split; [by apply Hreach|]. split; [|reflexivity].
    intros b Hb. in_list Hb. eexists. split; [left | reflexivity].
  - split; [by apply Hreach|]. split; [by apply Hreach|].
    split; [|reflexivity].
    intros b Hb. in_list Hb. eexists. split; [left | reflexivity].
Qed.

Lemma unionByAcoAndType_subset_witness :
  let A := [entity_on_folder "f1" (Some "i1") "User" "u1" Read;
            entity_on_folder "f1" (Some "i2") "Group" "g1" Owner] in
  let B := [entity_on_folder "f1" None "User" "u1" Update] in
  ∃ R, unionByAcoAndType sample_schema A B None = inr R ∧
    length R = 2 ∧
    unionByAcoAndType sample_schema R B None = inr R.
Proof.
  intros A B.
  destruct (unionByAcoAndType_subset sample_schema A B None)
    as (R & Hrun & Hlen & _ & Hagain).
  - apply (reachable_constructor sample_schema (map Dto (toDto A)) None).
    reflexivity.
  - apply (reachable_constructor sample_schema (map Dto (toDto B))
             (Some false)).
    reflexivity.
  - intros b Hb. in_list Hb. eexists. split; [left | reflexivity].
  - intros a b Ha Hb. in_list Hb. in_list Ha; reflexivity.
  - intros a b Ha Hb. in_list Hb. discriminate.
  - reflexivity.
  - exists R. exact (conj Hrun (conj Hlen Hagain)).
Defined.

Lemma applyPermissionFromParent_keeps_owner_counterexample :
  let folder :=
    mkFolderEntity "folder" (Some "parent")
      (entity_on_folder "folder" None "User" "u2" Update) [] in
  folderParentId folder = Some "parent" ∧
  applyPermissionFromParent_permissions sample_schema sample_get_folder
    folder None
  = inl (EntityCollectionError 0 RULE_ONE_OWNER
           "Permission collection should contain at least one owner.").
Proof. split; reflexivity. Qed.

Lemma applyPermissionFromParent_keeps_owner_witness :
  let own := permission sample_folder in
  ∃ target,
    applyPermissionFromParent_permissions sample_schema sample_get_folder
      sample_folder None = inr (Some ([own], target)) ∧
    ∃ q, q ∈ target ∧ isAroMatching q own = true ∧
         level (type own) ≤ level (type q).
Proof.
  intros own.
  destruct (applyPermissionFromParent_keeps_owner sample_schema
              sample_get_folder sample_folder sample_parent None "parent")
    as [H _].
  - reflexivity.
  - discriminate.
  - reflexivity.
  - reflexivity.
  - apply (reachable_constructor sample_schema
             (map Dto (toDto (folder_permissions sample_parent))) None).
    reflexivity.
  - reflexivity.
  - reflexivity.
  - reflexivity.
  - reflexivity.
  - intros p Hp. simpl in Hp. in_list Hp. reflexivity.
  - intros p Hp. discriminate.
  - exact H.
Defined.

End SampleRuns.


(** * Further properties of the collection *)

Section LookupFacts.

Import PermissionEntity PermissionsCollection.

Variable validate : PermissionDto → bool.

Lemma isAcoAndAroMatching_refl p : isAcoAndAroMatching p p = true.
Proof.
  apply isAcoAndAroMatching_true. split; [apply isAroMatching_refl|].
  by apply isAcoMatching_true.
Qed.

Lemma getHighestPermission_matching existing p :
  isAcoAndAroMatching existing p = true →
  isAcoAndAroMatching (getHighestPermission existing p) existing = true.
Proof.
  intros Hm. destruct (getHighestPermission_cases existing p) as [[_ ->]|[_ ->]].
  - apply isAcoAndAroMatching_true in Hm as [H1 H2].
    apply isAcoAndAroMatching_true.
    by rewrite isAroMatching_sym, isAcoMatching_sym.
  - apply isAcoAndAroMatching_refl.
Qed.

(** X1: [findByAro] returns [undefined] exactly when no member has the
    (ARO type, ARO id) of the permission it is given; otherwise it returns
    the first member that has it. *)
Theorem findByAro_first (c : items) (p : PermissionEntity.t) :
  (findByAro c p = None ↔ ∀ q, q ∈ c → isAroMatching q p = false) ∧
  (∀ q, findByAro c p = Some q →
     ∃ i, c !! i = Some q ∧ isAroMatching q p = true ∧
          ∀ j q', c !! j = Some q' → j < i → isAroMatching q' p = false).
Proof.
  split; [apply findByAro_None|].
  induction c as [|x c IH]; intros q; [done|].
  rewrite findByAro_cons. destruct (isAroMatching x p) eqn:E.
  - intros [= <-]. exists 0. do 2 (split; [done|]). intros j q' _ Hj. lia.
  - intros (i & Hi & Hm & Hfirst)%IH. exists (S i). do 2 (split; [done|]).
    intros [|j] q' Hq' Hj; simpl in Hq'.
    + by injection Hq' as <-.
    + apply (Hfirst j); [done | lia].
Qed.

(** X2: when [push] returns, the collection is the one before with the
    entity of the value as its new last member; no member had the ARO of
    that entity before, and [findByAro] now finds it. *)
Theorem push_then_findByAro (c c' : items) (v : value) :
  push validate v c = (c', inr ()) →
  ∃ p, value_dto v = Some (props p) ∧ validate (props p) = true ∧
       c' = c ++ [p] ∧ findByAro c p = None ∧ findByAro c' p = Some p.
Proof.
  intros Hpush.
  destruct (push_state_cases validate v c)
    as [Hs|(dto & Hv & Hvalid & _ & _ & Haro & Hrun)].
  - rewrite Hpush in Hs. simpl in Hs. subst c'.
    destruct v as [|dto|p]; simpl in Hpush; [done|..].
    + apply push_dto_inv_ok in Hpush as (_ & _ & _ & _ & Hc).
      apply (f_equal length) in Hc. rewrite length_app in Hc. simpl in Hc. lia.
    + apply push_dto_inv_ok in Hpush as (_ & _ & _ & _ & Hc).
      apply (f_equal length) in Hc. rewrite length_app in Hc. simpl in Hc. lia.
  - rewrite Hrun in Hpush. injection Hpush as <-.
    exists (mk dto). do 3 (split; [done|]).
    assert (findByAro c (mk dto) = None) as Hnone.
    { apply findByAro_None. intros q Hq.
      rewrite isAroMatching_sym. by apply Haro. }
    split; [done|]. unfold findByAro in *. rewrite filter_app.
    destruct (filter _ c); [|done]. simpl.
    rewrite filter_cons_True by apply isAroMatching_refl. done.
Qed.

Lemma addOrReplace_extends (c : items) (p : PermissionEntity.t) :
  never_lowered c (addOrReplace validate p c).1 ∧
  length c ≤ length (addOrReplace validate p c).1 ≤ S (length c).
Proof.
  assert (never_lowered c c) as Hsame.
  { intros i q Hq. exists q. split; [done|].
    split; [apply isAcoAndAroMatching_refl | done]. }
  destruct (addOrReplace validate p c) as [c' r] eqn:E.
  apply addOrReplace_inv in E
    as [(_ & _ & _ & _ & _ & ->)
       |[(e & i0 & existing & _ & _ & _ & Hi0 & Hm & -> & _)
        |(e & _ & -> & _)]]; simpl.
  - split; [|rewrite length_app; simpl; lia].
    intros i q Hq. exists q. split.
    + rewrite lookup_app_l; [done|]. by eapply lookup_lt_Some.
    + split; [apply isAcoAndAroMatching_refl | done].
  - split; [|rewrite length_insert; lia].
    intros i q Hq. destruct (decide (i = i0)) as [->|Hne].
    + assert (q = existing) as -> by congruence.
      exists (getHighestPermission existing p). split.
      * apply list_lookup_insert_eq. by eapply lookup_lt_Some.
      * split; [by apply getHighestPermission_matching|].
        rewrite getHighestPermission_level. lia.
    + exists q. split; [by rewrite list_lookup_insert_ne|].
      split; [apply isAcoAndAroMatching_refl | done].
  - split; [done | lia].
Qed.

(** X3: whatever [addOrReplace] is given and however it ends, it removes
    no member and lowers no level: every member is still at its position,
    about the same ACO and ARO, at the same level or a higher one, and at
    most one member is added. *)
Theorem addOrReplace_never_lowers (c : items) (p : PermissionEntity.t) :
  let c' := (addOrReplace validate p c).1 in
  never_lowered c c' ∧ length c ≤ length c' ≤ S (length c).
Proof. intros c'. apply addOrReplace_extends. Qed.

(** X4: when [addOrReplace] throws, the members are the members before the
    call and the error is the one that [push] threw for the entity. *)
Theorem addOrReplace_failure_leaves_members (c : items)
    (p : PermissionEntity.t) (e : error) :
  (addOrReplace validate p c).2 = inl e →
  (addOrReplace validate p c).1 = c ∧
  push validate (Entity p) c = (c, inl e).
Proof.
  destruct (addOrReplace validate p c) as [c' r] eqn:E. simpl. intros ->.
  apply addOrReplace_inv in E
    as [(? & _)|[(? & ? & ? & _ & _ & _ & _ & _ & _ & ?)
                |(e' & Hpush & -> & He & _)]]; try done.
  by injection He as <-.
Qed.

(** X5: on a collection with the invariants, when [addOrReplace] returns,
    [findByAro] finds for the ARO of the entity a member at the level of the
    entity or above, which is the entity or a member from before. *)
Theorem addOrReplace_then_findByAro (c c' : items) (p : PermissionEntity.t) :
  invariants c →
  addOrReplace validate p c = (c', inr ()) →
  ∃ q, findByAro c' p = Some q ∧ level (type p) ≤ level (type q) ∧
       (q = p ∨ q ∈ c).
Proof.
  intros Hinv Hrun.
  pose proof (addOrReplace_invariants validate p c Hinv) as Hinv'.
  rewrite Hrun in Hinv'. simpl in Hinv'. destruct Hinv' as (_ & Haro' & _).
  apply addOrReplace_inv in Hrun
    as [(_ & _ & _ & _ & _ & ->)
       |[(e & i & existing & _ & _ & _ & Hi & Hm & -> & _)
        |(e & _ & _ & ? & _)]]; [| |done].
  - exists p. unfold findByAro.
    rewrite (filter_unique_aro (c ++ [p]) (length c) p p Haro');
      [by auto| |apply isAroMatching_refl].
    by rewrite list_lookup_middle.
  - exists (getHighestPermission existing p). unfold findByAro.
    apply isAcoAndAroMatching_true in Hm as [Hm _].
    rewrite (filter_unique_aro _ i (getHighestPermission existing p) p Haro').
    + split; [done|]. split; [rewrite getHighestPermission_level; lia|].
      destruct (getHighestPermission_cases existing p) as [[_ ->]|[_ ->]];
        [by left | right; by eapply list_elem_of_lookup_2].
    + apply list_lookup_insert_eq. by eapply lookup_lt_Some.
    + eapply isAroMatching_trans; [by apply getHighestPermission_aro | done].
Qed.

End LookupFacts.

Section IdempotenceFacts.

Import PermissionEntity PermissionsCollection.

Variable validate : PermissionDto → bool.

Lemma push_dto_unique_id dto (c : items) i q :
  validate dto = true → aco_ok (mk dto) c → truthy (id (mk dto)) = true →
  c !! i = Some q → same_id (mk dto) q = true →
  (∀ j q', c !! j = Some q' → j < i → same_id (mk dto) q' = false) →
  push_dto validate dto c =
    (c, inl (EntityCollectionError i RULE_UNIQUE_ID
               ("Permission id " +:+ default "" (id (mk dto))
                  +:+ " already exists."))).
Proof.
  intros Hv Ha%assertSameAco_ok T Hq Hs Hfirst.
  by rewrite push_dto_run, Hv, Ha, (assertUniqueId_throws (mk dto) c i q).
Qed.

Lemma push_dto_unique_aro dto (c : items) i q :
  validate dto = true → aco_ok (mk dto) c → id_ok (mk dto) c →
  c !! i = Some q → isAroMatching (mk dto) q = true →
  (∀ j q', c !! j = Some q' → j < i → isAroMatching (mk dto) q' = false) →
  push_dto validate dto c =
    (c, inl (EntityCollectionError i RULE_UNIQUE_ARO
               (aro (mk dto) +:+ " id " +:+ aroForeignKey (mk dto)
                  +:+ " already exists in the permission list."))).
Proof.
  intros Hv Ha%assertSameAco_ok Hi%assertUniqueId_ok Hq Hs Hfirst.
  by rewrite push_dto_run, Hv, Ha, Hi, (assertUniqueAro_throws (mk dto) c i q).
Qed.

(** The entity itself is at [i], and no member before [i] carries its
    identifier or, when it has none, its ARO: [addOrReplace] of the entity
    leaves the collection as it is. *)
Lemma addOrReplace_present (c : items) p i :
  validate (props p) = true → aco_ok p c → c !! i = Some p →
  (truthy (id p) = true →
   ∀ j q', c !! j = Some q' → j < i → same_id p q' = false) →
  (truthy (id p) = false →
   ∀ j q', c !! j = Some q' → j < i → isAroMatching p q' = false) →
  addOrReplace validate p c = (c, inr ()).
Proof.
  intros Hv Ha Hi Hid Haro.
  assert (∃ e, push_dto validate (props p) c = (c, inl e) ∧
               recoverable e = true ∧ error_position e = Some i)
    as (e & Hpush & R & Hpos).
  { rewrite <- (mk_props p) in Ha, Hid, Haro.
    destruct (truthy (id p)) eqn:T.
    - eexists. split.
      { apply (push_dto_unique_id (props p) c i p); try done.
        + rewrite mk_props. by apply same_id_true.
        + by apply Hid. }
      done.
    - eexists. split.
      { apply (push_dto_unique_aro (props p) c i p); try done.
        + intros T'. rewrite mk_props in T'. congruence.
        + rewrite mk_props. apply isAroMatching_refl.
        + by apply Haro. }
      done. }
  unfold addOrReplace, try_catch. simpl. unfold PermissionEntity.toDto.
  rewrite Hpush, R. simpl.
  unfold bind, item_at, permissions, ret. rewrite Hpos. simpl.
  rewrite Hi, isAcoAndAroMatching_refl. unfold set_item.
  unfold getHighestPermission.
  destruct (decide _); by rewrite list_insert_id.
Qed.

(** X6: [addOrReplace] is idempotent: when it returns, the same call on
    the collection it left returns and leaves that collection as it is. *)
Theorem addOrReplace_idempotent (c c' : items) (p : PermissionEntity.t) :
  addOrReplace validate p c = (c', inr ()) →
  addOrReplace validate p c' = (c', inr ()).
Proof.
  intros Hrun. pose proof Hrun as Hcases.
  apply addOrReplace_inv in Hcases
    as [(_ & Hv & Ha & Hid & Haro & ->)
       |[(e & i & existing & Hpush & R & Hpos & Hi & Hm & -> & _)
        |(e & _ & _ & ? & _)]]; [| |done].
  - apply (addOrReplace_present _ p (length c)); try done.
    + intros first H0. destruct c as [|x c]; simpl in H0.
      * injection H0 as <-. by apply isAcoMatching_true.
      * by apply Ha.
    + by rewrite list_lookup_middle.
    + intros T j q' Hq' Hj. rewrite lookup_app_l in Hq' by done.
      apply Hid; [done|]. by eapply list_elem_of_lookup_2.
    + intros _ j q' Hq' Hj. rewrite lookup_app_l in Hq' by done.
      apply Haro. by eapply list_elem_of_lookup_2.
  - destruct (getHighestPermission_cases existing p) as [[_ Hk]|[_ Hk]];
      rewrite Hk in *.
    2:{ rewrite list_insert_id in * by done. done. }
    simpl in Hpush.
    apply push_dto_conflict in Hpush
      as (_ & Hv & Ha & i' & existing' & Hpos' & Hi' & H); [|done].
    unfold PermissionEntity.toDto in *. rewrite mk_props in *.
    assert (i' = i) as -> by congruence.
    assert (existing' = existing) as -> by congruence.
    assert (i < length c) as Hlt by (by eapply lookup_lt_Some).
    apply (addOrReplace_present _ p i); try done.
    + intros first H0. destruct i as [|i].
      * rewrite list_lookup_insert_eq in H0 by done.
        injection H0 as <-. by apply isAcoMatching_true.
      * rewrite list_lookup_insert_ne in H0 by done. by apply Ha.
    + by apply list_lookup_insert_eq.
    + intros T j q' Hq' Hj. rewrite list_lookup_insert_ne in Hq' by lia.
      destruct H as [(_ & _ & Hfirst)|(_ & Hok & _)].
      * specialize (Hfirst j q' Hq' Hj). by destruct (same_id p q').
      * apply Hok; [done|]. by eapply list_elem_of_lookup_2.
    + intros T j q' Hq' Hj. rewrite list_lookup_insert_ne in Hq' by lia.
      destruct H as [(_ & [T' E']%same_id_true & _)|(_ & _ & _ & Hfirst)].
      * exfalso. assert (truthy (id p) = true) by congruence. congruence.
      * specialize (Hfirst j q' Hq' Hj). by destruct (isAroMatching p q').
Qed.

End IdempotenceFacts.

Section FoldFacts.

Import PermissionEntity PermissionsCollection.

Variable validate : PermissionDto → bool.

Lemma never_lowered_refl (c : items) : never_lowered c c.
Proof.
  intros i q Hq. exists q. split; [done|].
  split; [apply isAcoAndAroMatching_refl | done].
Qed.

Lemma isAcoAndAroMatching_trans a b c :
  isAcoAndAroMatching a b = true → isAcoAndAroMatching b c = true →
  isAcoAndAroMatching a c = true.
Proof.
  rewrite !isAcoAndAroMatching_true. intros [??] [??].
  split; [by eapply isAroMatching_trans | by eapply isAcoMatching_trans].
Qed.

Lemma never_lowered_trans (c1 c2 c3 : items) :
  never_lowered c1 c2 → never_lowered c2 c3 → never_lowered c1 c3.
Proof.
  intros H12 H23 i q Hq.
  destruct (H12 i q Hq) as (q2 & Hq2 & Hm2 & Hl2).
  destruct (H23 i q2 Hq2) as (q3 & Hq3 & Hm3 & Hl3).
  exists q3. split; [done|].
  split; [by eapply isAcoAndAroMatching_trans | lia].
Qed.

Lemma granted_never_lowered p (c c' : items) :
  granted p c → never_lowered c c' → granted p c'.
Proof.
  intros (q & [i Hi]%list_elem_of_lookup_1 & Hm & Hl) Hcc'.
  destruct (Hcc' i q Hi) as (q' & Hq' & [Hm' _]%isAcoAndAroMatching_true & Hl').
  exists q'. split; [by eapply list_elem_of_lookup_2|].
  split; [by eapply isAroMatching_trans | lia].
Qed.

(** When [addOrReplace] returns, the collection has an entry for the ARO of
    the entity at its level or above. *)
Lemma addOrReplace_granted (c c' : items) p :
  addOrReplace validate p c = (c', inr ()) → granted p c'.
Proof.
  intros [(_ & _ & _ & _ & _ & ->)
         |[(e & i & existing & _ & _ & _ & Hi & Hm & -> & _)
          |(e & _ & _ & ? & _)]]%addOrReplace_inv; [| |done].
  - exists p. split; [apply elem_of_app; right; left|].
    split; [apply isAroMatching_refl | done].
  - exists (getHighestPermission existing p). split.
    + apply list_elem_of_lookup. exists i.
      apply list_lookup_insert_eq. by eapply lookup_lt_Some.
    + apply isAcoAndAroMatching_true in Hm as [Hm _]. split.
      * eapply isAroMatching_trans; [by apply getHighestPermission_aro|done].
      * rewrite getHighestPermission_level. lia.
Qed.

Lemma addOrReplace_members (c : items) p q :
  q ∈ (addOrReplace validate p c).1 → q ∈ c ∨ q = p.
Proof.
  destruct (addOrReplace validate p c) as [c' r] eqn:E. simpl.
  apply addOrReplace_inv in E
    as [(_ & _ & _ & _ & _ & ->)
       |[(e & i & existing & _ & _ & _ & Hi & Hm & -> & _)
        |(e & _ & -> & _)]].
  - intros [?|Hq%list_elem_of_singleton]%elem_of_app; [by left | by right].
  - intros [->|?]%elem_of_insert_cases; [|by left].
    destruct (getHighestPermission_cases existing p) as [[_ ->]|[_ ->]];
      [by right | left; by eapply list_elem_of_lookup_2].
  - by left.
Qed.

(** A loop of [addOrReplace], however it ends *)
Lemma for_of_addOrReplace_extends (ps c : items) :
  never_lowered c (for_of (addOrReplace validate) ps c).1 ∧
  length c ≤ length (for_of (addOrReplace validate) ps c).1
           ≤ length c + length ps ∧
  ∀ q, q ∈ (for_of (addOrReplace validate) ps c).1 → q ∈ c ∨ q ∈ ps.
Proof.
  revert c. induction ps as [|p ps IH]; intros c; simpl.
  { split; [apply never_lowered_refl|]. split; [lia|]. by left. }
  unfold bind.
  destruct (addOrReplace_extends validate c p) as [Hext Hlen].
  pose proof (addOrReplace_members c p) as Hmem.
  destruct (addOrReplace validate p c) as [c1 [e|[]]]; simpl in *.
  - split; [done|]. split; [lia|].
    intros q [?| ->]%Hmem; [by left | right; left].
  - destruct (IH c1) as (Hext' & Hlen' & Hmem').
    split; [by eapply never_lowered_trans|]. split; [lia|].
    intros q [[?| ->]%Hmem|?]%Hmem'; [by left | right; left | right; by right].
Qed.

(** A loop of [addOrReplace] that runs to its end *)
Lemma for_of_addOrReplace_granted (ps c c' : items) :
  for_of (addOrReplace validate) ps c = (c', inr ()) →
  ∀ p, p ∈ ps → granted p c'.
Proof.
  revert c. induction ps as [|p ps IH]; intros c Hrun q Hq;
    [by apply elem_of_nil in Hq|].
  simpl in Hrun. unfold bind in Hrun.
  destruct (addOrReplace validate p c) as [c1 [e|[]]] eqn:Hstep; [done|].
  apply elem_of_cons in Hq as [->|Hq]; [|by eapply IH].
  apply addOrReplace_granted in Hstep.
  eapply granted_never_lowered; [done|].
  pose proof (for_of_addOrReplace_extends ps c1) as [H _].
  by rewrite Hrun in H.
Qed.

(** A loop of [push] that runs to its end appends the entities of the
    values in order. *)
Lemma for_of_push_Forall2 (l : list value) (c c' : items) :
  for_of (push validate) l c = (c', inr ()) →
  ∃ ps, c' = c ++ ps ∧
        Forall2 (λ v p, value_dto v = Some (props p)) l ps ∧
        all_valid validate ps.
Proof.
  revert c. induction l as [|v l IH]; intros c; simpl.
  - intros [= <-]. exists []. rewrite app_nil_r. split; [done|].
    split; [constructor|]. intros p Hp. by apply elem_of_nil in Hp.
  - unfold bind. destruct (push validate v c) as [c1 [e|[]]] eqn:Hpush; [done|].
    intros (ps & -> & Hl & Hvalid)%IH.
    destruct (push_state_cases validate v c)
      as [Hs|(dto & Hv & Hok & _ & _ & _ & Hrun)].
    + exfalso. rewrite Hpush in Hs. simpl in Hs. subst c1.
      destruct v as [|dto|p]; simpl in Hpush; [done|..];
        apply push_dto_inv_ok in Hpush as (_ & _ & _ & _ & Hc);
        apply (f_equal length) in Hc; rewrite length_app in Hc;
        simpl in Hc; lia.
    + rewrite Hrun in Hpush. injection Hpush as <-.
      exists (mk dto :: ps). split; [by rewrite <- app_assoc|].
      split; [by constructor|].
      intros p [->|Hp]%elem_of_cons; [done | by apply Hvalid].
Qed.

Lemma Forall2_toDto_inv (c ps : items) :
  Forall2 (λ v p, value_dto v = Some (props p)) (map Dto (toDto c)) ps →
  ps = c.
Proof.
  revert ps. induction c as [|x c IH]; intros ps H; inversion H; subst.
  - done.
  - f_equal; [|by apply IH]. simpl in *.
    destruct x, y. simpl in *. congruence.
Qed.

(** X7: when the constructor returns, the members are the entities of the
    values it was given, one per value and in their order, each passes the
    schema, and, unless owner validation was disabled, one of them is at
    Owner level. *)
Theorem constructor_members (l : list value) (ownerValidation : option bool)
    (c : items) :
  constructor validate l ownerValidation = inr c →
  Forall2 (λ v p, value_dto v = Some (props p)) l c ∧
  all_valid validate c ∧
  (owner_validation_enabled ownerValidation = true →
   ∃ p, p ∈ c ∧ type p = Owner).
Proof.
  intros [Hpush Howner]%constructor_inv.
  apply for_of_push_Forall2 in Hpush as (ps & -> & Hl & Hvalid).
  simpl in *. do 2 (split; [done|]).
  intros Hov. by apply found_owner_true, Howner.
Qed.

(** X8: a reachable collection is rebuilt from its records: the
    constructor on [toDto()] with owner validation disabled returns the
    collection; with owner validation it returns the collection when a
    member is at Owner level and fails with ONE_OWNER otherwise. *)
Theorem toDto_constructor_round_trip (c : items) :
  reachable validate c →
  constructor validate (map Dto (toDto c)) (Some false) = inr c ∧
  ((∃ p, p ∈ c ∧ type p = Owner) →
   constructor validate (map Dto (toDto c)) None = inr c) ∧
  ((∀ p, p ∈ c → type p ≠ Owner) →
   constructor validate (map Dto (toDto c)) None =
     inl (EntityCollectionError 0 RULE_ONE_OWNER
            "Permission collection should contain at least one owner.")).
Proof.
  intros [Hinv Hvalid]%reachable_invariants.
  pose proof (constructor_toDto validate c Hinv Hvalid) as Hseed.
  split; [done|].
  apply constructor_inv in Hseed as [Hpush _].
  unfold constructor, bind. rewrite Hpush. simpl.
  unfold assertAtLeastOneOwner, bind, permissions. simpl. split.
  - intros Ho%found_owner_true. by rewrite Ho.
  - intros Ho%found_owner_false. by rewrite Ho.
Qed.

(** X9: the empty collection is neutral for [unionByAcoAndType] on both
    sides: for a reachable collection that has an Owner-level member, or
    with owner validation disabled, the union with the empty collection is
    the collection. *)
Theorem unionByAcoAndType_empty (c : items) (ownerValidation : option bool) :
  reachable validate c →
  (owner_validation_enabled ownerValidation = true →
   ∃ p, p ∈ c ∧ type p = Owner) →
  unionByAcoAndType validate c [] ownerValidation = inr c ∧
  unionByAcoAndType validate [] c ownerValidation = inr c.
Proof.
  intros [Hinv Hvalid]%reachable_invariants Howner.
  assert (owner_validation_enabled ownerValidation = true →
          assertAtLeastOneOwner c = (c, inr ())) as Hcheck.
  { intros Hov. unfold assertAtLeastOneOwner, bind, permissions. simpl.
    assert (found_owner c = true) as -> by (by apply found_owner_true, Howner).
    done. }
  split.
  - unfold unionByAcoAndType. rewrite constructor_toDto by done.
    unfold bind. simpl. unfold ret at 1.
    destruct (owner_validation_enabled ownerValidation); [|done].
    by rewrite Hcheck.
  - unfold unionByAcoAndType.
    change (constructor validate (map Dto (toDto [])) (Some false))
      with (@inr error items []).
    unfold bind. rewrite (for_of_addOrReplace_fresh validate c []) by done.
    simpl. destruct (owner_validation_enabled ownerValidation); [|done].
    by rewrite Hcheck.
Qed.

(** X10: when [unionByAcoAndType] returns, no permission of either set is
    lost or lowered: every member of the first set is at its position in
    the result, about the same ACO and ARO and at its level or above; every
    member of the second set has an entry for its ARO at its level or above;
    every member of the result is a member of one of the two sets; the
    result has at least as many members as the first set and at most as
    many as the two together. *)
Theorem unionByAcoAndType_keeps_both (set1 set2 : items)
    (ownerValidation : option bool) (c : items) :
  unionByAcoAndType validate set1 set2 ownerValidation = inr c →
  never_lowered set1 c ∧
  (∀ p, p ∈ set2 → granted p c) ∧
  (∀ q, q ∈ c → q ∈ set1 ∨ q ∈ set2) ∧
  length set1 ≤ length c ≤ length set1 + length set2.
Proof.
  intros (set3 & [Hseed _]%constructor_inv & Hfold & _)%unionByAcoAndType_inv.
  apply for_of_push_Forall2 in Hseed as (ps & -> & Hl%Forall2_toDto_inv & _).
  simpl in *. subst ps.
  destruct (for_of_addOrReplace_extends set2 set1) as (H1 & H2 & H3).
  rewrite Hfold in H1, H2, H3. simpl in *.
  split; [done|]. split; [by eapply for_of_addOrReplace_granted|]. done.
Qed.

End FoldFacts.

(** * Further properties of the folder model *)

Section CloneFacts.

Import PermissionEntity PermissionsCollection FolderModel.

Variable validate : PermissionDto → bool.
Variable get_folder : string → Result FolderEntity.

Lemma cloneParentPermissions_inv acoType acoId parentId (c : items) :
  cloneParentPermissions validate get_folder acoType acoId parentId = inr c →
  ∃ parentFolder, get_folder parentId = inr parentFolder ∧
    for_of (addOrReplace validate)
      (map (λ p, copyForAnotherAco p acoType acoId)
           (folder_permissions parentFolder)) []
    = (c, inr ()).
Proof.
  unfold cloneParentPermissions.
  destruct (get_folder parentId) as [e|parentFolder]; [done|].
  change (constructor validate [] (Some false)) with (@inr error items []).
  cbv beta iota zeta.
  change (for_of _ (folder_permissions parentFolder) []) with
    (for_of (λ x, addOrReplace validate (copyForAnotherAco x acoType acoId))
            (folder_permissions parentFolder) []).
  rewrite (for_of_map (λ p, copyForAnotherAco p acoType acoId)
             (addOrReplace validate)).
  destruct (for_of _ _ []) as [c' [e|[]]] eqn:E; [done|].
  intros [= <-]. by exists parentFolder.
Qed.

(** X11: when [cloneParentPermissions] returns, the parent folder was
    fetched, every member of the result is the copy of a permission of the
    parent for the given ACO, so the result is about that ACO only, every
    permission of the parent has an entry for its ARO at its level or above,
    and the result has no more members than the parent has permissions. *)
Theorem cloneParentPermissions_members acoType acoId parentId (c : items) :
  cloneParentPermissions validate get_folder acoType acoId parentId = inr c →
  ∃ parentFolder, get_folder parentId = inr parentFolder ∧
    (∀ q, q ∈ c →
       (∃ p, p ∈ folder_permissions parentFolder ∧
             q = copyForAnotherAco p acoType acoId) ∧
       aco q = acoType ∧ acoForeignKey q = acoId) ∧
    (∀ p, p ∈ folder_permissions parentFolder → granted p c) ∧
    length c ≤ length (folder_permissions parentFolder).
Proof.
  intros (parentFolder & Hget & Hfold)%cloneParentPermissions_inv.
  exists parentFolder. split; [done|].
  destruct (for_of_addOrReplace_extends validate
              (map (λ p, copyForAnotherAco p acoType acoId)
                   (folder_permissions parentFolder)) [])
    as (_ & Hlen & Hmem).
  rewrite Hfold in Hlen, Hmem. simpl in *. rewrite length_map in Hlen.
  split; [|split; [|lia]].
  - intros q [Hq|(p & -> & Hp)%list_elem_of_fmap]%Hmem;
      [by apply elem_of_nil in Hq|].
    split; [by exists p | done].
  - intros p Hp.
    destruct (for_of_addOrReplace_granted validate _ _ _ Hfold
                (copyForAnotherAco p acoType acoId))
      as (q & Hq & Hm & Hl);
      [by apply (list_elem_of_fmap_2 (λ p, copyForAnotherAco p acoType acoId))|].
    exists q. split; [done|]. split; [|done].
    apply isAroMatching_true in Hm. by apply isAroMatching_true.
Qed.

(** X12: a failure to fetch the parent is the failure of
    [cloneParentPermissions]; when the parent is fetched, its permissions
    are a reachable collection and their copies pass the schema, the result
    is the copies of the permissions of the parent, in their order. *)
Theorem cloneParentPermissions_copies acoType acoId parentId :
  (∀ e, get_folder parentId = inl e →
     cloneParentPermissions validate get_folder acoType acoId parentId
     = inl e) ∧
  (∀ parentFolder,
     get_folder parentId = inr parentFolder →
     reachable validate (folder_permissions parentFolder) →
     (∀ p, p ∈ folder_permissions parentFolder →
        validate (props (copyForAnotherAco p acoType acoId)) = true) →
     cloneParentPermissions validate get_folder acoType acoId parentId
     = inr (map (λ p, copyForAnotherAco p acoType acoId)
                (folder_permissions parentFolder))).
Proof.
  split.
  - intros e He. unfold cloneParentPermissions. by rewrite He.
  - intros parentFolder Hget [Hinv _]%reachable_invariants Hclones.
    unfold cloneParentPermissions. rewrite Hget.
    change (constructor validate [] (Some false)) with (@inr error items []).
    cbv beta iota zeta.
    change (for_of _ (folder_permissions parentFolder) []) with
      (for_of (λ x, addOrReplace validate (copyForAnotherAco x acoType acoId))
              (folder_permissions parentFolder) []).
    rewrite (for_of_map (λ p, copyForAnotherAco p acoType acoId)
               (addOrReplace validate)),
      (for_of_addOrReplace_fresh validate _ []); [done| |].
    + intros x (p & -> & Hp)%list_elem_of_fmap. by apply Hclones.
    + by apply invariants_copyForAnotherAco.
Qed.

(** X13: when [applyPermissionFromParent] computes a current and a target
    set, the folder has a parent that was fetched, the own permission of the
    folder passes the schema and is at Owner level, the current set is that
    permission alone, and every member of the target set is the copy of a
    permission of the parent for the folder or, with [keepOwnership], the own
    permission.  Without [keepOwnership], when no permission of the parent is
    for the ARO of the own permission, the target set has no entry for
    it. *)
Theorem applyPermissionFromParent_permissions_inv
    (folderEntity : FolderEntity) (keepOwnership : option bool)
    (current target : items) :
  applyPermissionFromParent_permissions validate get_folder
    folderEntity keepOwnership = inr (Some (current, target)) →
  let own := permission folderEntity in
  truthy (folderParentId folderEntity) = true ∧
  current = [own] ∧ type own = Owner ∧ validate (props own) = true ∧
  ∃ parentFolder,
    get_folder (default "" (folderParentId folderEntity)) = inr parentFolder ∧
    (∀ q, q ∈ target →
       (∃ p, p ∈ folder_permissions parentFolder ∧
             q = copyForAnotherAco p ACO_FOLDER (folder_id folderEntity)) ∨
       (keep_ownership keepOwnership = true ∧ q = own)) ∧
    (keep_ownership keepOwnership = false →
     (∀ p, p ∈ folder_permissions parentFolder →
           isAroMatching p own = false) →
     findByAro target own = None).
Proof.
  intros Hrun own. unfold applyPermissionFromParent_permissions in Hrun.
  destruct (truthy (folderParentId folderEntity)); [|done].
  split; [done|].
  destruct (constructor validate [Entity (permission folderEntity)] None)
    as [e|current'] eqn:Hcurrent; [done|].
  apply constructor_inv in Hcurrent as [Hpush Howner].
  apply for_of_push_Forall2 in Hpush as (ps & -> & Hl & Hvalid).
  inversion Hl as [|v p l ps' Hp Hnil]; subst. inversion Hnil; subst.
  simpl in Hp. injection Hp as Hp.
  assert (p = own) as ->.
  { unfold own. destruct p, (permission folderEntity). simpl in *. congruence. }
  simpl in Howner. specialize (Howner eq_refl).
  assert (type own = Owner) as Htype.
  { unfold isOwner in Howner. destruct (bool_decide (type own = Owner)) eqn:E;
      [by apply bool_decide_eq_true in E | done]. }
  assert (validate (props own) = true) as Hown by (apply Hvalid; left).
  destruct (cloneParentPermissions validate get_folder ACO_FOLDER
              (folder_id folderEntity)
              (default "" (folderParentId folderEntity)))
    as [e|clones] eqn:Hclone; [done|].
  apply cloneParentPermissions_members in Hclone
    as (parentFolder & Hget & Hmem & _ & _).
  assert (∀ pp, (∀ p, p ∈ folder_permissions parentFolder →
                      isAroMatching p own = false) →
                (∀ q, q ∈ pp → ∃ p, p ∈ folder_permissions parentFolder ∧
                   q = copyForAnotherAco p ACO_FOLDER (folder_id folderEntity)) →
                findByAro pp own = None) as Hnone.
  { intros pp Hno Hpp. apply findByAro_None. intros q (p0 & Hp0 & ->)%Hpp.
    rewrite <- (Hno p0 Hp0). done. }
  destruct (keep_ownership keepOwnership).
  - destruct (addOrReplace validate (permission folderEntity) clones)
      as [target' [e|[]]] eqn:Hadd; [done|].
    injection Hrun as <- <-. do 3 (split; [done|]).
    exists parentFolder. split; [done|]. split; [|done].
    intros q Hq.
    pose proof (addOrReplace_members validate clones own q) as Hq'.
    fold own in Hadd. rewrite Hadd in Hq'.
    destruct (Hq' Hq) as [Hc|Heq]; [left; by apply Hmem | by right].
  - injection Hrun as <- <-. do 3 (split; [done|]).
    exists parentFolder. split; [done|]. split.
    + intros q Hq. left. by apply Hmem.
    + intros _ Hno. apply Hnone; [done|]. intros q Hq. by apply Hmem.
Qed.

(** X14: [applyPermissionFromParent] computes no permission set exactly
    when the folder has no parent, and then returns the folder entity it was
    given, whatever the collaborators would answer. *)
Theorem applyPermissionFromParent_root (Changes : Type)
    (buildChangesFromPermissions : items → items → Changes)
    (updatePermissions : FolderEntity → Changes → Result FolderEntity)
    (folderEntity : FolderEntity) (keepOwnership : option bool) :
  (applyPermissionFromParent_permissions validate get_folder
     folderEntity keepOwnership = inr None
   ↔ truthy (folderParentId folderEntity) = false) ∧
  (truthy (folderParentId folderEntity) = false →
   applyPermissionFromParent validate get_folder Changes
     buildChangesFromPermissions updatePermissions folderEntity keepOwnership
   = inr folderEntity).
Proof.
  assert (truthy (folderParentId folderEntity) = false →
          applyPermissionFromParent_permissions validate get_folder
            folderEntity keepOwnership = inr None) as Hnone.
  { intros H. unfold applyPermissionFromParent_permissions. by rewrite H. }
  split; [split; [|done]|].
  - unfold applyPermissionFromParent_permissions.
    destruct (truthy (folderParentId folderEntity)); [|done].
    destruct (constructor _ _ _); [done|].
    destruct (cloneParentPermissions _ _ _ _ _); [done|].
    destruct (keep_ownership keepOwnership); [|done].
    by destruct (addOrReplace _ _ _) as [? [?|[]]].
  - intros H. unfold applyPermissionFromParent. by rewrite Hnone.
Qed.

End CloneFacts.

Section CallsFacts.

Import FolderModel FolderModelCalls.

Variable FolderDto FoldersCollection Changes : Type.

Abbreviation calls := (list (call FolderDto FoldersCollection Changes)).

Variable findAll_answer : calls → Result (list FolderDto).
Variable create_answer : calls → Result FolderDto.
Variable update_answer : calls → Result FolderDto.
Variable updatePermissions_answer : calls → Result unit.
Variable delete_answer : calls → Result unit.
Variable storage_answer : calls → Result unit.
Variable FolderEntity_new : FolderDto → Result FolderEntity.
Variable FoldersCollection_new : list FolderDto → Result FoldersCollection.
Variable FolderEntity_toDto : FolderEntity → FolderDto.

#[local] Abbreviation findAll :=
  (FolderModelCalls.findAll FolderDto FoldersCollection Changes
     findAll_answer FoldersCollection_new).
#[local] Abbreviation updateLocalStorage :=
  (FolderModelCalls.updateLocalStorage FolderDto FoldersCollection Changes
     findAll_answer storage_answer FoldersCollection_new).
#[local] Abbreviation create :=
  (FolderModelCalls.create FolderDto FoldersCollection Changes
     create_answer storage_answer FolderEntity_new FolderEntity_toDto).
#[local] Abbreviation update :=
  (FolderModelCalls.update FolderDto FoldersCollection Changes
     update_answer storage_answer FolderEntity_new FolderEntity_toDto).
#[local] Abbreviation updatePermissions :=
  (FolderModelCalls.updatePermissions FolderDto FoldersCollection Changes
     findAll_answer updatePermissions_answer storage_answer
     FoldersCollection_new).
#[local] Abbreviation delete :=
  (FolderModelCalls.delete FolderDto FoldersCollection Changes
     findAll_answer delete_answer storage_answer FoldersCollection_new).

Lemma updateLocalStorage_inv (log log' : calls) foldersCollection :
  updateLocalStorage log = (log', inr foldersCollection) →
  (∃ foldersDtos,
     findAll_answer (log ++ [folderService_findAll]) = inr foldersDtos ∧
     FoldersCollection_new foldersDtos = inr foldersCollection) ∧
  log' = log ++ [folderService_findAll;
                 FolderLocalStorage_set foldersCollection].
Proof.
  unfold FolderModelCalls.updateLocalStorage, FolderModelCalls.findAll,
    bind, perform, lift, ret.
  destruct (findAll_answer _) as [e|dtos] eqn:Hanswer; [done|].
  destruct (FoldersCollection_new dtos) as [e|coll] eqn:Hnew; [done|].
  destruct (storage_answer _) as [e|[]]; [done|].
  intros [= <- <-]. split; [by exists dtos|]. by rewrite <- app_assoc.
Qed.

(** X15: when [updateLocalStorage] returns a collection, it is the
    collection built from the answer of the folder service, and the calls
    made are the request for all folders and then the write of that
    collection to the local storage; when the request or the construction of
    the collection fails, nothing is written to the local storage. *)
Theorem updateLocalStorage_stores_answer (log : calls) :
  (∀ log' foldersCollection,
     updateLocalStorage log = (log', inr foldersCollection) →
     (∃ foldersDtos,
        findAll_answer (log ++ [folderService_findAll]) = inr foldersDtos ∧
        FoldersCollection_new foldersDtos = inr foldersCollection) ∧
     log' = log ++ [folderService_findAll;
                    FolderLocalStorage_set foldersCollection]) ∧
  (∀ e, findAll log = (log ++ [folderService_findAll], inl e) →
     updateLocalStorage log = (log ++ [folderService_findAll], inl e)).
Proof.
  split; [apply updateLocalStorage_inv|].
  intros e He. unfold FolderModelCalls.updateLocalStorage, bind.
  by rewrite He.
Qed.

(** X16: [create] writes to the local storage only after the folder
    service answered and the answer made an entity: when it returns, the
    entity returned is the one built from the answer, not the one given, and
    the calls are the creation and then the storage of that entity; when the
    service fails, or its answer makes no entity, that error is thrown and
    the local storage is not called. *)
Theorem create_stores_answer (folderEntity : FolderEntity) (log : calls) :
  let request := folderService_create (FolderEntity_toDto folderEntity) in
  (∀ log' updatedFolderEntity,
     create folderEntity log = (log', inr updatedFolderEntity) →
     (∃ folderDto, create_answer (log ++ [request]) = inr folderDto ∧
        FolderEntity_new folderDto = inr updatedFolderEntity) ∧
     log' = log ++ [request; FolderLocalStorage_addFolder updatedFolderEntity]) ∧
  (∀ e, create_answer (log ++ [request]) = inl e →
     create folderEntity log = (log ++ [request], inl e)) ∧
  (∀ folderDto e, create_answer (log ++ [request]) = inr folderDto →
     FolderEntity_new folderDto = inl e →
     create folderEntity log = (log ++ [request], inl e)).
Proof.
  intros request.
  unfold FolderModelCalls.create, bind, perform, lift, ret. fold request.
  split; [|split].
  - intros log' updated.
    destruct (create_answer _) as [e|dto] eqn:Hanswer; [done|].
    destruct (FolderEntity_new dto) as [e|u] eqn:Hnew; [done|].
    destruct (storage_answer _) as [e|[]]; [done|].
    intros [= <- <-]. split; [by exists dto|]. by rewrite <- app_assoc.
  - intros e ->. done.
  - intros dto e -> ->. done.
Qed.

(** X17: [update] does the same with the update request for the
    identifier of the folder: the entity returned is the one built from the
    answer and it is the one written to the local storage, after the
    request; a failure of the service or of the construction of the entity is
    thrown without a call to the local storage. *)
Theorem update_stores_answer (folderEntity : FolderEntity) (log : calls) :
  let request :=
    folderService_update (folder_id folderEntity)
      (FolderEntity_toDto folderEntity) in
  (∀ log' updatedFolderEntity,
     update folderEntity log = (log', inr updatedFolderEntity) →
     (∃ folderDto, update_answer (log ++ [request]) = inr folderDto ∧
        FolderEntity_new folderDto = inr updatedFolderEntity) ∧
     log' = log ++ [request;
                    FolderLocalStorage_updateFolder updatedFolderEntity]) ∧
  (∀ e, update_answer (log ++ [request]) = inl e →
     update folderEntity log = (log ++ [request], inl e)) ∧
  (∀ folderDto e, update_answer (log ++ [request]) = inr folderDto →
     FolderEntity_new folderDto = inl e →
     update folderEntity log = (log ++ [request], inl e)).
Proof.
  intros request.
  unfold FolderModelCalls.update, bind, perform, lift, ret. fold request.
  split; [|split].
  - intros log' updated.
    destruct (update_answer _) as [e|dto] eqn:Hanswer; [done|].
    destruct (FolderEntity_new dto) as [e|u] eqn:Hnew; [done|].
    destruct (storage_answer _) as [e|[]]; [done|].
    intros [= <- <-]. split; [by exists dto|]. by rewrite <- app_assoc.
  - intros e ->. done.
  - intros dto e -> ->. done.
Qed.

(** X18: [updatePermissions] sends the changes first and, when the
    service fails, throws its error without any further call.  When it
    returns, it returns the folder entity it was given; with [updateStorage]
    false the request is the only call, and with [updateStorage] true or
    omitted the request is followed by the request for all folders and the
    write of their collection to the local storage. *)
Theorem updatePermissions_calls (folderEntity : FolderEntity)
    (changesCollection : Changes) (updateStorage : option bool)
    (log : calls) :
  let request :=
    folderService_updatePermissions (folder_id folderEntity)
      changesCollection in
  (∀ e, updatePermissions_answer (log ++ [request]) = inl e →
     updatePermissions folderEntity changesCollection updateStorage log
     = (log ++ [request], inl e)) ∧
  (∀ log' returned,
     updatePermissions folderEntity changesCollection updateStorage log
     = (log', inr returned) →
     returned = folderEntity ∧
     (updateStorage = Some false → log' = log ++ [request]) ∧
     (updateStorage ≠ Some false →
      ∃ foldersCollection,
        log' = log ++ [request; folderService_findAll;
                       FolderLocalStorage_set foldersCollection])).
Proof.
  intros request. unfold FolderModelCalls.updatePermissions.
  fold request. split.
  - intros e He. unfold bind at 1. unfold perform at 1. by rewrite He.
  - intros log' returned. unfold bind at 1. unfold perform at 1.
    destruct (updatePermissions_answer _) as [e|[]]; [done|].
    destruct updateStorage as [[|]|]; simpl.
    + unfold bind at 1. unfold bind at 1.
      destruct (updateLocalStorage (log ++ [request]))
        as [log1 [e|coll]] eqn:Hsync; [done|].
      apply updateLocalStorage_inv in Hsync as [_ ->].
      unfold ret. intros [= <- <-]. split; [done|]. split; [done|].
      intros _. exists coll. by rewrite <- app_assoc.
    + unfold bind, ret. intros [= <- <-]. split; [done|]. split; [done|].
      intros H. done.
    + unfold bind at 1. unfold bind at 1.
      destruct (updateLocalStorage (log ++ [request]))
        as [log1 [e|coll]] eqn:Hsync; [done|].
      apply updateLocalStorage_inv in Hsync as [_ ->].
      unfold ret. intros [= <- <-]. split; [done|]. split; [done|].
      intros _. exists coll. by rewrite <- app_assoc.
Qed.

(** X19: [delete] asks the folder service first and, when the service
    fails, throws its error without touching the local storage.  When it
    returns without [cascade], the calls are the request and the removal of
    the folder from the local storage, and the folders are not fetched; with
    [cascade] they are followed by the request for all folders and the write
    of their collection. *)
Theorem delete_calls (folderId : string) (cascade : option bool)
    (log : calls) :
  let request := folderService_delete folderId cascade in
  (∀ e, delete_answer (log ++ [request]) = inl e →
     delete folderId cascade log = (log ++ [request], inl e)) ∧
  (∀ log', delete folderId cascade log = (log', inr ()) →
     (cascading cascade = false →
      log' = log ++ [request; FolderLocalStorage_delete folderId]) ∧
     (cascading cascade = true →
      ∃ foldersCollection,
        log' = log ++ [request; FolderLocalStorage_delete folderId;
                       folderService_findAll;
                       FolderLocalStorage_set foldersCollection])).
Proof.
  intros request. unfold FolderModelCalls.delete. fold request. split.
  - intros e He. unfold bind at 1. unfold perform at 1. by rewrite He.
  - intros log'. unfold bind at 1. unfold perform at 1.
    destruct (delete_answer _) as [e|[]]; [done|].
    unfold bind at 1. unfold perform at 1.
    destruct (storage_answer _) as [e|[]]; [done|].
    destruct (cascading cascade).
    + unfold bind at 1.
      destruct (updateLocalStorage _) as [log1 [e|coll]] eqn:Hsync; [done|].
      apply updateLocalStorage_inv in Hsync as [_ ->].
      unfold ret. intros [= <-]. split; [done|]. intros _. exists coll.
      by rewrite <- !app_assoc.
    + unfold ret. intros [= <-]. split; [|done]. intros _.
      by rewrite <- app_assoc.
Qed.

End CallsFacts.

(** * Further properties of the progress controller *)

Section ProgressFacts.

Import progressController.

Variable Worker_get : string → nat → Worker.

(** X20: what each of the four functions the progress controller exports
    sends, with [Worker.get] answering a worker and [port.emit] returning.
    The progress message goes to the worker itself when it has no page mod
    and to the ReactApp worker of its tab when it is a legacy worker.
    [start] sends passbolt.progress.start with the title, the goals and the
    message, after the show message to the App worker for a legacy worker;
    [complete] sends passbolt.progress.complete without argument, followed
    by the hide message to the App worker for a legacy worker; [update]
    sends passbolt.progress.update with the message first and the number of
    completed steps second, the reverse of its parameters; [updateGoals]
    sends passbolt.progress.update-goals with the goals.  Nothing else is
    sent, nothing already sent is changed, and there is no other export. *)
Theorem exports_emit (name : string) (f : function) (worker : Worker)
    (args : list arg) (log : trace) :
  (name, f) ∈ exports Worker_get →
  let progressWorker :=
    if bool_decide (pageMod worker = None) then worker
    else Worker_get "ReactApp" (tab_id worker) in
  let appWorker := Worker_get "App" (tab_id worker) in
  let legacy (message : string) : trace :=
    if bool_decide (pageMod worker = None) then []
    else [PortEmit appWorker message []] in
  (name = "start" ∧
   f worker args log =
     (log ++ legacy "passbolt.app.show"
          ++ [PortEmit progressWorker "passbolt.progress.start"
                [argument args 0; argument args 1; argument args 2]],
      inr ())) ∨
  (name = "complete" ∧
   f worker args log =
     (log ++ [PortEmit progressWorker "passbolt.progress.complete" []]
          ++ legacy "passbolt.app.hide",
      inr ())) ∨
  (name = "update" ∧
   f worker args log =
     (log ++ [PortEmit progressWorker "passbolt.progress.update"
                [argument args 1; argument args 0]],
      inr ())) ∨
  (name = "updateGoals" ∧
   f worker args log =
     (log ++ [PortEmit progressWorker "passbolt.progress.update-goals"
                [argument args 0]],
      inr ())).
Proof.
  intros Hin progressWorker appWorker legacy.
  subst progressWorker appWorker legacy. unfold exports in Hin.
  repeat (apply elem_of_cons in Hin as [[= -> ->]|Hin]);
    [| | | |by apply elem_of_nil in Hin].
  - left. split; [done|].
    unfold start, getProgressWorker, isLegacyWorker, bind, port_emit, ret.
    destruct (pageMod worker) as [pm|]; simpl; [|done].
    by rewrite <- app_assoc.
  - right; left. split; [done|].
    unfold complete, getProgressWorker, isLegacyWorker, bind, port_emit, ret.
    destruct (pageMod worker) as [pm|]; simpl; [|done].
    by rewrite <- app_assoc.
  - right; right; left. split; [done|].
    unfold update, getProgressWorker, isLegacyWorker, port_emit.
    by destruct (pageMod worker) as [pm|].
  - right; right; right. split; [done|].
    unfold updateGoals, getProgressWorker, isLegacyWorker, port_emit.
    by destruct (pageMod worker) as [pm|].
Qed.

(** X21: [start] followed by [complete] sends, for a legacy worker, the
    show message to the App worker, the start and the complete message to
    the ReactApp worker, and the hide message to the App worker, in this
    order; for a worker without page mod, the start and the complete message
    to that worker. *)
Theorem start_then_complete (worker : Worker) (args args' : list arg)
    (log : trace) :
  let run := (start Worker_get worker args ;;
              complete Worker_get worker args') log in
  let started :=
    [argument args 0; argument args 1; argument args 2] in
  (isLegacyWorker worker = true →
   run = (log ++ [PortEmit (Worker_get "App" (tab_id worker))
                    "passbolt.app.show" [];
                  PortEmit (Worker_get "ReactApp" (tab_id worker))
                    "passbolt.progress.start" started;
                  PortEmit (Worker_get "ReactApp" (tab_id worker))
                    "passbolt.progress.complete" [];
                  PortEmit (Worker_get "App" (tab_id worker))
                    "passbolt.app.hide" []], inr ())) ∧
  (isLegacyWorker worker = false →
   run = (log ++ [PortEmit worker "passbolt.progress.start" started;
                  PortEmit worker "passbolt.progress.complete" []], inr ())).
Proof.
  intros run started. subst run.
  unfold start, complete, getProgressWorker, bind, port_emit, ret.
  split; intros ->; by rewrite <- !app_assoc.
Qed.

End ProgressFacts.

(** * Further properties of the members as objects *)

Section IsolationFacts.

Import PermissionEntity PermissionsCollection.

Variable validate : PermissionDto → bool.

Lemma omap_agree (objs objs' : items) (ms : list Objects.ref) :
  (∀ r, r ∈ ms → objs' !! r = objs !! r) →
  omap (objs' !!.) ms = omap (objs !!.) ms.
Proof.
  induction ms as [|r ms IH]; intros Hagree; [done|]. simpl.
  rewrite (Hagree r) by left. unfold omap in IH.
  rewrite IH; [done|]. intros r' Hr'. apply Hagree. by right.
Qed.

(** X22: [push] of an entity object that is not itself a member stores a
    copy: whatever the caller writes into its entity afterwards, the values
    of the members stay as [push] left them. *)
Theorem push_isolates_caller (st st' : Objects.state)
    (permission : Objects.ref) (written : PermissionDto) :
  permission ∉ Objects.members st →
  Objects.push validate permission st = (st', inr ()) →
  Objects.view (Objects.assign permission written st').1 = Objects.view st'.
Proof.
  intros Hfresh Hpush.
  destruct (push_stores_copy validate st st' permission Hpush) as [Hlt Hmem].
  unfold Objects.view, Objects.assign. simpl.
  apply omap_agree. intros r Hr. rewrite Hmem in Hr.
  apply list_lookup_insert_ne.
  apply elem_of_app in Hr as [Hr|Hr%list_elem_of_singleton].
  - intros ->. done.
  - lia.
Qed.

End IsolationFacts.

(** * The further properties at sample inputs *)

Section FurtherSampleRuns.

Import PermissionEntity PermissionsCollection FolderModel.

Ltac in_list H :=
  repeat (apply elem_of_cons in H as [->|H]);
  try (by apply elem_of_nil in H).

Ltac at_index i H :=
  repeat (destruct i as [|i]; simpl in H;
          [injection H as <-|]);
  try (by rewrite lookup_nil in H).

Ltac pairwise :=
  let i := fresh "i" in let j := fresh "j" in
  let Hp := fresh "Hp" in let Hq := fresh "Hq" in
  intros i j ? ? Hp Hq; at_index i Hp; at_index j Hq;
  intros; (done || simplify_eq).

Lemma push_then_findByAro_witness :
  let c := [entity_on_folder "f1" None "User" "u1" Owner] in
  let p := entity_on_folder "f1" None "Group" "g1" Read in
  ∃ q, value_dto (Entity p) = Some (props q) ∧
       sample_schema (props q) = true ∧
       c ++ [p] = c ++ [q] ∧ findByAro c q = None ∧
       findByAro (c ++ [p]) q = Some q.
Proof.
  intros c p.
  apply (push_then_findByAro sample_schema c (c ++ [p]) (Entity p)).
  reflexivity.
Defined.

Lemma addOrReplace_failure_leaves_members_witness :
  let c := [entity_on_folder "f1" None "User" "u1" Owner] in
  let p := entity_on_folder "f2" None "User" "u1" Read in
  (addOrReplace sample_schema p c).1 = c ∧
  push sample_schema (Entity p) c =
    (c, inl (EntityCollectionError 0 RULE_SAME_ACO
               "The collection is already composed of this type of ACO: Folder.")).
Proof.
  intros c p.
  apply (addOrReplace_failure_leaves_members sample_schema c p).
  reflexivity.
Defined.

Lemma addOrReplace_then_findByAro_witness :
  let existing := entity_on_folder "f1" (Some "i1") "User" "u1" Read in
  let p := entity_on_folder "f1" None "User" "u1" Update in
  ∃ q, findByAro [p] p = Some q ∧ level (type p) ≤ level (type q) ∧
       (q = p ∨ q ∈ [existing]).
Proof.
  intros existing p.
  apply (addOrReplace_then_findByAro sample_schema [existing] [p] p).
  - split; [|split].
    + intros x y Hx Hy. in_list Hx. in_list Hy. done.
    + pairwise.
    + pairwise.
  - reflexivity.
Defined.

Lemma addOrReplace_idempotent_witness :
  let existing := entity_on_folder "f1" (Some "i1") "User" "u1" Read in
  let p := entity_on_folder "f1" (Some "i1") "User" "u1" Owner in
  addOrReplace sample_schema p [p] = ([p], inr ()).
Proof.
  intros existing p.
  apply (addOrReplace_idempotent sample_schema [existing] [p] p).
  reflexivity.
Defined.

Lemma constructor_members_witness :
  let l := [Dto (on_folder "f1" None "User" "u1" Owner);
            Entity (entity_on_folder "f1" None "Group" "g1" Read)] in
  let c := [entity_on_folder "f1" None "User" "u1" Owner;
            entity_on_folder "f1" None "Group" "g1" Read] in
  Forall2 (λ v p, value_dto v = Some (props p)) l c ∧
  all_valid sample_schema c ∧
  (owner_validation_enabled None = true → ∃ p, p ∈ c ∧ type p = Owner).
Proof.
  intros l c. apply (constructor_members sample_schema l None c).
  reflexivity.
Defined.

Lemma toDto_constructor_round_trip_witness :
  let c := [entity_on_folder "f1" None "User" "u1" Read;
            entity_on_folder "f1" None "Group" "g1" Update] in
  constructor sample_schema (map Dto (toDto c)) (Some false) = inr c ∧
  constructor sample_schema (map Dto (toDto c)) None =
    inl (EntityCollectionError 0 RULE_ONE_OWNER
           "Permission collection should contain at least one owner.").
Proof.
  intros c.
  destruct (toDto_constructor_round_trip sample_schema c) as (H1 & _ & H3).
  - apply (reachable_constructor sample_schema (map Dto (toDto c))
             (Some false)).
    reflexivity.
  - split; [exact H1|]. apply H3. intros p Hp. in_list Hp; discriminate.
Defined.

Lemma unionByAcoAndType_empty_witness :
  let c := [entity_on_folder "f1" None "User" "u1" Owner;
            entity_on_folder "f1" None "Group" "g1" Update] in
  unionByAcoAndType sample_schema c [] None = inr c ∧
  unionByAcoAndType sample_schema [] c None = inr c.
Proof.
  intros c. apply (unionByAcoAndType_empty sample_schema c None).
  - apply (reachable_constructor sample_schema (map Dto (toDto c)) None).
    reflexivity.
  - intros _. exists (entity_on_folder "f1" None "User" "u1" Owner).
    split; [left | reflexivity].
Defined.

Lemma unionByAcoAndType_keeps_both_witness :
  let set1 := [entity_on_folder "f1" None "User" "u1" Owner] in
  let set2 := [entity_on_folder "f1" None "User" "u1" Read;
               entity_on_folder "f1" None "Group" "g1" Update] in
  let c := [entity_on_folder "f1" None "User" "u1" Owner;
            entity_on_folder "f1" None "Group" "g1" Update] in
  never_lowered set1 c ∧ (∀ p, p ∈ set2 → granted p c) ∧
  (∀ q, q ∈ c → q ∈ set1 ∨ q ∈ set2) ∧
  length set1 ≤ length c ≤ length set1 + length set2.
Proof.
  intros set1 set2 c.
  apply (unionByAcoAndType_keeps_both sample_schema set1 set2 None c).
  reflexivity.
Defined.

Lemma cloneParentPermissions_members_witness :
  let c := [entity_on_folder "folder" None "User" "u1" Owner] in
  ∃ parentFolder, sample_get_folder "parent" = inr parentFolder ∧
    (∀ q, q ∈ c →
       (∃ p, p ∈ folder_permissions parentFolder ∧
             q = copyForAnotherAco p ACO_FOLDER "folder") ∧
       aco q = ACO_FOLDER ∧ acoForeignKey q = "folder") ∧
    (∀ p, p ∈ folder_permissions parentFolder → granted p c) ∧
    length c ≤ length (folder_permissions parentFolder).
Proof.
  intros c.
  apply (cloneParentPermissions_members sample_schema sample_get_folder
           ACO_FOLDER "folder" "parent" c).
  reflexivity.
Defined.

Lemma cloneParentPermissions_copies_witness :
  cloneParentPermissions sample_schema sample_get_folder
    ACO_FOLDER "folder" "parent"
  = inr [entity_on_folder "folder" None "User" "u1" Owner].
Proof.
  destruct (cloneParentPermissions_copies sample_schema sample_get_folder
              ACO_FOLDER "folder" "parent") as [_ H].
  apply (H sample_parent).
  - reflexivity.
  - apply (reachable_constructor sample_schema
             (map Dto (toDto (folder_permissions sample_parent))) None).
    reflexivity.
  - intros p Hp. simpl in Hp. in_list Hp. reflexivity.
Defined.

Lemma applyPermissionFromParent_permissions_inv_witness :
  let own := permission sample_folder in
  truthy (folderParentId sample_folder) = true ∧
  [own] = [own] ∧ type own = Owner ∧ sample_schema (props own) = true.
Proof.
  intros own.
  destruct (applyPermissionFromParent_permissions_inv sample_schema
              sample_get_folder sample_folder (Some false) [own]
              [entity_on_folder "folder" None "User" "u1" Owner])
    as (H1 & H2 & H3 & H4 & _).
  - reflexivity.
  - exact (conj H1 (conj H2 (conj H3 H4))).
Defined.

Lemma updateLocalStorage_stores_answer_witness :
  [FolderModelCalls.folderService_findAll;
   FolderModelCalls.FolderLocalStorage_set [sample_parent; sample_folder]]
  = ([] : list sample_call)
      ++ [FolderModelCalls.folderService_findAll;
          FolderModelCalls.FolderLocalStorage_set
            [sample_parent; sample_folder]].
Proof.
  destruct (updateLocalStorage_stores_answer _ _ unit
              sample_findAll_answer sample_unit_answer
              sample_FoldersCollection_new []) as [H _].
  destruct (H _ [sample_parent; sample_folder] eq_refl) as [_ Hlog].
  exact Hlog.
Defined.

Lemma create_stores_answer_witness :
  ∃ folderDto,
    sample_folder_answer
      [FolderModelCalls.folderService_create sample_folder] = inr folderDto ∧
    sample_FolderEntity_new folderDto = inr sample_folder.
Proof.
  destruct (create_stores_answer _ (list FolderEntity) unit
              sample_folder_answer sample_unit_answer
              sample_FolderEntity_new (λ f, f) sample_folder [])
    as [H _].
  destruct (H _ sample_folder eq_refl) as [Hanswer _].
  exact Hanswer.
Defined.

Lemma update_stores_answer_witness :
  ∃ folderDto,
    sample_folder_answer
      [FolderModelCalls.folderService_update "folder" sample_folder]
    = inr folderDto ∧
    sample_FolderEntity_new folderDto = inr sample_folder.
Proof.
  destruct (update_stores_answer _ (list FolderEntity) unit
              sample_folder_answer sample_unit_answer
              sample_FolderEntity_new (λ f, f) sample_folder [])
    as [H _].
  destruct (H _ sample_folder eq_refl) as [Hanswer _].
  exact Hanswer.
Defined.

Lemma updatePermissions_calls_witness :
  sample_folder = sample_folder ∧
  ∃ foldersCollection,
    [FolderModelCalls.folderService_updatePermissions "folder" ();
     FolderModelCalls.folderService_findAll;
     FolderModelCalls.FolderLocalStorage_set [sample_parent; sample_folder]]
    = ([] : list sample_call)
        ++ [FolderModelCalls.folderService_updatePermissions "folder" ();
            FolderModelCalls.folderService_findAll;
            FolderModelCalls.FolderLocalStorage_set foldersCollection].
Proof.
  destruct (updatePermissions_calls _ _ unit
              sample_findAll_answer sample_unit_answer sample_unit_answer
              sample_FoldersCollection_new sample_folder () None [])
    as [_ H].
  destruct (H _ sample_folder eq_refl) as (Hsame & _ & Hsync).
  split; [exact Hsame|]. apply Hsync. discriminate.
Defined.

Lemma delete_calls_witness :
  [FolderModelCalls.folderService_delete "folder" None;
   FolderModelCalls.FolderLocalStorage_delete "folder"]
  = ([] : list sample_call)
      ++ [FolderModelCalls.folderService_delete "folder" None;
          FolderModelCalls.FolderLocalStorage_delete "folder"].
Proof.
  destruct (delete_calls _ _ unit
              sample_findAll_answer sample_unit_answer sample_unit_answer
              sample_FoldersCollection_new "folder" None [])
    as [_ H].
  destruct (H _ eq_refl) as [Hplain _]. apply Hplain. reflexivity.
Defined.

Lemma exports_emit_witness :
  let Worker_get := λ name tab, mkWorker name None tab in
  let worker := mkWorker "Import" (Some "import") 7 in
  progressController.update Worker_get worker [Num 3; Str "Encrypting"]
    [PortEmit worker "earlier" []]
  = ([PortEmit worker "earlier" [];
      PortEmit (mkWorker "ReactApp" None 7) "passbolt.progress.update"
        [Str "Encrypting"; Num 3]],
     inr ()).
Proof.
  intros Worker_get worker.
  destruct (exports_emit Worker_get "update"
              (progressController.update Worker_get) worker
              [Num 3; Str "Encrypting"] [PortEmit worker "earlier" []])
    as [[Hname _]|[[Hname _]|[[_ Hrun]|[Hname _]]]];
    [right; right; left | discriminate Hname | discriminate Hname
    | exact Hrun | discriminate Hname].
Defined.

Lemma push_isolates_caller_witness :
  let st :=
    Objects.mkState
      [entity_on_folder "f1" None "User" "u1" Owner;
       entity_on_folder "f1" None "Group" "g1" Read] [0] in
  let st' := (Objects.push sample_schema 1 st).1 in
  Objects.view
    (Objects.assign 1 (on_folder "f1" None "User" "u1" Read) st').1
  = Objects.view st'.
Proof.
  intros st st'.
  apply (push_isolates_caller sample_schema st st' 1).
  - intros Hin. simpl in Hin.
    apply elem_of_cons in Hin as [Heq|Hin];
      [discriminate | by apply elem_of_nil in Hin].
  - reflexivity.
Defined.

Lemma findByAro_first_witness :
  let c := [entity_on_folder "f1" None "User" "u1" Owner;
            entity_on_folder "f1" None "Group" "g1" Read;
            entity_on_folder "f1" (Some "i3") "Group" "g1" Update] in
  let p := entity_on_folder "f2" None "Group" "g1" Owner in
  let q := entity_on_folder "f1" None "Group" "g1" Read in
  ∃ i, c !! i = Some q ∧ isAroMatching q p = true ∧
       ∀ j q', c !! j = Some q' → j < i → isAroMatching q' p = false.
Proof.
  intros c p q.
  destruct (findByAro_first c p) as [_ H].
  apply (H q). reflexivity.
Defined.

Lemma applyPermissionFromParent_root_witness :
  applyPermissionFromParent sample_schema sample_get_folder unit
    (λ _ _, ()) (λ _ _, inl (RemoteError "unreachable"))
    sample_parent None
  = inr sample_parent.
Proof.
  destruct (applyPermissionFromParent_root sample_schema sample_get_folder
              unit (λ _ _, ()) (λ _ _, inl (RemoteError "unreachable"))
              sample_parent None) as [_ H].
  apply H. reflexivity.
Defined.

Lemma start_then_complete_witness :
  let Worker_get := λ name tab, mkWorker name None tab in
  let worker := mkWorker "Export" (Some "export") 7 in
  (progressController.start Worker_get worker [Str "Exporting"; Num 2] ;;
   progressController.complete Worker_get worker []) []
  = ([] ++ [PortEmit (mkWorker "App" None 7) "passbolt.app.show" [];
            PortEmit (mkWorker "ReactApp" None 7) "passbolt.progress.start"
              [Str "Exporting"; Num 2; Undefined];
            PortEmit (mkWorker "ReactApp" None 7)
              "passbolt.progress.complete" [];
            PortEmit (mkWorker "App" None 7) "passbolt.app.hide" []],
     inr ()).
Proof.
  intros Worker_get worker.
  destruct (start_then_complete Worker_get worker [Str "Exporting"; Num 2]
              [] []) as [H _].
  apply H. reflexivity.
Defined.

End FurtherSampleRuns.
